(** * morph-mcp filesystem tools: a shallow embedding and its properties

    The server (dist/index.js) exposes file-system tools over a request /
    response protocol.  This development embeds the path validator, the
    text-patch engine, the streaming head/tail readers, the recursive search
    and the mutating tool handlers, and states the properties of the
    specification against them.  It also embeds the reading of several
    files, the tools configuration and the list of tools, the workspace
    detection and the maintenance of the allow-list at start and on roots
    updates, and proves further properties of all of these (Part III).
    Part IV reads the exclusion globs of the search through the stand-in
    for [minimatch] and states which directories a search lists.

    Conventions.
    - A JavaScript string is a [text]: the list of its code units.  Code
      units are taken in the range 0..255, so that a file's bytes and the
      characters of the decoded string coincide (ASCII content).
    - The file system, [minimatch] and [createTwoFilesPatch] are external to
      the repository; the code is embedded over an interface for them, and
      an in-memory tree model of a POSIX file system instantiates the
      interface for concrete runs.
    - Handlers run in a state-and-exception monad whose state carries the
      file-system world, the trace of file-system calls made so far, the
      allow-list and the random source. *)

From Stdlib Require Import Ascii String List Bool Arith ZArith Lia.
Import ListNotations.

Set Implicit Arguments.

Definition text := list ascii.
Coercion list_ascii_of_string : string >-> list.

Open Scope string_scope.
Open Scope list_scope.
Open Scope nat_scope.

(* ================================================================== *)
(** * Part I: definitions *)
(* ================================================================== *)

(** ** JavaScript string primitives used by the server *)

Module JS.

Definition LF : ascii := "010"%char.
Definition CR : ascii := "013"%char.

Fixpoint eqb (a b : text) : bool :=
  match a, b with
  | [], [] => true
  | x :: a', y :: b' => Ascii.eqb x y && eqb a' b'
  | _, _ => false
  end.

(** [s.startsWith(p)] *)
Fixpoint startsWith (s p : text) : bool :=
  match p, s with
  | [], _ => true
  | _ :: _, [] => false
  | x :: p', y :: s' => Ascii.eqb x y && startsWith s' p'
  end.

(** [s.includes(sub)] *)
Fixpoint includes (s sub : text) : bool :=
  startsWith s sub ||
  match s with
  | [] => false
  | _ :: s' => includes s' sub
  end.

(** [s.slice(a, b)] and [s.slice(a)] for indices within range. *)
Definition slice (s : text) (a b : nat) : text := firstn (b - a) (skipn a s).
Definition sliceFrom (s : text) (a : nat) : text := skipn a s.

(** [c.repeat(n)] for a one-character string. *)
Definition repeat (c : ascii) (n : nat) : text := List.repeat c n.

(** [s.split(sep)] for a one-character separator; never empty. *)
Fixpoint split (sep : ascii) (s : text) : list text :=
  match s with
  | [] => [[]]
  | c :: s' =>
      if Ascii.eqb c sep then [] :: split sep s'
      else match split sep s' with
           | l :: ls => (c :: l) :: ls
           | [] => [[c]]
           end
  end.

(** [parts.join(sep)] *)
Fixpoint join (sep : text) (parts : list text) : text :=
  match parts with
  | [] => []
  | [p] => p
  | p :: ps => p ++ sep ++ join sep ps
  end.

(** [s.lastIndexOf(c)]: [None] stands for -1. *)
Fixpoint lastIndexOf (c : ascii) (s : text) : option nat :=
  match s with
  | [] => None
  | x :: s' =>
      match lastIndexOf c s' with
      | Some i => Some (S i)
      | None => if Ascii.eqb x c then Some 0 else None
      end
  end.

(** White space as [trim] and the regular expression class [\s] see it,
    among the code units 0..255: TAB, LF, VT, FF, CR, SPACE, NBSP. *)
Definition isWhiteSpace (c : ascii) : bool :=
  let n := nat_of_ascii c in
  ((9 <=? n) && (n <=? 13)) || (n =? 32) || (n =? 160).

Fixpoint trimStart (s : text) : text :=
  match s with
  | [] => []
  | c :: s' => if isWhiteSpace c then trimStart s' else s
  end.

Definition trimEnd (s : text) : text := rev (trimStart (rev s)).

Definition trim (s : text) : text := trimEnd (trimStart s).

(** [s.match(/^\s*/)[0]]: the leading white space of [s]. *)
Fixpoint leadingWhitespace (s : text) : text :=
  match s with
  | [] => []
  | c :: s' => if isWhiteSpace c then c :: leadingWhitespace s' else []
  end.

(** [toLowerCase] on the code units 0..255: the letters A-Z and the
    accented capitals U+00C0..U+00DE (but not the multiplication sign
    U+00D7) move up by 32. *)
Definition toLowerChar (c : ascii) : ascii :=
  let n := nat_of_ascii c in
  if ((65 <=? n) && (n <=? 90)) || ((192 <=? n) && (n <=? 222) && negb (n =? 215))
  then ascii_of_nat (n + 32) else c.

Definition toLowerCase (s : text) : text := map toLowerChar s.

(** First occurrence of [pat] in [s]: the text before it and after it. *)
Fixpoint breakAt (pat s : text) : option (text * text) :=
  if startsWith s pat then Some ([], skipn (length pat) s)
  else match s with
       | [] => None
       | c :: s' =>
           match breakAt pat s' with
           | Some (before, after) => Some (c :: before, after)
           | None => None
           end
       end.

(** GetSubstitution of ECMA-262 for a string pattern (no captures):
    [$$], [$&], [$`] and [$'] are the only special sequences. *)
Fixpoint getSubstitution (matched before after template : text) : text :=
  match template with
  | [] => []
  | c :: r =>
      if Ascii.eqb c "$" then
        match r with
        | d :: r' =>
            if Ascii.eqb d "$" then "$"%char :: getSubstitution matched before after r'
            else if Ascii.eqb d "&" then matched ++ getSubstitution matched before after r'
            else if Ascii.eqb d "`" then before ++ getSubstitution matched before after r'
            else if Ascii.eqb d "'" then after ++ getSubstitution matched before after r'
            else c :: getSubstitution matched before after r
        | [] => [c]
        end
      else c :: getSubstitution matched before after r
  end.

(** [s.replace(pat, replacement)] with a string pattern: first occurrence. *)
Definition replace (s pat replacement : text) : text :=
  match breakAt pat s with
  | Some (before, after) =>
      before ++ getSubstitution pat before after replacement ++ after
  | None => s
  end.

(** [xs.map((x, j) => f(x, j))] *)
Fixpoint mapi_from {A B} (f : A -> nat -> B) (j : nat) (xs : list A) : list B :=
  match xs with
  | [] => []
  | x :: xs' => f x j :: mapi_from f (S j) xs'
  end.
Definition mapi {A B} (f : A -> nat -> B) (xs : list A) : list B := mapi_from f 0 xs.

(** [xs.every((x, j) => f(x, j))] *)
Fixpoint everyi_from {A} (f : A -> nat -> bool) (j : nat) (xs : list A) : bool :=
  match xs with
  | [] => true
  | x :: xs' => f x j && everyi_from f (S j) xs'
  end.
Definition everyi {A} (f : A -> nat -> bool) (xs : list A) : bool := everyi_from f 0 xs.

(** [xs.splice(i, n, ...ys)] as the resulting array. *)
Definition splice {A} (xs : list A) (i n : nat) (ys : list A) : list A :=
  firstn i xs ++ ys ++ skipn (i + n) xs.

(** Lower-case hexadecimal rendering of bytes ([buf.toString('hex')]). *)
Definition hexDigit (n : nat) : ascii :=
  if n <? 10 then ascii_of_nat (48 + n) else ascii_of_nat (87 + n).

Definition toHex (bytes : list ascii) : text :=
  flat_map (fun b => let n := nat_of_ascii b in [hexDigit (n / 16); hexDigit (n mod 16)]) bytes.

End JS.

(** ** The POSIX flavour of Node's [path] module *)

Module Path.

Definition isAbsolute (p : text) : bool :=
  match p with
  | c :: _ => Ascii.eqb c "/"
  | [] => false
  end.

Definition endsWithSlash (p : text) : bool :=
  match rev p with
  | c :: _ => Ascii.eqb c "/"
  | [] => false
  end.

(** [normalizeString]: the segments left after resolving [.] and [..];
    [acc] is the stack of segments kept so far, innermost first. *)
Fixpoint normalizeParts (allowAboveRoot : bool) (parts acc : list text) : list text :=
  match parts with
  | [] => rev acc
  | c :: rest =>
      if JS.eqb c "" || JS.eqb c "." then normalizeParts allowAboveRoot rest acc
      else if JS.eqb c ".." then
        match acc with
        | top :: acc' =>
            if JS.eqb top ".." then
              normalizeParts allowAboveRoot rest
                (if allowAboveRoot then c :: acc else acc)
            else normalizeParts allowAboveRoot rest acc'
        | [] =>
            normalizeParts allowAboveRoot rest
              (if allowAboveRoot then [c] else [])
        end
      else normalizeParts allowAboveRoot rest (c :: acc)
  end.

Definition normalizeString (p : text) (allowAboveRoot : bool) : text :=
  JS.join "/" (normalizeParts allowAboveRoot (JS.split "/" p) []).

Definition normalize (p : text) : text :=
  match p with
  | [] => "."
  | _ =>
      let abs := isAbsolute p in
      let trailing := endsWithSlash p in
      let s := normalizeString p (negb abs) in
      match s with
      | [] => if abs then "/" else if trailing then "./" else "."
      | _ =>
          let s' := if trailing then s ++ "/" else s in
          if abs then "/"%char :: s' else s'
      end
  end.

(** [path.join(a, b)] *)
Definition join (a b : text) : text :=
  match a, b with
  | [], [] => "."
  | [], _ => normalize b
  | _, [] => normalize a
  | _, _ => normalize (a ++ "/" ++ b)
  end.

(** [path.resolve(p)] in a process whose working directory is [cwd]. *)
Definition resolve (cwd p : text) : text :=
  let resolvedPath :=
    match p with
    | [] => cwd ++ "/"
    | _ => if isAbsolute p then p ++ "/" else cwd ++ "/" ++ p ++ "/"
    end in
  let abs := isAbsolute resolvedPath in
  let s := normalizeString resolvedPath (negb abs) in
  if abs then "/"%char :: s
  else match s with [] => "." | _ => s end.

(** Drop the trailing slashes of a reversed path. *)
Fixpoint dropSlashes (r : text) : text :=
  match r with
  | c :: r' => if Ascii.eqb c "/" then dropSlashes r' else r
  | [] => []
  end.

(** Split a reversed path at its first slash: the reversed last segment
    and what precedes the slash (still reversed), if there is a slash. *)
Fixpoint untilSlash (r : text) : text * option text :=
  match r with
  | [] => ([], None)
  | c :: r' =>
      if Ascii.eqb c "/" then ([], Some r')
      else let (seg, rest) := untilSlash r' in (c :: seg, rest)
  end.

(** [path.dirname(p)]: the scan runs from the last character down to
    index 1; the first character only decides [hasRoot]. *)
Definition dirname (p : text) : text :=
  match p with
  | [] => "."
  | c :: body =>
      let hasRoot := isAbsolute p in
      match untilSlash (dropSlashes (rev body)) with
      | (_, None) => if hasRoot then "/" else "."
      | (_, Some before) =>
          if hasRoot && (length before =? 0) then "//"
          else c :: rev before
      end
  end.

(** [path.basename(p)] *)
Definition basename (p : text) : text :=
  rev (fst (untilSlash (dropSlashes (rev p)))).

Fixpoint stripCommon (a b : list text) : list text * list text :=
  match a, b with
  | x :: a', y :: b' => if JS.eqb x y then stripCommon a' b' else (a, b)
  | _, _ => (a, b)
  end.

Definition segments (p : text) : list text :=
  filter (fun s => negb (JS.eqb s "")) (JS.split "/" p).

(** [path.relative(from, to)] *)
Definition relative (cwd from to : text) : text :=
  let f := segments (resolve cwd from) in
  let t := segments (resolve cwd to) in
  let (f', t') := stripCommon f t in
  JS.join "/" (map (fun _ => ".." : text) f' ++ t').

End Path.

(** ** Errors, outcomes and the interface to the outside world *)

Inductive errno :=
  ENOENT | EEXIST | ENOTDIR | EISDIR | ELOOP | EACCES | ENOTEMPTY | EINVAL | EPERM.

Definition errno_eqb (a b : errno) : bool :=
  match a, b with
  | ENOENT, ENOENT | EEXIST, EEXIST | ENOTDIR, ENOTDIR | EISDIR, EISDIR
  | ELOOP, ELOOP | EACCES, EACCES | ENOTEMPTY, ENOTEMPTY | EINVAL, EINVAL
  | EPERM, EPERM => true
  | _, _ => false
  end.

(** A JavaScript [Error]: system errors carry a [code], [new Error(msg)]
    does not. *)
Record error := mkError { code : option errno; message : text }.

Definition Error (msg : text) : error := {| code := None; message := msg |}.

(** A [ReferenceError]; of the class of an error only its message is kept. *)
Definition ReferenceError (msg : text) : error := {| code := None; message := msg |}.

Definition hasCode (e : error) (c : errno) : bool :=
  match code e with
  | Some c' => errno_eqb c' c
  | None => false
  end.

Definition result (A : Type) : Type := (error + A)%type.

Record Dirent := { name : text; isDirectory : bool }.

Record Stats := { size : nat; stat_isDirectory : bool; stat_isFile : bool }.

(** Flags of [fs.writeFile]: the default ['w'] and the exclusive ['wx']. *)
Inductive wflag := FlagW | FlagWX.

(** The [fs/promises] calls the server makes, over a world [W].  Reading
    calls leave the world as it is; an open read handle is the content it
    reads from. *)
Class FileSystem (W : Type) := {
  fs_realpath : W -> text -> result text;
  fs_readFile : W -> text -> result text;
  fs_readdir : W -> text -> result (list Dirent);
  fs_stat : W -> text -> result Stats;
  fs_open : W -> text -> result text;
  fs_writeFile : W -> text -> text -> wflag -> W * result unit;
  fs_rename : W -> text -> text -> W * result unit;
  fs_unlink : W -> text -> W * result unit;
  fs_mkdir : W -> text -> W * result unit
}.

(** The npm packages the server calls: [createTwoFilesPatch] of [diff]
    and [minimatch] with the option [dot: true]. *)
Class Packages := {
  createTwoFilesPatch : text -> text -> text -> text -> text -> text -> text;
  minimatch : text -> text -> bool
}.

(** One entry of the trace per file-system call made. *)
Inductive fs_call :=
| CallRealpath (p : text)
| CallReadFile (p : text)
| CallReaddir (p : text)
| CallStat (p : text)
| CallOpen (p : text)
| CallClose (p : text)
| CallWriteFile (p content : text) (flag : wflag)
| CallRename (src dst : text)
| CallUnlink (p : text)
| CallMkdir (p : text).

Record environment := { cwd : text; homedir : text }.

(** The state a handler runs in: the world, the trace of calls, the module
    variable [allowedDirectories], the process environment, the random
    source with the number of bytes drawn so far, and the local variables
    of the running function that closures mutate. *)
Record state (W L : Type) := mkState {
  world : W;
  trace : list fs_call;
  allowedDirectories : list text;
  env : environment;
  entropy : nat -> ascii;
  drawn : nat;
  locals : L
}.

(** How a call ends: with a value, with a thrown error, or, for the
    recursion of [search] only, with the budget of the model used up (which
    no [catch] catches). *)
Inductive outcome (A : Type) :=
| Ok (a : A)
| Throw (e : error)
| OutOfFuel.

Arguments Ok {A} a.
Arguments Throw {A} e.
Arguments OutOfFuel {A}.

Definition M (W L A : Type) : Type := state W L -> outcome A * state W L.

Definition ret {W L A} (a : A) : M W L A := fun s => (Ok a, s).

Definition bind {W L A B} (m : M W L A) (k : A -> M W L B) : M W L B :=
  fun s =>
    match m s with
    | (Ok a, s') => k a s'
    | (Throw e, s') => (Throw e, s')
    | (OutOfFuel, s') => (OutOfFuel, s')
    end.

Definition throw {W L A} (e : error) : M W L A := fun s => (Throw e, s).

Definition outOfFuel {W L A} : M W L A := fun s => (OutOfFuel, s).

(** [try { body } catch (e) { handler }]: effects of [body] persist. *)
Definition try_catch {W L A} (body : M W L A) (handler : error -> M W L A) : M W L A :=
  fun s =>
    match body s with
    | (Throw e, s') => handler e s'
    | r => r
    end.

(** [try { body } finally { fin }] for a [fin] that does not throw. *)
Definition try_finally {W L A} (body : M W L A) (fin : M W L unit) : M W L A :=
  fun s =>
    let (r, s') := body s in
    (r, snd (fin s')).

Declare Scope monad_scope.
Delimit Scope monad_scope with monad.
Notation "x <- m ;; k" := (bind m (fun x => k))
  (at level 61, m at next level, right associativity) : monad_scope.
Notation "m ;;; k" := (bind m (fun _ => k))
  (at level 61, right associativity) : monad_scope.
Open Scope monad_scope.

Definition lift {A} (r : result A) : outcome A :=
  match r with
  | inl e => Throw e
  | inr a => Ok a
  end.

Definition record {W L} (c : fs_call) (s : state W L) : state W L :=
  mkState (world s) (trace s ++ [c]) (allowedDirectories s) (env s)
          (entropy s) (drawn s) (locals s).

Definition setWorld {W L} (w : W) (s : state W L) : state W L :=
  mkState w (trace s) (allowedDirectories s) (env s)
          (entropy s) (drawn s) (locals s).

(** The assignment [allowedDirectories = [...]] of a roots update. *)
Definition setAllowedDirectories {W L} (dirs : list text) (s : state W L) : state W L :=
  mkState (world s) (trace s) dirs (env s) (entropy s) (drawn s) (locals s).

Definition setLocals {W L L'} (l : L') (s : state W L) : state W L' :=
  mkState (world s) (trace s) (allowedDirectories s) (env s)
          (entropy s) (drawn s) l.

Section Calls.
Context {W : Type} {FS : FileSystem W} {L : Type}.

Definition reading {A} (c : fs_call) (f : W -> result A) : M W L A :=
  fun s => (lift (f (world s)), record c s).

Definition writing (c : fs_call) (f : W -> W * result unit) : M W L unit :=
  fun s => let (w', r) := f (world s) in (lift r, setWorld w' (record c s)).

Definition realpath (p : text) : M W L text :=
  reading (CallRealpath p) (fun w => fs_realpath w p).
Definition readFile (p : text) : M W L text :=
  reading (CallReadFile p) (fun w => fs_readFile w p).
Definition readdir (p : text) : M W L (list Dirent) :=
  reading (CallReaddir p) (fun w => fs_readdir w p).
Definition stat (p : text) : M W L Stats :=
  reading (CallStat p) (fun w => fs_stat w p).
Definition open (p : text) : M W L text :=
  reading (CallOpen p) (fun w => fs_open w p).
Definition close (p : text) : M W L unit :=
  fun s => (Ok tt, record (CallClose p) s).
Definition writeFile (p content : text) (flag : wflag) : M W L unit :=
  writing (CallWriteFile p content flag) (fun w => fs_writeFile w p content flag).
Definition rename (src dst : text) : M W L unit :=
  writing (CallRename src dst) (fun w => fs_rename w src dst).
Definition unlink (p : text) : M W L unit :=
  writing (CallUnlink p) (fun w => fs_unlink w p).
Definition mkdir (p : text) : M W L unit :=
  writing (CallMkdir p) (fun w => fs_mkdir w p).

Definition getEnv : M W L environment := fun s => (Ok (env s), s).

Definition getAllowedDirectories : M W L (list text) :=
  fun s => (Ok (allowedDirectories s), s).

(** [randomBytes(n)]: the next [n] bytes of the random source. *)
Definition drawBytes (s : state W L) (n : nat) : list ascii :=
  map (entropy s) (seq (drawn s) n).

Definition randomBytes (n : nat) : M W L (list ascii) :=
  fun s => (Ok (drawBytes s n),
            mkState (world s) (trace s) (allowedDirectories s) (env s)
                    (entropy s) (drawn s + n) (locals s)).

Definition getLocals : M W L L := fun s => (Ok (locals s), s).
Definition modifyLocals (f : L -> L) : M W L unit :=
  fun s => (Ok tt, setLocals (f (locals s)) s).

(** [for (const x of xs) { body(x) }] *)
Fixpoint forEach {A} (xs : list A) (body : A -> M W L unit) : M W L unit :=
  match xs with
  | [] => ret tt
  | x :: xs' => body x ;;; forEach xs' body
  end.

End Calls.

(** Run [body] with fresh local variables [init]; hand back its result with
    their final value. *)
Definition scoped {W L L' A} (init : L') (body : M W L' A) : M W L (A * L') :=
  fun s =>
    let (r, s') := body (setLocals init s) in
    (match r with
     | Ok a => Ok (a, locals s')
     | Throw e => Throw e
     | OutOfFuel => OutOfFuel
     end, setLocals (locals s) s').

Definition nl : text := [JS.LF].

(** ** The text-patch engine (file editing and diffing utilities) *)

(** [text.replace(/\r\n/g, '\n')] *)
Fixpoint normalizeLineEndings (t : text) : text :=
  match t with
  | [] => []
  | c :: t' =>
      match t' with
      | d :: t'' =>
          if Ascii.eqb c JS.CR && Ascii.eqb d JS.LF
          then JS.LF :: normalizeLineEndings t''
          else c :: normalizeLineEndings t'
      | [] => [c]
      end
  end.

Record EditOperation := { oldText : text; newText : text }.

Definition nonEmpty (s : text) : bool :=
  match s with
  | [] => false
  | _ => true
  end.

(** The indentation [x?.match(/^\s*/)?.[0] || ''] of an optional line. *)
Definition indentOf (line : option text) : text :=
  match line with
  | Some l => JS.leadingWhitespace l
  | None => []
  end.

(** The callback of [normalizedNew.split('\n').map((line, j) => ...)]. *)
Definition reindentLine (oldLines : list text) (originalIndent : text)
    (line : text) (j : nat) : text :=
  if j =? 0 then originalIndent ++ JS.trimStart line
  else
    let oldIndent := indentOf (nth_error oldLines j) in
    let newIndent := indentOf (Some line) in
    if nonEmpty oldIndent && nonEmpty newIndent then
      let relativeIndent := (Z.of_nat (length newIndent) - Z.of_nat (length oldIndent))%Z in
      originalIndent ++ JS.repeat " " (Z.to_nat (Z.max 0 relativeIndent)) ++ JS.trimStart line
    else line.

(** The callback of [oldLines.every((oldLine, j) => ...)]; a window always
    has as many lines as [oldLines]. *)
Definition isMatch (oldLines potentialMatch : list text) : bool :=
  JS.everyi
    (fun oldLine j =>
       match nth_error potentialMatch j with
       | Some contentLine => JS.eqb (JS.trim oldLine) (JS.trim contentLine)
       | None => false
       end)
    oldLines.

(** The loop [for (let i = 0; i <= contentLines.length - oldLines.length; i++)]
    with [count] iterations left, from index [i]: the content after the
    replacement at the first matching window, if there is one. *)
Fixpoint windowLoop (oldLines contentLines : list text) (normalizedNew : text)
    (count i : nat) : option text :=
  match count with
  | 0 => None
  | S count' =>
      let potentialMatch := firstn (length oldLines) (skipn i contentLines) in
      if isMatch oldLines potentialMatch then
        let originalIndent := indentOf (nth_error contentLines i) in
        let newLines :=
          JS.mapi (reindentLine oldLines originalIndent) (JS.split JS.LF normalizedNew) in
        Some (JS.join nl (JS.splice contentLines i (length oldLines) newLines))
      else windowLoop oldLines contentLines normalizedNew count' (S i)
  end.

(** One pass of the loop over [edits]: [None] when no match is found. *)
Definition applyEdit (modifiedContent : text) (edit : EditOperation) : option text :=
  let normalizedOld := normalizeLineEndings (oldText edit) in
  let normalizedNew := normalizeLineEndings (newText edit) in
  if JS.includes modifiedContent normalizedOld then
    Some (JS.replace modifiedContent normalizedOld normalizedNew)
  else
    let oldLines := JS.split JS.LF normalizedOld in
    let contentLines := JS.split JS.LF modifiedContent in
    windowLoop oldLines contentLines normalizedNew
      (S (length contentLines) - length oldLines) 0.

(** The loop over [edits]: the final content, or the edit that failed. *)
Fixpoint applyEdits (modifiedContent : text) (edits : list EditOperation)
    : EditOperation + text :=
  match edits with
  | [] => inr modifiedContent
  | edit :: rest =>
      match applyEdit modifiedContent edit with
      | Some modifiedContent' => applyEdits modifiedContent' rest
      | None => inl edit
      end
  end.

Definition backtick : ascii := "`"%char.

(** [while (diff.includes('`'.repeat(numBackticks))) numBackticks++] *)
Fixpoint growFence (fuel : nat) (diff : text) (numBackticks : nat) : nat :=
  if JS.includes diff (JS.repeat backtick numBackticks) then
    match fuel with
    | 0 => numBackticks
    | S fuel' => growFence fuel' diff (S numBackticks)
    end
  else numBackticks.

Definition fenceLength (diff : text) : nat := growFence (length diff) diff 3.

Definition formatDiff (diff : text) : text :=
  let numBackticks := fenceLength diff in
  JS.repeat backtick numBackticks ++ "diff" ++ nl ++ diff ++
  JS.repeat backtick numBackticks ++ nl ++ nl.

(** ** Streaming head and tail *)

Definition CHUNK_SIZE : nat := 1024.

(** [fileHandle.read(chunk, 0, size, position)] on a handle whose file
    holds [content], followed by [chunk.slice(0, bytesRead).toString('utf-8')]:
    the text of the chunk.  The bytes read are taken as their decoded text,
    which is what the decoding gives for ASCII content; a character of
    several bytes that a chunk boundary cuts is outside this model, and the
    properties of [tailFile] and [headFile] over every content are stated
    for ASCII content. *)
Definition readAt (content : text) (position size : nat) : text :=
  firstn size (skipn position content).

(** [for (let i = chunkLines.length - 1; i >= 0 && linesFound < numLines; i--)]
    over the lines from the last one backwards. *)
Fixpoint unshiftLines (backwards : list text) (numLines : Z)
    (lines : list text) (linesFound : nat) : list text * nat :=
  match backwards with
  | [] => (lines, linesFound)
  | l :: rest =>
      if (Z.of_nat linesFound <? numLines)%Z
      then unshiftLines rest numLines (l :: lines) (S linesFound)
      else (lines, linesFound)
  end.

(** [while (position > 0 && linesFound < numLines)] of [tailFile]. *)
Fixpoint tailLoop (fuel : nat) (content : text) (numLines : Z) (position : nat)
    (lines : list text) (linesFound : nat) (remainingText : text)
    : option (list text) :=
  if (0 <? position) && (Z.of_nat linesFound <? numLines)%Z then
    match fuel with
    | 0 => None
    | S fuel' =>
        let size := Nat.min CHUNK_SIZE position in
        let position' := position - size in
        let readData := readAt content position' size in
        if length readData =? 0 then Some lines
        else
          let chunkText := readData ++ remainingText in
          let chunkLines := JS.split JS.LF (normalizeLineEndings chunkText) in
          let remainingText' := if 0 <? position' then hd [] chunkLines else remainingText in
          let chunkLines' := if 0 <? position' then tl chunkLines else chunkLines in
          let (lines', linesFound') :=
            unshiftLines (rev chunkLines') numLines lines linesFound in
          tailLoop fuel' content numLines position' lines' linesFound' remainingText'
    end
  else Some lines.

(** [for (const line of completeLines) { lines.push(line); if (...) break; }] *)
Fixpoint pushLines (completeLines : list text) (numLines : Z) (lines : list text)
    : list text :=
  match completeLines with
  | [] => lines
  | line :: rest =>
      let lines' := lines ++ [line] in
      if (numLines <=? Z.of_nat (length lines'))%Z then lines'
      else pushLines rest numLines lines'
  end.

(** [while (lines.length < numLines)] of [headFile]: the lines and the
    buffer when the loop ends. *)
Fixpoint headLoop (fuel : nat) (content : text) (numLines : Z)
    (lines : list text) (buffer : text) (bytesRead : nat)
    : option (list text * text) :=
  if (Z.of_nat (length lines) <? numLines)%Z then
    match fuel with
    | 0 => None
    | S fuel' =>
        let chunk := readAt content bytesRead CHUNK_SIZE in
        if length chunk =? 0 then Some (lines, buffer)
        else
          let bytesRead' := bytesRead + length chunk in
          let buffer' := buffer ++ chunk in
          match JS.lastIndexOf JS.LF buffer' with
          | Some newLineIndex =>
              let completeLines := JS.split JS.LF (JS.slice buffer' 0 newLineIndex) in
              headLoop fuel' content numLines
                (pushLines completeLines numLines lines)
                (JS.sliceFrom buffer' (newLineIndex + 1)) bytesRead'
          | None => headLoop fuel' content numLines lines buffer' bytesRead'
          end
    end
  else Some (lines, buffer).

(** ** The server's functions *)

Section Server.
Context {W : Type} {FS : FileSystem W} {PK : Packages}.

Section Functions.
Context {L : Type}.

Definition normalizePath (p : text) : text := Path.normalize p.

Definition expandHome (home filepath : text) : text :=
  if JS.startsWith filepath "~/" || JS.eqb filepath "~"
  then Path.join home (JS.sliceFrom filepath 1)
  else filepath.

(** Security utilities *)
Definition validatePath (requestedPath : text) : M W L text :=
  e <- getEnv ;;
  let expandedPath := expandHome (homedir e) requestedPath in
  let absolute := Path.resolve (cwd e) expandedPath in
  try_catch
    (realPath <- realpath absolute ;; ret realPath)
    (fun error =>
       if hasCode error ENOENT then
         let parentDir := Path.dirname absolute in
         try_catch
           (realParent <- realpath parentDir ;;
            ret (Path.join realParent (Path.basename absolute)))
           (fun _ => throw (Error ("Parent directory does not exist: " ++ parentDir)))
       else throw error).

Definition createUnifiedDiff (originalContent newContent filepath : text) : text :=
  let normalizedOriginal := normalizeLineEndings originalContent in
  let normalizedNew := normalizeLineEndings newContent in
  createTwoFilesPatch filepath filepath normalizedOriginal normalizedNew
    "original" "modified".

Definition tempPathFor (filePath : text) (bytes : list ascii) : text :=
  filePath ++ "." ++ JS.toHex bytes ++ ".tmp".

(** The atomic replace both [applyFileEdits] and [write_file] end with. *)
Definition writeViaRename (filePath content : text) : M W L unit :=
  bytes <- randomBytes 16 ;;
  let tempPath := tempPathFor filePath bytes in
  try_catch
    (writeFile tempPath content FlagW ;;;
     rename tempPath filePath)
    (fun error =>
       try_catch (unlink tempPath) (fun _ => ret tt) ;;;
       throw error).

Definition applyFileEdits (filePath : text) (edits : list EditOperation)
    (dryRun : bool) : M W L text :=
  raw <- readFile filePath ;;
  let content := normalizeLineEndings raw in
  match applyEdits content edits with
  | inl edit =>
      throw (Error ("Could not find exact match for edit:" ++ nl ++ oldText edit))
  | inr modifiedContent =>
      let diff := createUnifiedDiff content modifiedContent filePath in
      let formattedDiff := formatDiff diff in
      (if dryRun then ret tt else writeViaRename filePath modifiedContent) ;;;
      ret formattedDiff
  end.

Definition tailFile (filePath : text) (numLines : Z) : M W L text :=
  stats <- stat filePath ;;
  let fileSize := size stats in
  if fileSize =? 0 then ret []
  else
    fileHandle <- open filePath ;;
    try_finally
      (match tailLoop fileSize fileHandle numLines fileSize [] 0 [] with
       | Some lines => ret (JS.join nl lines)
       | None => outOfFuel
       end)
      (close filePath).

Definition headFile (filePath : text) (numLines : Z) : M W L text :=
  fileHandle <- open filePath ;;
  try_finally
    (match headLoop (S (length fileHandle)) fileHandle numLines [] [] 0 with
     | Some (lines, buffer) =>
         let lines' :=
           if (0 <? length buffer) && (Z.of_nat (length lines) <? numLines)%Z
           then lines ++ [buffer] else lines in
         ret (JS.join nl lines')
     | None => outOfFuel
     end)
    (close filePath).

End Functions.

(** The closure [search] of [searchFiles]; the array [results] is the
    local variable.  The source recurses as deep as the directories nest;
    [fuel] bounds that depth. *)
Fixpoint search (fuel : nat) (rootPath pattern : text) (excludePatterns : list text)
    (currentPath : text) : M W (list text) unit :=
  match fuel with
  | 0 => outOfFuel
  | S fuel' =>
      entries <- readdir currentPath ;;
      forEach entries (fun entry =>
        let fullPath := Path.join currentPath (name entry) in
        try_catch
          (_ <- validatePath fullPath ;;
           e <- getEnv ;;
           let relativePath := Path.relative (cwd e) rootPath fullPath in
           let shouldExclude :=
             existsb (fun pattern =>
                        let globPattern :=
                          if JS.includes pattern "*" then pattern
                          else "**/" ++ pattern ++ "/**" in
                        minimatch relativePath globPattern)
                     excludePatterns in
           if shouldExclude then ret tt
           else
             (if JS.includes (JS.toLowerCase (name entry)) (JS.toLowerCase pattern)
              then modifyLocals (fun results => results ++ [fullPath])
              else ret tt) ;;;
             (if isDirectory entry
              then search fuel' rootPath pattern excludePatterns fullPath
              else ret tt))
          (fun _ => ret tt))
  end.

Definition searchFiles {L} (fuel : nat) (rootPath pattern : text)
    (excludePatterns : list text) : M W L (list text) :=
  r <- scoped [] (search fuel rootPath pattern excludePatterns rootPath) ;;
  ret (snd r).

End Server.

(** ** Tool handlers *)

(** The arguments after schema validation.  Numbers are integers here. *)
Record ReadFileArgs := { rf_path : text; rf_tail : option Z; rf_head : option Z }.
Record WriteFileArgs := { wf_path : text; wf_content : text }.
Record EditFileArgs := { ef_path : text; ef_edits : list EditOperation; ef_dryRun : bool }.
Record MoveFileArgs := { mv_source : text; mv_destination : text }.
Record SearchFilesArgs := { sf_path : text; sf_pattern : text; sf_excludePatterns : list text }.

(** Truthiness of an optional number, as [if (parsed.data.head)] tests it. *)
Definition truthy (n : option Z) : bool :=
  match n with
  | Some z => negb (z =? 0)%Z
  | None => false
  end.

Definition numberOf (n : option Z) : Z :=
  match n with
  | Some z => z
  | None => 0%Z
  end.

(** The tool calls embedded here; [search_files] carries the depth budget
    of [search]. *)
Inductive request :=
| read_file (a : ReadFileArgs)
| write_file (a : WriteFileArgs)
| tiny_edit_file (a : EditFileArgs)
| create_directory (path : text)
| list_directory (path : text)
| move_file (a : MoveFileArgs)
| search_files (fuel : nat) (a : SearchFilesArgs)
| list_allowed_directories.

Record response := { content : text; isError : bool }.

Section Handlers.
Context {W : Type} {FS : FileSystem W} {PK : Packages} {L : Type}.

Definition handle_read_file (a : ReadFileArgs) : M W L text :=
  validPath <- validatePath (rf_path a) ;;
  if truthy (rf_head a) && truthy (rf_tail a) then
    throw (Error "Cannot specify both head and tail parameters simultaneously")
  else if truthy (rf_tail a) then tailFile validPath (numberOf (rf_tail a))
  else if truthy (rf_head a) then headFile validPath (numberOf (rf_head a))
  else readFile validPath.

Definition handle_write_file (a : WriteFileArgs) : M W L text :=
  validPath <- validatePath (wf_path a) ;;
  try_catch
    (writeFile validPath (wf_content a) FlagWX)
    (fun error =>
       if hasCode error EEXIST
       then writeViaRename validPath (wf_content a)
       else throw error) ;;;
  ret ("Successfully wrote to " ++ wf_path a).

Definition handle_tiny_edit_file (a : EditFileArgs) : M W L text :=
  validPath <- validatePath (ef_path a) ;;
  applyFileEdits validPath (ef_edits a) (ef_dryRun a).

Definition handle_create_directory (path : text) : M W L text :=
  validPath <- validatePath path ;;
  mkdir validPath ;;;
  ret ("Successfully created directory " ++ path).

Definition handle_list_directory (path : text) : M W L text :=
  validPath <- validatePath path ;;
  entries <- readdir validPath ;;
  ret (JS.join nl
         (map (fun entry =>
                 (if isDirectory entry then "[DIR]" else "[FILE]") ++ " " ++ name entry)
              entries)).

Definition handle_move_file (a : MoveFileArgs) : M W L text :=
  validSourcePath <- validatePath (mv_source a) ;;
  validDestPath <- validatePath (mv_destination a) ;;
  rename validSourcePath validDestPath ;;;
  ret ("Successfully moved " ++ mv_source a ++ " to " ++ mv_destination a).

Definition handle_search_files (fuel : nat) (a : SearchFilesArgs) : M W L text :=
  validPath <- validatePath (sf_path a) ;;
  results <- searchFiles fuel validPath (sf_pattern a) (sf_excludePatterns a) ;;
  ret (if 0 <? length results then JS.join nl results else "No matches found").

Definition handle_list_allowed_directories : M W L text :=
  dirs <- getAllowedDirectories ;;
  ret ("Allowed directories:" ++ nl ++ JS.join nl dirs).

Definition dispatch (r : request) : M W L text :=
  match r with
  | read_file a => handle_read_file a
  | write_file a => handle_write_file a
  | tiny_edit_file a => handle_tiny_edit_file a
  | create_directory p => handle_create_directory p
  | list_directory p => handle_list_directory p
  | move_file a => handle_move_file a
  | search_files fuel a => handle_search_files fuel a
  | list_allowed_directories => handle_list_allowed_directories
  end.

(** An identifier read where no binding of it is in scope. *)
Definition unbound {A} (identifier : text) : M W L A :=
  throw (ReferenceError (identifier ++ " is not defined")).

(** The [CallToolRequestSchema] handler.  [name] and [args] are declared by
    [const] inside the [try] block, so they are not in scope in the [catch]
    block: building the argument of [reportMorphError], which reads [name]
    for its field [tool], throws before the error response is returned. *)
Definition callTool (r : request) : M W L response :=
  try_catch
    (t <- dispatch r ;; ret {| content := t; isError := false |})
    (fun error =>
       let errorMessage := message error in
       tool <- unbound (A := text) "name" ;;
       ret {| content := "Error: " ++ errorMessage; isError := true |}).

End Handlers.

(** ** An in-memory POSIX file system

    A world is a directory tree; symbolic links hold their target path.
    It instantiates [FileSystem] for concrete runs.  Simplifications: there
    are no permissions, no hard links and no special files, and writing
    through a dangling symbolic link fails instead of creating its target. *)

Module MemFS.

#[warnings="-register-all"]
Inductive node :=
| File (data : text)
| Symlink (target : text)
| Dir (entries : list (text * node)).

Definition sysError (c : errno) (syscall path : text) : error :=
  let label : text :=
    match c with
    | ENOENT => "ENOENT: no such file or directory"
    | EEXIST => "EEXIST: file already exists"
    | ENOTDIR => "ENOTDIR: not a directory"
    | EISDIR => "EISDIR: illegal operation on a directory"
    | ELOOP => "ELOOP: too many symbolic links encountered"
    | EACCES => "EACCES: permission denied"
    | ENOTEMPTY => "ENOTEMPTY: directory not empty"
    | EINVAL => "EINVAL: invalid argument"
    | EPERM => "EPERM: operation not permitted"
    end in
  {| code := Some c; message := label ++ ", " ++ syscall ++ " '" ++ path ++ "'" |}.

Fixpoint assoc (k : text) (es : list (text * node)) : option node :=
  match es with
  | [] => None
  | (k', v) :: es' => if JS.eqb k k' then Some v else assoc k es'
  end.

(** The node at a path of names, no link followed. *)
Fixpoint lookup (n : node) (p : list text) : option node :=
  match p with
  | [] => Some n
  | k :: p' =>
      match n with
      | Dir es =>
          match assoc k es with
          | Some child => lookup child p'
          | None => None
          end
      | _ => None
      end
  end.

(** Set ([Some]) or delete ([None]) the entry named [k]. *)
Fixpoint setEntry (k : text) (new : option node) (es : list (text * node))
    : list (text * node) :=
  match es with
  | [] => match new with Some v => [(k, v)] | None => [] end
  | (k', v') :: es' =>
      if JS.eqb k k'
      then match new with Some v => (k, v) :: es' | None => setEntry k new es' end
      else (k', v') :: setEntry k new es'
  end.

(** Set ([Some]) or delete ([None]) the entry at a path whose parent is a
    directory. *)
Fixpoint put (p : list text) (new : option node) (n : node) : node :=
  match p with
  | [] => n
  | k :: p' =>
      match n with
      | Dir es =>
          match p' with
          | [] => Dir (setEntry k new es)
          | _ :: _ =>
              Dir (map (fun kv => if JS.eqb (fst kv) k
                                  then (fst kv, put p' new (snd kv))
                                  else kv) es)
          end
      | _ => n
      end
  end.

Definition MAX_LINKS : nat := 40.

(** Resolve the names [todo] from the directory [cur], following at most
    [links] symbolic links: the canonical path of names. *)
Fixpoint walk (syscall path : text) (links : nat) (root : node)
    (cur todo : list text) {struct links} : result (list text) :=
  (fix go (cur todo : list text) {struct todo} : result (list text) :=
     match todo with
     | [] => inr cur
     | c :: rest =>
         if JS.eqb c "" || JS.eqb c "." then go cur rest
         else if JS.eqb c ".." then go (removelast cur) rest
         else
           match lookup root (cur ++ [c]) with
           | None => inl (sysError ENOENT syscall path)
           | Some (Dir _) => go (cur ++ [c]) rest
           | Some (File _) =>
               match rest with
               | [] => inr (cur ++ [c])
               | _ :: _ => inl (sysError ENOTDIR syscall path)
               end
           | Some (Symlink t) =>
               match links with
               | 0 => inl (sysError ELOOP syscall path)
               | S links' =>
                   walk syscall path links' root
                     (if Path.isAbsolute t then [] else cur)
                     (JS.split "/" t ++ rest)
               end
           end
     end) cur todo.

Definition render (p : list text) : text := "/"%char :: JS.join "/" p.

(** Every link followed, the last name included. *)
Definition follow (syscall : text) (w : node) (p : text) : result (list text) :=
  walk syscall p MAX_LINKS w [] (JS.split "/" p).

(** The links of the parent followed, the last name kept: the canonical
    parent directory and the name in it. *)
Definition locate (syscall : text) (w : node) (p : text)
    : result (list text * text) :=
  match rev (Path.segments p) with
  | [] => inl (sysError EINVAL syscall p)
  | final :: rparent =>
      match walk syscall p MAX_LINKS w [] (rev rparent) with
      | inl e => inl e
      | inr pc =>
          match lookup w pc with
          | Some (Dir _) => inr (pc, final)
          | Some _ => inl (sysError ENOTDIR syscall p)
          | None => inl (sysError ENOENT syscall p)
          end
      end
  end.

Definition realpath (w : node) (p : text) : result text :=
  match follow "realpath" w p with
  | inl e => inl e
  | inr c => inr (render c)
  end.

Definition readFile (w : node) (p : text) : result text :=
  match follow "open" w p with
  | inl e => inl e
  | inr c =>
      match lookup w c with
      | Some (File t) => inr t
      | Some (Dir _) => inl (sysError EISDIR "read" p)
      | _ => inl (sysError ENOENT "open" p)
      end
  end.

Definition isDir (n : node) : bool :=
  match n with
  | Dir _ => true
  | _ => false
  end.

Definition readdir (w : node) (p : text) : result (list Dirent) :=
  match follow "scandir" w p with
  | inl e => inl e
  | inr c =>
      match lookup w c with
      | Some (Dir es) =>
          inr (map (fun kv => {| name := fst kv; isDirectory := isDir (snd kv) |}) es)
      | Some _ => inl (sysError ENOTDIR "scandir" p)
      | None => inl (sysError ENOENT "scandir" p)
      end
  end.

Definition stat (w : node) (p : text) : result Stats :=
  match follow "stat" w p with
  | inl e => inl e
  | inr c =>
      match lookup w c with
      | Some (File t) =>
          inr {| size := length t; stat_isDirectory := false; stat_isFile := true |}
      | Some (Dir _) =>
          inr {| size := 4096; stat_isDirectory := true; stat_isFile := false |}
      | _ => inl (sysError ENOENT "stat" p)
      end
  end.

Definition writeFile (w : node) (p data : text) (flag : wflag) : node * result unit :=
  match locate "open" w p with
  | inl e => (w, inl e)
  | inr (pc, final) =>
      match lookup w (pc ++ [final]), flag with
      | None, _ => (put (pc ++ [final]) (Some (File data)) w, inr tt)
      | Some _, FlagWX => (w, inl (sysError EEXIST "open" p))
      | Some (File _), FlagW => (put (pc ++ [final]) (Some (File data)) w, inr tt)
      | Some (Dir _), FlagW => (w, inl (sysError EISDIR "open" p))
      | Some (Symlink _), FlagW =>
          match follow "open" w p with
          | inl e => (w, inl e)
          | inr c =>
              match lookup w c with
              | Some (File _) => (put c (Some (File data)) w, inr tt)
              | Some (Dir _) => (w, inl (sysError EISDIR "open" p))
              | _ => (w, inl (sysError ENOENT "open" p))
              end
          end
      end
  end.

Fixpoint isPrefix (a b : list text) : bool :=
  match a, b with
  | [], _ => true
  | x :: a', y :: b' => JS.eqb x y && isPrefix a' b'
  | _ :: _, [] => false
  end.

Definition rename (w : node) (src dst : text) : node * result unit :=
  let failure c := (w, inl (sysError c "rename" (src ++ " -> " ++ dst))) in
  match locate "rename" w src, locate "rename" w dst with
  | inl e, _ => (w, inl e)
  | _, inl e => (w, inl e)
  | inr (ps, fs), inr (pd, fd) =>
      let s := ps ++ [fs] in
      let d := pd ++ [fd] in
      match lookup w s with
      | None => failure ENOENT
      | Some moved =>
          if isPrefix s d && isPrefix d s then (w, inr tt)
          else
            let move := (put d (Some moved) (put s None w), inr tt) in
            match moved, lookup w d with
            | Dir _, None | Dir _, Some (Dir []) =>
                if isPrefix s d then failure EINVAL else move
            | Dir _, Some (Dir (_ :: _)) => failure ENOTEMPTY
            | Dir _, Some _ => failure ENOTDIR
            | _, Some (Dir _) => failure EISDIR
            | _, _ => move
            end
      end
  end.

Definition unlink (w : node) (p : text) : node * result unit :=
  match locate "unlink" w p with
  | inl e => (w, inl e)
  | inr (pc, final) =>
      match lookup w (pc ++ [final]) with
      | None => (w, inl (sysError ENOENT "unlink" p))
      | Some (Dir _) => (w, inl (sysError EISDIR "unlink" p))
      | Some _ => (put (pc ++ [final]) None w, inr tt)
      end
  end.

(** [mkdir] with [recursive: true] along a path of names. *)
Fixpoint mkdirs (p : text) (names : list text) (n : node) : result node :=
  match names with
  | [] =>
      match n with
      | Dir _ => inr n
      | _ => inl (sysError EEXIST "mkdir" p)
      end
  | k :: names' =>
      match n with
      | Dir es =>
          match assoc k es with
          | Some child =>
              match mkdirs p names' child with
              | inr child' => inr (Dir (setEntry k (Some child') es))
              | inl e => inl e
              end
          | None =>
              match mkdirs p names' (Dir []) with
              | inr child' => inr (Dir (setEntry k (Some child') es))
              | inl e => inl e
              end
          end
      | _ => inl (sysError ENOTDIR "mkdir" p)
      end
  end.

Definition mkdir (w : node) (p : text) : node * result unit :=
  match mkdirs p (Path.segments p) w with
  | inr w' => (w', inr tt)
  | inl e => (w, inl e)
  end.

#[global] Instance fileSystem : FileSystem node := {
  fs_realpath := realpath;
  fs_readFile := readFile;
  fs_readdir := readdir;
  fs_stat := stat;
  fs_open := readFile;
  fs_writeFile := writeFile;
  fs_rename := rename;
  fs_unlink := unlink;
  fs_mkdir := mkdir
}.


(** A server state over the tree [w] with no call made yet. *)
Definition boot (w : node) (allowed : list text) : state node unit :=
  mkState w [] allowed {| cwd := "/"; homedir := "/home/user" |}
          (fun i => ascii_of_nat (17 * i + 3)) 0 tt.

End MemFS.

(** ** Stand-ins for the npm packages in concrete runs *)

Module Glob.

(** One path segment against a pattern segment in which [*] stands for
    any run of characters. *)
Fixpoint segMatch (pat s : text) : bool :=
  match pat with
  | [] => match s with [] => true | _ => false end
  | c :: pat' =>
      if Ascii.eqb c "*" then
        (fix star (s : text) : bool :=
           segMatch pat' s ||
           match s with
           | [] => false
           | _ :: s' => star s'
           end) s
      else
        match s with
        | d :: s' => Ascii.eqb c d && segMatch pat' s'
        | [] => false
        end
  end.

Definition isDots (f : text) : bool := JS.eqb f "." || JS.eqb f "..".

(** [matchOne] of minimatch on the segments of pattern and path: a
    globstar [**] swallows zero or more leading segments, and a pattern
    that is not exhausted when the path is does not match. *)
Fixpoint matchOne (pattern file : list text) : bool :=
  match pattern with
  | [] =>
      match file with
      | [] => true
      | [f] => JS.eqb f ""
      | _ => false
      end
  | p :: pr =>
      match file with
      | [] => false
      | f :: fr =>
          if JS.eqb p "**" then
            match pr with
            | [] => negb (existsb isDots file)
            | _ :: _ =>
                (fix swallow (file : list text) : bool :=
                   match file with
                   | [] => false
                   | swallowee :: file' =>
                       matchOne pr file ||
                       (negb (isDots swallowee) && swallow file')
                   end) file
            end
          else segMatch p f && matchOne pr fr
      end
  end.

(** [minimatch(path, pattern, { dot: true })] for patterns made of
    literal characters, [*] and [**]. *)
Definition minimatch (path pattern : text) : bool :=
  matchOne (JS.split "/" pattern) (JS.split "/" path).

End Glob.

Module Demo.

(** A rendering of the two texts as one hunk, every old line removed and
    every new line added, under the two file headers. *)
Definition createTwoFilesPatch
    (oldFileName newFileName oldStr newStr oldHeader newHeader : text) : text :=
  "--- " ++ oldFileName ++ " " ++ oldHeader ++ nl ++
  "+++ " ++ newFileName ++ " " ++ newHeader ++ nl ++
  flat_map (fun l => "-" ++ l ++ nl) (JS.split JS.LF oldStr) ++
  flat_map (fun l => "+" ++ l ++ nl) (JS.split JS.LF newStr).

#[global] Instance packages : Packages := {
  createTwoFilesPatch := createTwoFilesPatch;
  minimatch := Glob.minimatch
}.

End Demo.

(** ** A concrete world for the scenarios of the specification

    [/ws] is the allowed root; [/ws/link] is a symbolic link to [/etc],
    which lies outside it. *)

Module Scenario.
Import MemFS.

Definition tree : node :=
  Dir [("ws" : text,
        Dir [("a.txt" : text, File ("foo" ++ nl ++ "bar" ++ nl));
             ("link" : text, Symlink "/etc");
             ("sub" : text,
              Dir [("b.txt" : text, File "hello");
                   ("node_modules" : text, Dir [("foo.js" : text, File "x")])]);
             ("node_modules" : text,
              Dir [("foo.js" : text, File "y");
                   ("deep" : text, Dir [("foo2" : text, File [])])])]);
       ("etc" : text, Dir [("passwd" : text, File "root:x:0:0")])].

Definition initial : state node unit := boot tree ["/ws" : text].

End Scenario.

(** ** Reading several files *)

Section ManyFiles.
Context {W : Type} {FS : FileSystem W} {L : Type}.

(** [await Promise.all(xs.map(async (x) => f(x)))].  The callbacks run one
    after the other here; those of the server only read, so the order in
    which their calls interleave does not change what they return. *)
Fixpoint mapM {A B} (f : A -> M W L B) (xs : list A) : M W L (list B) :=
  match xs with
  | [] => ret []
  | x :: xs' =>
      y <- f x ;;
      ys <- mapM f xs' ;;
      ret (y :: ys)
  end.

(** The callback of [parsed.data.paths.map] in [read_multiple_files]. *)
Definition readOne (filePath : text) : M W L text :=
  try_catch
    (validPath <- validatePath filePath ;;
     content <- readFile validPath ;;
     ret (filePath ++ ":" ++ nl ++ content ++ nl))
    (fun error => ret (filePath ++ ": Error - " ++ message error)).

Definition handle_read_multiple_files (paths : list text) : M W L text :=
  results <- mapM readOne paths ;;
  ret (JS.join (nl ++ "---" ++ nl) results).

End ManyFiles.

(** ** The tools configuration and the list of tools *)

(** The environment variables the server reads at start. *)
Record processEnv := {
  env_ENABLED_TOOLS : option text;
  env_WORKSPACE_ROOT : option text;
  env_PWD : option text;
  env_ENABLE_WORKSPACE_MODE : option text;
  env_MORPH_API_KEY : option text
}.

(** Truthiness of an environment variable: set, and not the empty text. *)
Definition isSet (v : option text) : bool :=
  match v with
  | Some t => nonEmpty t
  | None => false
  end.

Definition ALL_TOOLS : list text :=
  ["read_file" : text; "read_multiple_files" : text; "write_file" : text;
   "tiny_edit_file" : text; "create_directory" : text; "list_directory" : text;
   "list_directory_with_sizes" : text; "directory_tree" : text; "move_file" : text;
   "search_files" : text; "get_file_info" : text; "list_allowed_directories" : text;
   "edit_file" : text; "warpgrep_codebase_search" : text; "codebase_search" : text].

Definition DEFAULT_TOOLS : list text :=
  ["edit_file" : text; "warpgrep_codebase_search" : text].

Definition ENABLED_TOOLS (pe : processEnv) : list text :=
  match env_ENABLED_TOOLS pe with
  | Some v =>
      if nonEmpty v then
        if JS.eqb v "all" then ALL_TOOLS
        else map JS.trim (JS.split "," v)
      else DEFAULT_TOOLS
  | None => DEFAULT_TOOLS
  end.

Definition WORKSPACE_ROOT (pe : processEnv) (e : environment) : text :=
  match env_WORKSPACE_ROOT pe, env_PWD pe with
  | Some r, pwd =>
      if nonEmpty r then r
      else match pwd with
           | Some p => if nonEmpty p then p else cwd e
           | None => cwd e
           end
  | None, Some p => if nonEmpty p then p else cwd e
  | None, None => cwd e
  end.

Definition ENABLE_WORKSPACE_MODE (pe : processEnv) : bool :=
  match env_ENABLE_WORKSPACE_MODE pe with
  | Some v => negb (JS.eqb v "false")
  | None => true
  end.

Definition MORPH_API_KEY (pe : processEnv) : option text := env_MORPH_API_KEY pe.

(** An entry of [allTools] in the [ListToolsRequestSchema] handler; the
    descriptions and input schemas, which are constants, are left out. *)
Record Tool := { tool_name : text; requiresApiKey : bool }.

Definition allTools : list Tool :=
  [{| tool_name := "edit_file"; requiresApiKey := true |};
   {| tool_name := "warpgrep_codebase_search"; requiresApiKey := true |};
   {| tool_name := "codebase_search"; requiresApiKey := true |}].

(** [ENABLED_TOOLS.includes(name)] *)
Definition arrayIncludes (xs : list text) (x : text) : bool := existsb (JS.eqb x) xs.

(** The names of the tools the handler returns. *)
Definition listTools (pe : processEnv) : list text :=
  map tool_name
    (filter (fun tool =>
               if negb (arrayIncludes (ENABLED_TOOLS pe) (tool_name tool)) then false
               else if requiresApiKey tool && negb (isSet (MORPH_API_KEY pe)) then false
               else true)
            allTools).

(** ** Workspace detection and the allow-list *)

(** [fs.access], which only the workspace detection calls. *)
Class FileAccess (W : Type) := { fs_access : W -> text -> result unit }.

Definition workspaceIndicators : list text :=
  [".git" : text; ".vscode" : text; "package.json" : text; "Cargo.toml" : text;
   "pyproject.toml" : text; "go.mod" : text; ".cursor" : text; "tsconfig.json" : text;
   "composer.json" : text].

Section Workspace.
Context {W : Type} {FS : FileSystem W} {FA : FileAccess W} {L : Type}.

(** [await fs.access(p)].  The trace lists the calls of the tools; the
    probes of the workspace detection are not entered in it. *)
Definition access (p : text) : M W L unit :=
  fun s => (lift (fs_access (world s) p), s).

(** [for (const indicator of workspaceIndicators)]: whether the loop
    returns, that is, whether an indicator in [currentPath] is accessible. *)
Fixpoint probe (currentPath : text) (indicators : list text) : M W L bool :=
  match indicators with
  | [] => ret false
  | indicator :: rest =>
      let indicatorPath := Path.join currentPath indicator in
      accessible <- try_catch (access indicatorPath ;;; ret true) (fun _ => ret false) ;;
      if accessible then ret true else probe currentPath rest
  end.

(** [while (currentPath !== path.dirname(currentPath))]: the workspace
    root found, if the loop returns one. *)
Fixpoint climb (fuel : nat) (currentPath : text) : M W L (option text) :=
  if JS.eqb currentPath (Path.dirname currentPath) then ret None
  else
    match fuel with
    | 0 => outOfFuel
    | S fuel' =>
        returns <- probe currentPath workspaceIndicators ;;
        if returns then ret (Some (normalizePath currentPath))
        else climb fuel' (Path.dirname currentPath)
    end.

Definition detectWorkspaceRoot (startPath : text) : M W L text :=
  e <- getEnv ;;
  let currentPath := Path.resolve (cwd e) startPath in
  found <- climb (length currentPath) currentPath ;;
  match found with
  | Some workspaceRoot => ret workspaceRoot
  | None => ret (normalizePath startPath)
  end.

(** The assignment [allowedDirectories = dirs]. *)
Definition assignAllowedDirectories (dirs : list text) : M W L unit :=
  fun s => (Ok tt, setAllowedDirectories dirs s).

(** The callback of [args.map] that computes the initial allow-list. *)
Definition resolveAllowedDirectory (dir : text) : M W L text :=
  e <- getEnv ;;
  let expanded := expandHome (homedir e) dir in
  let absolute := Path.resolve (cwd e) expanded in
  try_catch
    (resolved <- realpath absolute ;; ret (normalizePath resolved))
    (fun _ => ret (normalizePath absolute)).

(** The allow-list at start: the directories of the command line and, in
    workspace mode without any, the detected workspace root. *)
Definition initAllowedDirectories (pe : processEnv) (args : list text) : M W L unit :=
  dirs <- mapM resolveAllowedDirectory args ;;
  assignAllowedDirectories dirs ;;;
  if ENABLE_WORKSPACE_MODE pe && (length args =? 0) then
    try_catch
      (e <- getEnv ;;
       workspaceDir <- detectWorkspaceRoot (WORKSPACE_ROOT pe e) ;;
       if nonEmpty workspaceDir then
         allowed <- getAllowedDirectories ;;
         assignAllowedDirectories (allowed ++ [workspaceDir])
       else ret tt)
      (fun _ => ret tt)
  else ret tt.

Section Roots.
(** [getValidRootDirectories] comes from [roots-utils.js]; the update is
    embedded over it. *)
Variable Root : Type.
Variable getValidRootDirectories : list Root -> M W L (list text).

Definition updateAllowedDirectoriesFromRoots (pe : processEnv)
    (requestedRoots : list Root) : M W L unit :=
  validatedRootDirs <- getValidRootDirectories requestedRoots ;;
  if 0 <? length validatedRootDirs then assignAllowedDirectories validatedRootDirs
  else if ENABLE_WORKSPACE_MODE pe then
    try_catch
      (e <- getEnv ;;
       workspaceDir <- detectWorkspaceRoot (WORKSPACE_ROOT pe e) ;;
       if nonEmpty workspaceDir then assignAllowedDirectories [workspaceDir]
       else ret tt)
      (fun _ => ret tt)
  else ret tt.

(** [server.listRoots()] is the client's answer: the roots it holds, if
    the response has any. *)
Variable listRoots : M W L (option (list Root)).

(** [server.oninitialized]; [rootsCapability] is
    [clientCapabilities?.roots]. *)
Definition oninitialized (pe : processEnv) (rootsCapability : bool) : M W L unit :=
  if rootsCapability then
    try_catch
      (response <- listRoots ;;
       match response with
       | Some roots => updateAllowedDirectoriesFromRoots pe roots
       | None => ret tt
       end)
      (fun _ => ret tt)
  else
    allowed <- getAllowedDirectories ;;
    if 0 <? length allowed then ret tt
    else if ENABLE_WORKSPACE_MODE pe then ret tt
    else
      throw (Error ("Server cannot operate: No allowed directories available. " ++
                    "Server was started without command-line directories and client " ++
                    "either does not support MCP roots protocol or provided empty roots. " ++
                    "Please either: 1) Start server with directory arguments, " ++
                    "2) Use a client that supports MCP roots protocol and provides valid " ++
                    "root directories, or 3) Enable workspace mode with " ++
                    "ENABLE_WORKSPACE_MODE=true.")).

End Roots.

End Workspace.

(** [fs.access] in the in-memory file system: the path resolves. *)
Definition memAccess (w : MemFS.node) (p : text) : result unit :=
  match MemFS.follow "access" w p with
  | inl e => inl e
  | inr _ => inr tt
  end.

#[global] Instance memFileAccess : FileAccess MemFS.node := { fs_access := memAccess }.

(** ** Notions the properties are stated with *)

(** The run of fence characters a text starts with, and its longest run. *)
Fixpoint leadingRun (s : text) : nat :=
  match s with
  | c :: s' => if Ascii.eqb c backtick then S (leadingRun s') else 0
  | [] => 0
  end.

Fixpoint longestRun (s : text) : nat :=
  match s with
  | [] => 0
  | _ :: s' => Nat.max (leadingRun s) (longestRun s')
  end.

(** The window of [contentLines] that starts at line [i] matches
    [oldLines] line by line, white space at both ends stripped. *)
Definition windowMatchesAt (oldLines contentLines : list text) (i : nat) : Prop :=
  i + length oldLines <= length contentLines /\
  forall j oldLine, nth_error oldLines j = Some oldLine ->
    exists contentLine,
      nth_error contentLines (i + j) = Some contentLine /\
      JS.trim oldLine = JS.trim contentLine.

Definition earliestWindow (oldLines contentLines : list text) (i : nat) : Prop :=
  windowMatchesAt oldLines contentLines i /\
  forall i', i' < i -> ~ windowMatchesAt oldLines contentLines i'.

Definition indentWidth (line : text) : Z := Z.of_nat (length (JS.leadingWhitespace line)).

Definition allWhite (s : text) : Prop := Forall (fun c => JS.isWhiteSpace c = true) s.


(** The last [k] elements of a list. *)
Definition lastn {A} (k : nat) (l : list A) : list A := skipn (length l - k) l.

(** The segments between the newlines of a text, as [split] gives them,
    and its lines as [headFile] counts them: the segments, without the
    empty segment that follows a final newline. *)
Definition segmentsOf (content : text) : list text := JS.split JS.LF content.

Definition linesOf (content : text) : list text :=
  match last (segmentsOf content) [] with
  | [] => removelast (segmentsOf content)
  | _ :: _ => segmentsOf content
  end.

(** The state [s] with the calls [cs] added to its trace. *)
Definition extend {W L} (cs : list fs_call) (s : state W L) : state W L :=
  mkState (world s) (trace s ++ cs) (allowedDirectories s) (env s)
          (entropy s) (drawn s) (locals s).

Definition isRealpathCall (c : fs_call) : Prop :=
  match c with
  | CallRealpath _ => True
  | _ => False
  end.

Section Validation.
Context {W : Type} {FS : FileSystem W}.

Definition absoluteOf (e : environment) (requestedPath : text) : text :=
  Path.resolve (cwd e) (expandHome (homedir e) requestedPath).

(** What [validatePath] returns in the world [w], and the calls it makes. *)
Definition validateOutcome (w : W) (e : environment) (requestedPath : text)
    : outcome text :=
  let absolute := absoluteOf e requestedPath in
  match fs_realpath w absolute with
  | inr realPath => Ok realPath
  | inl error =>
      if hasCode error ENOENT then
        match fs_realpath w (Path.dirname absolute) with
        | inr realParent => Ok (Path.join realParent (Path.basename absolute))
        | inl _ =>
            Throw (Error ("Parent directory does not exist: " ++ Path.dirname absolute))
        end
      else Throw error
  end.

Definition validateCalls (w : W) (e : environment) (requestedPath : text)
    : list fs_call :=
  let absolute := absoluteOf e requestedPath in
  match fs_realpath w absolute with
  | inr _ => [CallRealpath absolute]
  | inl error =>
      if hasCode error ENOENT
      then [CallRealpath absolute; CallRealpath (Path.dirname absolute)]
      else [CallRealpath absolute]
  end.

Definition validates (w : W) (e : environment) (requestedPath : text) : bool :=
  match validateOutcome w e requestedPath with
  | Ok _ => true
  | _ => false
  end.

End Validation.

Section Walk.
Context {W : Type} {FS : FileSystem W} {PK : Packages}.
Variables (w : W) (e : environment).
Variables (rootPath pattern : text) (excludePatterns : list text).

Definition globPatternOf (excludePattern : text) : text :=
  if JS.includes excludePattern "*" then excludePattern
  else "**/" ++ excludePattern ++ "/**".

(** The entry at [fullPath] matches an exclusion glob. *)
Definition shouldExclude (fullPath : text) : bool :=
  existsb (fun excludePattern =>
             minimatch (Path.relative (cwd e) rootPath fullPath)
                       (globPatternOf excludePattern))
          excludePatterns.

Definition nameMatches (entryName : text) : bool :=
  JS.includes (JS.toLowerCase entryName) (JS.toLowerCase pattern).

(** The entries the walk processes in a directory: those that validate
    and that no exclusion glob matches. *)
Definition kept (currentPath : text) (entry : Dirent) : Prop :=
  exists entries,
    fs_readdir w currentPath = inr entries /\ In entry entries /\
    validates w e (Path.join currentPath (name entry)) = true /\
    shouldExclude (Path.join currentPath (name entry)) = false.

(** [found currentPath p]: [p] is a kept entry below [currentPath] whose
    name matches, reached through kept directories only. *)
Inductive found : text -> text -> Prop :=
| found_here currentPath entry :
    kept currentPath entry ->
    nameMatches (name entry) = true ->
    found currentPath (Path.join currentPath (name entry))
| found_below currentPath entry p :
    kept currentPath entry ->
    isDirectory entry = true ->
    found (Path.join currentPath (name entry)) p ->
    found currentPath p.

(** [shallow n currentPath]: the kept directories below [currentPath]
    nest less than [n] deep. *)
Inductive shallow : nat -> text -> Prop :=
| shallow_dir n currentPath :
    (forall entry, kept currentPath entry -> isDirectory entry = true ->
       shallow n (Path.join currentPath (name entry))) ->
    shallow (S n) currentPath.

(** A check of [shallow] that computes. *)
Fixpoint shallowb (n : nat) (currentPath : text) : bool :=
  match n with
  | 0 => false
  | S n' =>
      match fs_readdir w currentPath with
      | inl _ => true
      | inr entries =>
          forallb (fun entry =>
                     let fullPath := Path.join currentPath (name entry) in
                     if isDirectory entry && validates w e fullPath
                        && negb (shouldExclude fullPath)
                     then shallowb n' fullPath else true)
                  entries
      end
  end.

End Walk.

(** ** Further notions *)

(** A text of ASCII characters: the decoding of its bytes, chunk by chunk
    or as a whole, is the text itself. *)
Definition isAscii (c : ascii) : bool := nat_of_ascii c <? 128.

Definition asciiText (content : text) : Prop :=
  Forall (fun c => isAscii c = true) content.

(** A text without the newline it ends with, if it ends with one. *)
Definition chomp (content : text) : text :=
  match rev content with
  | c :: r => if Ascii.eqb c JS.LF then rev r else content
  | [] => content
  end.


Section Listing.
Context {W : Type} {FS : FileSystem W} {PK : Packages}.
Variables (w : W) (e : environment).
Variables (rootPath : text) (excludePatterns : list text).



End Listing.

(** A line without the carriage return it ends with, if it ends with one. *)
Definition dropCR (l : text) : text :=
  match rev l with
  | c :: r => if Ascii.eqb c JS.CR then rev r else l
  | [] => l
  end.

(** [f] on every element of a list but the last. *)
Fixpoint mapInit {A} (f : A -> A) (l : list A) : list A :=
  match l with
  | [] => []
  | x :: l' =>
      match l' with
      | [] => [x]
      | _ :: _ => f x :: mapInit f l'
      end
  end.

(** The [k]-th directory above a path, as [path.dirname] climbs. *)
Fixpoint ancestor (k : nat) (p : text) : text :=
  match k with
  | 0 => p
  | S k' => Path.dirname (ancestor k' p)
  end.

(** The climb from [p] examines the [k]-th directory above it: none of the
    directories up to that one is its own parent. *)
Definition examined (p : text) (k : nat) : Prop :=
  forall j, j <= k -> ancestor j p <> Path.dirname (ancestor j p).

(** One of the workspace indicators is accessible in [dir]. *)
Definition hasIndicator {W} {FA : FileAccess W} (w : W) (dir : text) : bool :=
  existsb (fun indicator =>
             match fs_access w (Path.join dir indicator) with
             | inr _ => true
             | inl _ => false
             end)
          workspaceIndicators.

(** The entry of the allow-list computed at start for a directory of the
    command line: its real path, or its absolute path when it does not
    resolve, normalised. *)
Definition configuredDirectory {W} {FS : FileSystem W} (w : W) (e : environment)
    (dir : text) : text :=
  match fs_realpath w (absoluteOf e dir) with
  | inr resolved => normalizePath resolved
  | inl _ => normalizePath (absoluteOf e dir)
  end.

(** A computation that leaves the file-system world as it found it,
    however it ends. *)
Definition keepsWorld {W L A} (m : M W L A) : Prop :=
  forall s, world (snd (m s)) = world s.

(** The tools that are meant to read only. *)
Definition readsOnly (r : request) : bool :=
  match r with
  | read_file _ | list_directory _ | search_files _ _ | list_allowed_directories => true
  | write_file _ | tiny_edit_file _ | create_directory _ | move_file _ => false
  end.

(** The paths a request hands to [validatePath], in the order in which
    its handler validates them. *)
Definition pathsOf (r : request) : list text :=
  match r with
  | read_file a => [rf_path a]
  | write_file a => [wf_path a]
  | tiny_edit_file a => [ef_path a]
  | create_directory p => [p]
  | list_directory p => [p]
  | move_file a => [mv_source a; mv_destination a]
  | search_files _ a => [sf_path a]
  | list_allowed_directories => []
  end.

(** The part of the answer of [read_multiple_files] for one path. *)
Definition reportOf {W} {FS : FileSystem W} (w : W) (e : environment)
    (filePath : text) : text :=
  match validateOutcome w e filePath with
  | Ok validPath =>
      match fs_readFile w validPath with
      | inr content => filePath ++ ":" ++ nl ++ content ++ nl
      | inl error => filePath ++ ": Error - " ++ message error
      end
  | Throw error => filePath ++ ": Error - " ++ message error
  | OutOfFuel => []
  end.

(* ================================================================== *)
(** * Part II: properties *)
(* ================================================================== *)

Unset Implicit Arguments.

(** ** Strings *)

#[local] Arguments Ascii.eqb : simpl never.
#[local] Arguments drawBytes : simpl never.
#[local] Arguments tempPathFor : simpl never.

Lemma eqb_eq (a b : text) : JS.eqb a b = true <-> a = b.
Proof.
  revert b; induction a as [|x a IH]; intros [|y b]; simpl; split; intro E;
    try reflexivity; try discriminate.
  - apply andb_true_iff in E as [E1 E2]. apply Ascii.eqb_eq in E1.
    apply IH in E2. now subst.
  - injection E as -> ->. apply andb_true_iff; split.
    + apply Ascii.eqb_refl.
    + now apply IH.
Qed.

Lemma startsWith_repeat (s : text) (n : nat) :
  JS.startsWith s (JS.repeat backtick n) = true <-> n <= leadingRun s.
Proof.
  revert n; induction s as [|c s IH]; intros [|n]; simpl; split; intro E;
    try reflexivity; try lia; try discriminate.
  - apply andb_true_iff in E as [E1 E2]. apply Ascii.eqb_eq in E1. subst c.
    rewrite Ascii.eqb_refl. apply IH in E2. lia.
  - destruct (Ascii.eqb c backtick) eqn:Ec; [|lia].
    apply Ascii.eqb_eq in Ec. subst c. simpl.
    apply IH. lia.
Qed.

Lemma includes_repeat (s : text) (n : nat) :
  JS.includes s (JS.repeat backtick n) = true <-> n <= longestRun s.
Proof.
  induction s as [|c s IH].
  - simpl. rewrite orb_false_r.
    destruct n; simpl; split; intro; try reflexivity; try lia; discriminate.
  - change (JS.includes (c :: s) (JS.repeat backtick n))
      with (JS.startsWith (c :: s) (JS.repeat backtick n)
            || JS.includes s (JS.repeat backtick n)).
    change (longestRun (c :: s)) with (Nat.max (leadingRun (c :: s)) (longestRun s)).
    rewrite orb_true_iff, startsWith_repeat, IH. lia.
Qed.

Lemma leadingRun_le_length (s : text) : leadingRun s <= length s.
Proof.
  induction s as [|c s IH]; simpl; [lia|].
  destruct (Ascii.eqb c backtick); lia.
Qed.

Lemma longestRun_le_length (s : text) : longestRun s <= length s.
Proof.
  induction s as [|c s IH]; [simpl; lia|].
  change (longestRun (c :: s)) with (Nat.max (leadingRun (c :: s)) (longestRun s)).
  pose proof (leadingRun_le_length (c :: s)). simpl length in *. lia.
Qed.

Lemma growFence_spec (diff : text) (fuel n : nat) :
  longestRun diff < n + fuel ->
  growFence fuel diff n = Nat.max n (longestRun diff + 1).
Proof.
  revert n; induction fuel as [|fuel IH]; intros n Hf; simpl.
  - destruct (JS.includes diff (JS.repeat backtick n)) eqn:E.
    + apply includes_repeat in E. lia.
    + assert (~ n <= longestRun diff) by (rewrite <- includes_repeat, E; discriminate).
      lia.
  - destruct (JS.includes diff (JS.repeat backtick n)) eqn:E.
    + apply includes_repeat in E. rewrite IH by lia. lia.
    + assert (~ n <= longestRun diff) by (rewrite <- includes_repeat, E; discriminate).
      lia.
Qed.

(** ** The fence of a rendered diff *)

Lemma fenceLength_spec (diff : text) :
  fenceLength diff = Nat.max 3 (longestRun diff + 1).
Proof.
  unfold fenceLength. apply growFence_spec.
  pose proof (longestRun_le_length diff). lia.
Qed.

(** C9 as stated fails: for a diff without any backtick the fence has
    three backticks, not one more than the longest run (which is zero). *)
Lemma fence_of_plain_diff_has_three_backticks :
  let diff : text := "-foo" ++ nl ++ "+baz" ++ nl in
  fenceLength diff = 3 /\ longestRun diff + 1 = 1 /\
  leadingRun (formatDiff diff) <> longestRun diff + 1.
Proof. vm_compute. repeat split; discriminate. Qed.

(** C9, amended: the fence of a rendered diff has [max 3 (r + 1)]
    backticks, where [r] is the longest run of backticks in the diff text;
    the diff text never contains the fence, and it is wrapped between an
    opening fence followed by [diff] and a closing fence. *)
Theorem fence_longer_than_every_run (diff : text) :
  fenceLength diff = Nat.max 3 (longestRun diff + 1) /\
  JS.includes diff (JS.repeat backtick (fenceLength diff)) = false /\
  formatDiff diff =
    JS.repeat backtick (fenceLength diff) ++ "diff" ++ nl ++ diff ++
    JS.repeat backtick (fenceLength diff) ++ nl ++ nl.
Proof.
  split; [apply fenceLength_spec|]. split; [|reflexivity].
  destruct (JS.includes diff (JS.repeat backtick (fenceLength diff))) eqn:E; [|reflexivity].
  apply includes_repeat in E. rewrite fenceLength_spec in E. lia.
Qed.

(** ** Whitespace-tolerant matching and re-indentation *)

Lemma everyi_from_iff {A} (f : A -> nat -> bool) (xs : list A) (k : nat) :
  JS.everyi_from f k xs = true <->
  forall j x, nth_error xs j = Some x -> f x (k + j) = true.
Proof.
  revert k; induction xs as [|a xs IH]; intro k; simpl.
  - split; [intros _ [|j] x E; discriminate | reflexivity].
  - rewrite andb_true_iff, IH. split.
    + intros [Ha Hx] [|j] x E; simpl in E.
      * injection E as <-. now rewrite Nat.add_0_r.
      * rewrite <- Nat.add_succ_comm. now apply Hx.
    + intro Hall. split.
      * specialize (Hall 0 a eq_refl). now rewrite Nat.add_0_r in Hall.
      * intros j x E. rewrite Nat.add_succ_comm. now apply Hall.
Qed.

Lemma nth_error_window {A} (l : list A) (i n j : nat) :
  j < n -> nth_error (firstn n (skipn i l)) j = nth_error l (i + j).
Proof.
  intro Hj. rewrite nth_error_firstn.
  destruct (j <? n) eqn:E; [apply nth_error_skipn|].
  apply Nat.ltb_ge in E. lia.
Qed.

Lemma isMatch_iff (oldLines contentLines : list text) (i : nat) :
  i + length oldLines <= length contentLines ->
  isMatch oldLines (firstn (length oldLines) (skipn i contentLines)) = true <->
  windowMatchesAt oldLines contentLines i.
Proof.
  intro Hlen. unfold isMatch, JS.everyi, windowMatchesAt.
  rewrite everyi_from_iff. split.
  - intro Hall. split; [exact Hlen|]. intros j oldLine Hj.
    specialize (Hall j oldLine Hj). simpl in Hall.
    assert (j < length oldLines) by (apply nth_error_Some; congruence).
    rewrite nth_error_window in Hall by assumption.
    destruct (nth_error contentLines (i + j)) as [contentLine|]; [|discriminate].
    exists contentLine. split; [reflexivity|]. now apply eqb_eq.
  - intros [_ Hall] j oldLine Hj. simpl.
    assert (j < length oldLines) by (apply nth_error_Some; congruence).
    rewrite nth_error_window by assumption.
    destruct (Hall j oldLine Hj) as (contentLine & -> & Htrim).
    now apply eqb_eq.
Qed.

Lemma windowLoop_earliest (oldLines contentLines : list text) (normalizedNew : text)
    (count i0 i : nat) :
  i0 <= i -> i < i0 + count ->
  windowMatchesAt oldLines contentLines i ->
  (forall i', i0 <= i' -> i' < i -> ~ windowMatchesAt oldLines contentLines i') ->
  windowLoop oldLines contentLines normalizedNew count i0 =
  Some (JS.join nl
          (JS.splice contentLines i (length oldLines)
             (JS.mapi (reindentLine oldLines (indentOf (nth_error contentLines i)))
                      (JS.split JS.LF normalizedNew)))).
Proof.
  revert i0; induction count as [|count IH]; intros i0 Hle Hlt Hm Hfirst; [lia|].
  simpl. destruct (Nat.eq_dec i0 i) as [->|Hne].
  - assert (E : isMatch oldLines (firstn (length oldLines) (skipn i contentLines)) = true)
      by (apply isMatch_iff; [apply Hm | exact Hm]).
    now rewrite E.
  - destruct (isMatch oldLines (firstn (length oldLines) (skipn i0 contentLines))) eqn:E.
    + exfalso. apply (Hfirst i0); [lia | lia |].
      apply isMatch_iff; [destruct Hm; lia | exact E].
    + apply IH; try lia; try assumption.
      intros i' H1 H2. apply Hfirst; lia.
Qed.

Lemma nth_error_mapi_from {A B} (f : A -> nat -> B) (xs : list A) (k j : nat) :
  nth_error (JS.mapi_from f k xs) j = option_map (fun x => f x (k + j)) (nth_error xs j).
Proof.
  revert k j; induction xs as [|a xs IH]; intros k [|j]; simpl; try reflexivity.
  - now rewrite Nat.add_0_r.
  - rewrite IH. now rewrite Nat.add_succ_comm.
Qed.

Lemma length_mapi_from {A B} (f : A -> nat -> B) (xs : list A) (k : nat) :
  length (JS.mapi_from f k xs) = length xs.
Proof. revert k; induction xs; intro k; simpl; [reflexivity | now rewrite IHxs]. Qed.

Lemma leadingWhitespace_allWhite (s : text) : allWhite (JS.leadingWhitespace s).
Proof.
  induction s as [|c s IH]; simpl; [constructor|].
  destruct (JS.isWhiteSpace c) eqn:E; constructor; assumption.
Qed.

Lemma leadingWhitespace_trimStart (s : text) : JS.leadingWhitespace (JS.trimStart s) = [].
Proof.
  induction s as [|c s IH]; simpl; [reflexivity|].
  destruct (JS.isWhiteSpace c) eqn:E; [exact IH|]. simpl. now rewrite E.
Qed.

Lemma leadingWhitespace_app (a b : text) :
  allWhite a -> JS.leadingWhitespace (a ++ b) = a ++ JS.leadingWhitespace b.
Proof.
  induction 1 as [|c a Hc Ha IH]; simpl; [reflexivity|].
  now rewrite Hc, IH.
Qed.

Lemma allWhite_spaces (n : nat) : allWhite (JS.repeat " " n).
Proof. induction n; simpl; constructor; [reflexivity | assumption]. Qed.

Lemma leadingWhitespace_trimStart_split (s : text) :
  s = JS.leadingWhitespace s ++ JS.trimStart s.
Proof.
  induction s as [|c s IH]; simpl; [reflexivity|].
  destruct (JS.isWhiteSpace c); simpl; [now rewrite <- IH | reflexivity].
Qed.

Lemma nonEmpty_length (s : text) : nonEmpty s = true <-> 0 < length s.
Proof. destruct s; simpl; split; intro; try reflexivity; try lia; discriminate. Qed.

(** The indentation of a re-indented line. *)
Lemma reindentLine_width (oldLines : list text) (originalIndent line : text) (j : nat) :
  allWhite originalIndent ->
  indentWidth (reindentLine oldLines originalIndent line j) =
  if j =? 0 then Z.of_nat (length originalIndent)
  else if nonEmpty (indentOf (nth_error oldLines j)) && nonEmpty (JS.leadingWhitespace line)
       then (Z.of_nat (length originalIndent) +
             Z.max 0 (indentWidth line - Z.of_nat (length (indentOf (nth_error oldLines j)))))%Z
       else indentWidth line.
Proof.
  intro Hw. unfold reindentLine, indentWidth. simpl indentOf.
  destruct (j =? 0).
  - rewrite leadingWhitespace_app, leadingWhitespace_trimStart, app_nil_r by assumption.
    reflexivity.
  - destruct (nonEmpty (indentOf (nth_error oldLines j)) && nonEmpty (JS.leadingWhitespace line));
      [|reflexivity].
    rewrite leadingWhitespace_app by assumption.
    rewrite leadingWhitespace_app by apply allWhite_spaces.
    rewrite leadingWhitespace_trimStart, app_nil_r.
    rewrite length_app. unfold JS.repeat. rewrite repeat_length. lia.
Qed.

(** C3 as stated fails: a search line indented by six and a replacement
    line indented by four differ by minus two, yet the replacement line is
    not placed two columns left of the original indentation (four): the
    negative difference is clamped to zero and the line keeps indentation
    four. *)
Lemma negative_indent_difference_is_clamped :
  let content : text := "    a" ++ nl ++ "        b" in
  let edit := {| oldText := "  a" ++ nl ++ "      b"; newText := "  a" ++ nl ++ "    c" |} in
  JS.includes content (normalizeLineEndings (oldText edit)) = false /\
  applyEdit content edit = Some ("    a" ++ nl ++ "    c") /\
  indentWidth "    c" <> (indentWidth "    a" + (indentWidth "    c" - indentWidth "      b"))%Z.
Proof. vm_compute. repeat split; discriminate. Qed.

(** C3, amended: when the search text has no exact occurrence and some
    window of content lines matches it with white space stripped at both
    ends, the replacement lines are spliced in at the earliest such window.
    The first replacement line is the original indentation of the window's
    first line followed by the line without its own leading white space.
    A later replacement line, when both it and the search line of the same
    index start with white space, is the original indentation, then as
    many spaces as its indentation exceeds that of the search line (none
    when it does not exceed it), then the line without its leading white
    space; otherwise it is inserted as it is. *)
Theorem fuzzy_replacement_reindents (content : text) (edit : EditOperation) (i : nat) :
  let normalizedOld := normalizeLineEndings (oldText edit) in
  let normalizedNew := normalizeLineEndings (newText edit) in
  let oldLines := JS.split JS.LF normalizedOld in
  let contentLines := JS.split JS.LF content in
  let newLines := JS.split JS.LF normalizedNew in
  let originalIndent := indentOf (nth_error contentLines i) in
  JS.includes content normalizedOld = false ->
  earliestWindow oldLines contentLines i ->
  exists replaced,
    applyEdit content edit =
      Some (JS.join nl (firstn i contentLines ++ replaced ++
                        skipn (i + length oldLines) contentLines)) /\
    length replaced = length newLines /\
    forall j line, nth_error newLines j = Some line ->
      let oldIndent := indentOf (nth_error oldLines j) in
      let newIndent := JS.leadingWhitespace line in
      exists line',
        nth_error replaced j = Some line' /\
        line' =
          (if j =? 0 then originalIndent ++ JS.trimStart line
           else if nonEmpty oldIndent && nonEmpty newIndent
                then originalIndent ++
                     JS.repeat " " (length newIndent - length oldIndent) ++
                     JS.trimStart line
                else line) /\
        indentWidth line' =
          (if j =? 0 then Z.of_nat (length originalIndent)
           else if nonEmpty oldIndent && nonEmpty newIndent
                then (Z.of_nat (length originalIndent) +
                      Z.max 0 (Z.of_nat (length newIndent) - Z.of_nat (length oldIndent)))%Z
                else Z.of_nat (length newIndent)).
Proof.
  intros normalizedOld normalizedNew oldLines contentLines newLines originalIndent
         Hexact [Hm Hfirst].
  exists (JS.mapi (reindentLine oldLines originalIndent) newLines).
  split; [|split].
  - unfold applyEdit. fold normalizedOld normalizedNew. rewrite Hexact.
    fold oldLines contentLines.
    apply windowLoop_earliest; try lia; try assumption.
    + destruct Hm as [Hlen _]. lia.
    + intros i' _ Hlt. now apply Hfirst.
  - apply length_mapi_from.
  - intros j line Hj oldIndent newIndent.
    exists (reindentLine oldLines originalIndent line j).
    split; [|split].
    + unfold JS.mapi. rewrite nth_error_mapi_from, Hj. reflexivity.
    + unfold reindentLine. simpl indentOf. fold oldIndent newIndent.
      destruct (j =? 0); [reflexivity|].
      destruct (nonEmpty oldIndent && nonEmpty newIndent); [|reflexivity].
      do 3 f_equal. lia.
    + rewrite reindentLine_width.
      * fold oldIndent. reflexivity.
      * destruct (nth_error contentLines i); simpl; [apply leadingWhitespace_allWhite|constructor].
Qed.

(** The theorem applies to the scenario of the counterexample, window 0. *)
Lemma fuzzy_replacement_reindents_witness :
  let content : text := "    a" ++ nl ++ "        b" in
  let edit := {| oldText := "  a" ++ nl ++ "      b"; newText := "  a" ++ nl ++ "    c" |} in
  exists replaced,
    applyEdit content edit = Some (JS.join nl (replaced ++ [])) /\
    length replaced = 2.
Proof.
  intros content edit.
  assert (Hexact : JS.includes content (normalizeLineEndings (oldText edit)) = false)
    by reflexivity.
  assert (Hwin : earliestWindow (JS.split JS.LF (normalizeLineEndings (oldText edit)))
                   (JS.split JS.LF content) 0).
  { split; [|intros i' Hi'; lia].
    split; [vm_compute; lia|].
    intros [|[|[|j]]] oldLine Hj; simpl in Hj; try discriminate;
      injection Hj as <-; eexists; (split; [reflexivity|]); reflexivity. }
  destruct (fuzzy_replacement_reindents content edit 0 Hexact Hwin)
    as (replaced & Happly & Hlen & _).
  exists replaced. split; [exact Happly | exact Hlen].
Defined.

(** ** Path validation *)

Ltac unfold_calls :=
  unfold realpath, readFile, readdir, stat, open, close, writeFile, rename, unlink,
    mkdir, reading, writing, getEnv, getAllowedDirectories, randomBytes, lift.

Ltac unfold_monad := unfold bind, ret, throw, try_catch, try_finally.

Lemma extend_record {W L} (c : fs_call) (cs : list fs_call) (s : state W L) :
  record c (extend cs s) = extend (cs ++ [c]) s.
Proof. unfold record, extend. simpl. now rewrite app_assoc. Qed.

Lemma record_extend {W L} (c : fs_call) (s : state W L) : record c s = extend [c] s.
Proof. reflexivity. Qed.

Lemma extend_extend {W L} (cs cs' : list fs_call) (s : state W L) :
  extend cs' (extend cs s) = extend (cs ++ cs') s.
Proof. unfold extend. simpl. now rewrite app_assoc. Qed.

(** [validatePath] only asks for real paths: it returns [validateOutcome]
    and leaves the state as it is but for the trace. *)
Lemma validatePath_run {W} {FS : FileSystem W} {L} (s : state W L) (requestedPath : text) :
  validatePath requestedPath s =
  (validateOutcome (world s) (env s) requestedPath,
   extend (validateCalls (world s) (env s) requestedPath) s).
Proof.
  unfold validatePath, validateOutcome, validateCalls, absoluteOf.
  unfold_monad. unfold_calls. simpl.
  destruct (fs_realpath (world s) _) as [error|realPath] eqn:E1; simpl; [|reflexivity].
  destruct (hasCode error ENOENT); simpl; [|reflexivity].
  destruct (fs_realpath (world s) (Path.dirname _)) as [error'|realParent];
    simpl; unfold record, extend; simpl; now rewrite <- app_assoc.
Qed.

Lemma validateCalls_realpath {W} {FS : FileSystem W} (w : W) (e : environment) (p : text) :
  Forall isRealpathCall (validateCalls w e p).
Proof.
  unfold validateCalls. destruct (fs_realpath w _) as [error|]; [|repeat constructor].
  destruct (hasCode error ENOENT); repeat constructor.
Qed.

Lemma hasCode_iff (e : error) (c : errno) : hasCode e c = true <-> code e = Some c.
Proof.
  unfold hasCode. destruct (code e) as [c'|]; [|split; discriminate].
  destruct c, c'; simpl; split; intro H; try reflexivity; try discriminate; congruence.
Qed.

(** C8: for a path whose real path cannot be found because the entry does
    not exist, [validatePath] resolves the parent directory and re-appends
    the final component; when the parent cannot be resolved it fails with
    the parent-directory error.  The target itself is never required. *)
Theorem validatePath_of_missing_target {W} {FS : FileSystem W} {L}
    (s : state W L) (requestedPath : text) (error0 : error) :
  let absolute := absoluteOf (env s) requestedPath in
  let parentDir := Path.dirname absolute in
  fs_realpath (world s) absolute = inl error0 ->
  code error0 = Some ENOENT ->
  (forall realParent,
      fs_realpath (world s) parentDir = inr realParent ->
      validatePath requestedPath s =
      (Ok (Path.join realParent (Path.basename absolute)),
       extend [CallRealpath absolute; CallRealpath parentDir] s)) /\
  (forall error1,
      fs_realpath (world s) parentDir = inl error1 ->
      validatePath requestedPath s =
      (Throw (Error ("Parent directory does not exist: " ++ parentDir)),
       extend [CallRealpath absolute; CallRealpath parentDir] s)).
Proof.
  intros absolute parentDir H0 Hcode.
  apply hasCode_iff in Hcode.
  split; intros r Hr; rewrite validatePath_run;
    unfold validateOutcome, validateCalls; fold absolute; rewrite H0, Hcode;
    fold parentDir; rewrite Hr; reflexivity.
Qed.

(** In the scenario world, [/ws/new.txt] does not exist and [/ws] does;
    [/ws/none/new.txt] has no parent. *)
Lemma validatePath_of_missing_target_witness :
  validatePath "/ws/new.txt" Scenario.initial =
    (Ok ("/ws/new.txt" : text),
     extend [CallRealpath "/ws/new.txt"; CallRealpath "/ws"] Scenario.initial) /\
  validatePath "/ws/none/new.txt" Scenario.initial =
    (Throw (Error "Parent directory does not exist: /ws/none"),
     extend [CallRealpath "/ws/none/new.txt"; CallRealpath "/ws/none"] Scenario.initial).
Proof.
  split.
  - refine (proj1 (validatePath_of_missing_target Scenario.initial "/ws/new.txt"
                     (MemFS.sysError ENOENT "realpath" "/ws/new.txt") _ _) "/ws" _);
      vm_compute; reflexivity.
  - refine (proj2 (validatePath_of_missing_target Scenario.initial "/ws/none/new.txt"
                     (MemFS.sysError ENOENT "realpath" "/ws/none/new.txt") _ _)
                  (MemFS.sysError ENOENT "realpath" "/ws/none") _);
      vm_compute; reflexivity.
Defined.

(** ** Reading with head and tail *)




(** ** Replacing a file by renaming a temporary file onto it *)

Lemma hexDigit_not_slash (n : nat) : n < 16 -> JS.hexDigit n <> "/"%char.
Proof.
  intro H. do 16 (destruct n as [|n]; [discriminate|]). lia.
Qed.

Lemma toHex_no_slash (bytes : list ascii) : ~ In "/"%char (JS.toHex bytes).
Proof.
  unfold JS.toHex. intro H. apply in_flat_map in H as (b & _ & H).
  pose proof (nat_ascii_bounded b) as Hb.
  destruct H as [H|[H|[]]]; revert H; apply hexDigit_not_slash.
  - apply Nat.Div0.div_lt_upper_bound. lia.
  - apply Nat.mod_upper_bound. lia.
Qed.

Lemma dropSlashes_id (r : text) :
  hd "a"%char r <> "/"%char -> Path.dropSlashes r = r.
Proof.
  destruct r as [|c r]; simpl; [reflexivity|]. intro H.
  destruct (Ascii.eqb c "/") eqn:E; [|reflexivity].
  apply Ascii.eqb_eq in E. contradiction.
Qed.

Lemma untilSlash_app (a b : text) :
  ~ In "/"%char a ->
  Path.untilSlash (a ++ b) = (a ++ fst (Path.untilSlash b), snd (Path.untilSlash b)).
Proof.
  induction a as [|c a IH]; simpl; intro H.
  - now destruct (Path.untilSlash b).
  - destruct (Ascii.eqb c "/") eqn:E.
    + apply Ascii.eqb_eq in E. subst. tauto.
    + rewrite IH by tauto. reflexivity.
Qed.

(** A suffix without slashes that does not end the path with one keeps the
    directory and extends the base name. *)
Lemma slashless_suffix_is_sibling (p suffix : text) (last : ascii) :
  p <> [] -> Path.endsWithSlash p = false ->
  ~ In "/"%char (suffix ++ [last]) ->
  Path.dirname (p ++ suffix ++ [last]) = Path.dirname p /\
  Path.basename (p ++ suffix ++ [last]) = Path.basename p ++ suffix ++ [last].
Proof.
  intros Hp Hend Hs.
  destruct p as [|c body]; [contradiction|].
  assert (Hrev : rev (suffix ++ [last]) = last :: rev suffix) by apply rev_unit.
  assert (Hns : ~ In "/"%char (rev (suffix ++ [last]))) by (now rewrite <- in_rev).
  assert (Hlast : last <> "/"%char) by (intro; subst; apply Hs, in_or_app; right; now left).
  split.
  - unfold Path.dirname. simpl app. unfold Path.isAbsolute.
    rewrite (app_assoc body), <- (app_assoc body).
    rewrite rev_app_distr.
    rewrite dropSlashes_id by (rewrite Hrev; exact Hlast).
    rewrite untilSlash_app by assumption. simpl.
    assert (Hd : Path.dropSlashes (rev body) = rev body).
    { unfold Path.endsWithSlash in Hend. simpl rev in Hend.
      destruct (rev body) as [|d r] eqn:Er; [reflexivity|].
      simpl in Hend. simpl. now rewrite Hend. }
    rewrite Hd. destruct (Path.untilSlash (rev body)) as [seg [before|]]; reflexivity.
  - unfold Path.basename.
    change (rev ((c :: body) ++ suffix ++ [last]))
      with (rev (c :: body ++ (suffix ++ [last]))).
    replace (rev (c :: body ++ (suffix ++ [last])))
      with (rev (suffix ++ [last]) ++ rev (c :: body))
      by (now rewrite <- rev_app_distr).
    rewrite dropSlashes_id by (rewrite Hrev; exact Hlast).
    rewrite untilSlash_app by assumption. simpl fst.
    assert (Hd : Path.dropSlashes (rev body ++ [c]) = rev body ++ [c]).
    { unfold Path.endsWithSlash in Hend. simpl rev in Hend.
      destruct (rev body ++ [c]) as [|d r] eqn:Er; [reflexivity|].
      simpl. now rewrite Hend. }
    rewrite Hd. rewrite rev_app_distr, rev_involutive. reflexivity.
Qed.

Lemma tempPathFor_sibling (filePath : text) (bytes : list ascii) :
  filePath <> [] -> Path.endsWithSlash filePath = false ->
  Path.dirname (tempPathFor filePath bytes) = Path.dirname filePath /\
  Path.basename (tempPathFor filePath bytes) =
    Path.basename filePath ++ "." ++ JS.toHex bytes ++ ".tmp".
Proof.
  intros Hp Hend. unfold tempPathFor.
  change (".tmp" : text) with ((".tm" : text) ++ ["p"%char]).
  rewrite !(app_assoc _ _ ["p"%char]), <- !app_assoc.
  replace ("." ++ JS.toHex bytes ++ ".tm" ++ ["p"%char])
    with (("." ++ JS.toHex bytes ++ ".tm") ++ ["p"%char])
    by (now rewrite <- !app_assoc).
  apply slashless_suffix_is_sibling; try assumption.
  rewrite <- !app_assoc. intro H.
  apply in_app_or in H as [H|H];
    [simpl in H; destruct H as [H|[]]; discriminate|].
  apply in_app_or in H as [H|H]; [now apply toHex_no_slash in H|].
  simpl in H. repeat (destruct H as [H|H]; [discriminate|]). exact H.
Qed.

Section Replace.
Context {W : Type} {FS : FileSystem W} {L : Type}.
Variables (s : state W L) (filePath data : text).

Let tempPath := tempPathFor filePath (drawBytes s 16).
Let toTemp := CallWriteFile tempPath data FlagW.

Lemma writeViaRename_succeeds (w2 w3 : W) :
  fs_writeFile (world s) tempPath data FlagW = (w2, inr tt) ->
  fs_rename w2 tempPath filePath = (w3, inr tt) ->
  exists s',
    writeViaRename filePath data s = (Ok tt, s') /\ world s' = w3 /\
    trace s' = trace s ++ [toTemp; CallRename tempPath filePath].
Proof.
  intros Hw Hr. unfold writeViaRename. unfold_monad. unfold_calls. simpl.
  fold tempPath. rewrite Hw. simpl. rewrite Hr. simpl.
  eexists. split; [reflexivity|]. split; [reflexivity|].
  simpl. now rewrite <- app_assoc.
Qed.

Lemma writeViaRename_write_fails (w2 w3 : W) (error1 : error) (r : result unit) :
  fs_writeFile (world s) tempPath data FlagW = (w2, inl error1) ->
  fs_unlink w2 tempPath = (w3, r) ->
  exists s',
    writeViaRename filePath data s = (Throw error1, s') /\ world s' = w3 /\
    trace s' = trace s ++ [toTemp; CallUnlink tempPath].
Proof.
  intros Hw Hu. unfold writeViaRename. unfold_monad. unfold_calls. simpl.
  fold tempPath. rewrite Hw. simpl. rewrite Hu.
  destruct r as [e|[]]; simpl; eexists;
    (split; [reflexivity|]); (split; [reflexivity|]);
    simpl; now rewrite <- app_assoc.
Qed.

Lemma writeViaRename_rename_fails (w2 w3 w4 : W) (error1 : error) (r : result unit) :
  fs_writeFile (world s) tempPath data FlagW = (w2, inr tt) ->
  fs_rename w2 tempPath filePath = (w3, inl error1) ->
  fs_unlink w3 tempPath = (w4, r) ->
  exists s',
    writeViaRename filePath data s = (Throw error1, s') /\ world s' = w4 /\
    trace s' = trace s ++ [toTemp; CallRename tempPath filePath; CallUnlink tempPath].
Proof.
  intros Hw Hr Hu. unfold writeViaRename. unfold_monad. unfold_calls. simpl.
  fold tempPath. rewrite Hw. simpl. rewrite Hr. simpl. rewrite Hu.
  destruct r as [e|[]]; simpl; eexists;
    (split; [reflexivity|]); (split; [reflexivity|]);
    simpl; now rewrite <- !app_assoc.
Qed.

End Replace.

(** C5: when the exclusive create of [write_file] finds the target
    present, the content goes to a temporary file named after the target
    with a random suffix, in the target's directory, and the temporary file
    is renamed onto the target; the target itself is never opened for
    writing.  When the write to the temporary file or the rename fails, the
    temporary file is unlinked, whatever that unlink returns, and the first
    error is thrown. *)
Theorem write_file_replaces_by_rename {W} {FS : FileSystem W} {L}
    (s s1 : state W L) (a : WriteFileArgs) (validPath : text) (w1 : W) (error0 : error) :
  validatePath (wf_path a) s = (Ok validPath, s1) ->
  fs_writeFile (world s1) validPath (wf_content a) FlagWX = (w1, inl error0) ->
  code error0 = Some EEXIST ->
  let tempPath := tempPathFor validPath (drawBytes s1 16) in
  let exclusive := CallWriteFile validPath (wf_content a) FlagWX in
  let toTemp := CallWriteFile tempPath (wf_content a) FlagW in
  (validPath <> [] -> Path.endsWithSlash validPath = false ->
     Path.dirname tempPath = Path.dirname validPath /\
     Path.basename tempPath =
       Path.basename validPath ++ "." ++
       JS.toHex (drawBytes s1 16) ++ ".tmp") /\
  (forall w2 w3,
      fs_writeFile w1 tempPath (wf_content a) FlagW = (w2, inr tt) ->
      fs_rename w2 tempPath validPath = (w3, inr tt) ->
      exists s',
        handle_write_file a s = (Ok ("Successfully wrote to " ++ wf_path a), s') /\
        world s' = w3 /\
        trace s' = trace s1 ++ [exclusive; toTemp; CallRename tempPath validPath]) /\
  (forall w2 w3 error1 r,
      fs_writeFile w1 tempPath (wf_content a) FlagW = (w2, inl error1) ->
      fs_unlink w2 tempPath = (w3, r) ->
      exists s',
        handle_write_file a s = (Throw error1, s') /\ world s' = w3 /\
        trace s' = trace s1 ++ [exclusive; toTemp; CallUnlink tempPath]) /\
  (forall w2 w3 w4 error1 r,
      fs_writeFile w1 tempPath (wf_content a) FlagW = (w2, inr tt) ->
      fs_rename w2 tempPath validPath = (w3, inl error1) ->
      fs_unlink w3 tempPath = (w4, r) ->
      exists s',
        handle_write_file a s = (Throw error1, s') /\ world s' = w4 /\
        trace s' = trace s1 ++
                   [exclusive; toTemp; CallRename tempPath validPath; CallUnlink tempPath]).
Proof.
  intros Hv Hx Hcode tempPath exclusive toTemp.
  apply hasCode_iff in Hcode.
  set (s2 := setWorld w1 (record exclusive s1)).
  assert (Hstart : forall r s',
             writeViaRename validPath (wf_content a) s2 = (r, s') ->
             handle_write_file a s =
             (match r with
              | Ok _ => Ok ("Successfully wrote to " ++ wf_path a)
              | Throw e => Throw e
              | OutOfFuel => OutOfFuel
              end, s')).
  { intros r s' Hrun. unfold handle_write_file.
    unfold bind at 1. rewrite Hv. unfold bind at 1.
    unfold try_catch at 1. unfold writeFile at 1, writing. rewrite Hx. simpl.
    rewrite Hcode. fold exclusive. fold s2. rewrite Hrun. now destruct r. }
  split; [intros; now apply tempPathFor_sibling|].
  split; [|split].
  - intros w2 w3 Hw Hr.
    destruct (writeViaRename_succeeds s2 validPath (wf_content a) w2 w3 Hw Hr)
      as (s' & Hrun & Hworld & Htrace).
    exists s'. split; [now rewrite (Hstart _ _ Hrun)|]. split; [exact Hworld|].
    rewrite Htrace. simpl. now rewrite <- app_assoc.
  - intros w2 w3 error1 r Hw Hu.
    destruct (writeViaRename_write_fails s2 validPath (wf_content a) w2 w3 error1 r Hw Hu)
      as (s' & Hrun & Hworld & Htrace).
    exists s'. split; [now rewrite (Hstart _ _ Hrun)|]. split; [exact Hworld|].
    rewrite Htrace. simpl. now rewrite <- app_assoc.
  - intros w2 w3 w4 error1 r Hw Hr Hu.
    destruct (writeViaRename_rename_fails s2 validPath (wf_content a) w2 w3 w4 error1 r
                Hw Hr Hu) as (s' & Hrun & Hworld & Htrace).
    exists s'. split; [now rewrite (Hstart _ _ Hrun)|]. split; [exact Hworld|].
    rewrite Htrace. simpl. now rewrite <- app_assoc.
Qed.

(** In the scenario world [/ws/a.txt] exists: the write goes through a
    temporary file next to it and one rename. *)
Lemma write_file_replaces_by_rename_witness :
  let a := {| wf_path := "/ws/a.txt"; wf_content := "new" |} in
  let tempPath := tempPathFor "/ws/a.txt" (drawBytes Scenario.initial 16) in
  exists s',
    handle_write_file a Scenario.initial = (Ok ("Successfully wrote to /ws/a.txt" : text), s') /\
    MemFS.readFile (world s') "/ws/a.txt" = inr ("new" : text) /\
    trace s' = [CallRealpath "/ws/a.txt";
                CallWriteFile "/ws/a.txt" "new" FlagWX;
                CallWriteFile tempPath "new" FlagW;
                CallRename tempPath "/ws/a.txt"].
Proof.
  intros a tempPath.
  pose (s1 := extend [CallRealpath "/ws/a.txt"] Scenario.initial).
  pose (w2 := fst (MemFS.writeFile Scenario.tree tempPath "new" FlagW)).
  pose (w3 := fst (MemFS.rename w2 tempPath "/ws/a.txt")).
  assert (Hv : validatePath (wf_path a) Scenario.initial = (Ok ("/ws/a.txt" : text), s1))
    by (vm_compute; reflexivity).
  assert (Hx : fs_writeFile (world s1) "/ws/a.txt" (wf_content a) FlagWX =
               (Scenario.tree, inl (MemFS.sysError EEXIST "open" "/ws/a.txt")))
    by (vm_compute; reflexivity).
  destruct (write_file_replaces_by_rename Scenario.initial s1 a "/ws/a.txt"
              Scenario.tree _ Hv Hx eq_refl) as (_ & Hok & _).
  destruct (Hok w2 w3) as (s' & Hrun & Hworld & Htrace);
    [vm_compute; reflexivity | vm_compute; reflexivity |].
  exists s'. split; [exact Hrun|]. split.
  - rewrite Hworld. vm_compute. reflexivity.
  - rewrite Htrace. reflexivity.
Defined.

(** ** Applying edits *)

Lemma applyEdits_stops_at_first_failure (content c : text)
    (pre post : list EditOperation) (ek : EditOperation) :
  applyEdits content pre = inr c -> applyEdit c ek = None ->
  applyEdits content (pre ++ ek :: post) = inl ek.
Proof.
  revert content; induction pre as [|e pre IH]; intros content Hpre Hk; simpl in *.
  - injection Hpre as ->. now rewrite Hk.
  - destruct (applyEdit content e) as [content'|]; [|discriminate].
    now apply IH.
Qed.

Lemma applyEdits_failure_inv (content : text) (edits : list EditOperation)
    (ek : EditOperation) :
  applyEdits content edits = inl ek ->
  exists pre post c,
    edits = pre ++ ek :: post /\ applyEdits content pre = inr c /\ applyEdit c ek = None.
Proof.
  revert content; induction edits as [|e edits IH]; intros content H; simpl in H;
    [discriminate|].
  destruct (applyEdit content e) as [content'|] eqn:E.
  - destruct (IH _ H) as (pre & post & c & -> & Hpre & Hk).
    exists (e :: pre), post, c. simpl. rewrite E. auto.
  - injection H as <-. exists [], edits, content. auto.
Qed.

(** C2: once the file has been read, [applyFileEdits] is all or nothing.
    If some edit matches the content produced by the edits before it
    neither exactly nor line by line, the call throws an error that carries
    that edit's search text, and the only file-system call made is the
    read: the world is the one before the call, whatever [dryRun] is.  A
    dry run leaves the world unchanged as well.  Only when every edit
    applies and [dryRun] is false is anything written, and what is written
    (to the temporary file that is then renamed onto the file) is the
    content after the last edit. *)
Theorem applyFileEdits_all_or_nothing {W} {FS : FileSystem W} {PK : Packages} {L}
    (s : state W L) (filePath raw : text) (edits : list EditOperation) (dryRun : bool) :
  fs_readFile (world s) filePath = inr raw ->
  let content := normalizeLineEndings raw in
  let afterRead := record (CallReadFile filePath) s in
  let tempPath := tempPathFor filePath (drawBytes s 16) in
  (forall pre ek post c,
      edits = pre ++ ek :: post ->
      applyEdits content pre = inr c ->
      applyEdit c ek = None ->
      applyFileEdits filePath edits dryRun s =
        (Throw (Error ("Could not find exact match for edit:" ++ nl ++ oldText ek)),
         afterRead) /\
      world afterRead = world s) /\
  (forall final,
      applyEdits content edits = inr final -> dryRun = true ->
      applyFileEdits filePath edits dryRun s =
        (Ok (formatDiff (createUnifiedDiff content final filePath)), afterRead)) /\
  (forall final w2 w3,
      applyEdits content edits = inr final -> dryRun = false ->
      fs_writeFile (world s) tempPath final FlagW = (w2, inr tt) ->
      fs_rename w2 tempPath filePath = (w3, inr tt) ->
      exists s',
        applyFileEdits filePath edits dryRun s =
          (Ok (formatDiff (createUnifiedDiff content final filePath)), s') /\
        world s' = w3 /\
        trace s' = trace s ++ [CallReadFile filePath;
                               CallWriteFile tempPath final FlagW;
                               CallRename tempPath filePath]) /\
  (forall r s',
      applyFileEdits filePath edits dryRun s = (r, s') ->
      world s' <> world s ->
      dryRun = false /\ exists final, applyEdits content edits = inr final).
Proof.
  intros Hread content afterRead tempPath.
  assert (Hstart : applyFileEdits filePath edits dryRun s =
            match applyEdits content edits with
            | inl edit =>
                (Throw (Error ("Could not find exact match for edit:" ++ nl ++ oldText edit)),
                 afterRead)
            | inr final =>
                ((if dryRun then ret tt else writeViaRename filePath final) ;;;
                 ret (formatDiff (createUnifiedDiff content final filePath))) afterRead
            end).
  { unfold applyFileEdits. unfold bind at 1. unfold readFile, reading.
    rewrite Hread. simpl. fold content. fold afterRead.
    destruct (applyEdits content edits); reflexivity. }
  split; [|split; [|split]].
  - intros pre ek post c -> Hpre Hk. split; [|reflexivity].
    now rewrite Hstart, (applyEdits_stops_at_first_failure content c pre post ek Hpre Hk).
  - intros final Hfinal ->. now rewrite Hstart, Hfinal.
  - intros final w2 w3 Hfinal -> Hw Hr.
    destruct (writeViaRename_succeeds afterRead filePath final w2 w3 Hw Hr)
      as (s' & Hrun & Hworld & Htrace).
    exists s'. split; [|split; [exact Hworld|]].
    + rewrite Hstart, Hfinal. unfold bind. now rewrite Hrun.
    + rewrite Htrace. simpl. now rewrite <- app_assoc.
  - intros r s' Hrun Hworld. rewrite Hstart in Hrun.
    destruct (applyEdits content edits) as [edit|final].
    + injection Hrun as _ <-. now contradiction Hworld.
    + destruct dryRun.
      * injection Hrun as _ <-. now contradiction Hworld.
      * split; [reflexivity | now exists final].
Qed.

(** In the scenario world: the second edit does not match after the first
    one has, and [/ws/a.txt] is left as it was although [dryRun] is false. *)
Lemma applyFileEdits_all_or_nothing_witness :
  let edits := [{| oldText := "foo"; newText := "baz" |};
                {| oldText := "zzz"; newText := "baz" |}] in
  let r := applyFileEdits "/ws/a.txt" edits false Scenario.initial in
  fst r = Throw (Error ("Could not find exact match for edit:" ++ nl ++ "zzz")) /\
  world (snd r) = Scenario.tree.
Proof.
  intros edits r.
  assert (Hread : fs_readFile (world Scenario.initial) "/ws/a.txt" =
                  inr ("foo" ++ nl ++ "bar" ++ nl)) by (vm_compute; reflexivity).
  destruct (applyFileEdits_all_or_nothing (PK := Demo.packages) Scenario.initial
              "/ws/a.txt" ("foo" ++ nl ++ "bar" ++ nl) edits false Hread)
    as (Hfail & _).
  destruct (Hfail [{| oldText := "foo"; newText := "baz" |}]
                  {| oldText := "zzz"; newText := "baz" |} []
                  ("baz" ++ nl ++ "bar" ++ nl)) as [Hrun Hworld];
    [reflexivity | vm_compute; reflexivity | vm_compute; reflexivity |].
  unfold r. rewrite Hrun. split; reflexivity.
Defined.

(** ** Renaming in the in-memory file system *)

Lemma eqb_refl (a : text) : JS.eqb a a = true.
Proof. now apply eqb_eq. Qed.

Lemma eqb_neq (a b : text) : JS.eqb a b = false <-> a <> b.
Proof.
  destruct (JS.eqb a b) eqn:E; split; intro H; try discriminate; try reflexivity.
  - apply eqb_eq in E. contradiction.
  - intro Hab. apply eqb_eq in Hab. congruence.
Qed.








Lemma isPrefix_both (p q : list text) :
  MemFS.isPrefix p q = true -> MemFS.isPrefix q p = true -> p = q.
Proof.
  revert q; induction p as [|x p IH]; intros [|y q]; simpl; try discriminate;
    [reflexivity|].
  intros H1 H2. apply andb_true_iff in H1 as [E H1]. apply andb_true_iff in H2 as [_ H2].
  apply eqb_eq in E. subst. f_equal. now apply IH.
Qed.






(** ** Moving *)





(** ** The allow-list *)

(** (X27) [validatePath] never consults [allowedDirectories]: its result
    and its calls are the same under every allow-list. *)
Lemma validatePath_ignores_allowedDirectories {W} {FS : FileSystem W} {L}
    (s : state W L) (dirs : list text) (requestedPath : text) :
  validatePath requestedPath (setAllowedDirectories dirs s) =
  (fst (validatePath requestedPath s),
   setAllowedDirectories dirs (snd (validatePath requestedPath s))).
Proof. rewrite !validatePath_run. reflexivity. Qed.

(** C1 is not met by the code.  With [/ws] as the only allowed directory
    and [/ws/link] a symbolic link to [/etc], reading [/ws/link/passwd]
    resolves to [/etc/passwd], which is neither [/ws] nor below it, and the
    file's content is returned; so is it for the plain path
    [/etc/passwd]. *)
Theorem path_outside_allowed_roots_is_served :
  let a := {| rf_path := "/ws/link/passwd"; rf_tail := None; rf_head := None |} in
  let b := {| rf_path := "/etc/passwd"; rf_tail := None; rf_head := None |} in
  allowedDirectories Scenario.initial = ["/ws" : text] /\
  validatePath "/ws/link/passwd" Scenario.initial =
    (Ok ("/etc/passwd" : text), extend [CallRealpath "/ws/link/passwd"] Scenario.initial) /\
  JS.startsWith "/etc/passwd" "/ws" = false /\
  callTool (read_file a) Scenario.initial =
    (Ok {| content := "root:x:0:0"; isError := false |},
     extend [CallRealpath "/ws/link/passwd"; CallReadFile "/etc/passwd"] Scenario.initial) /\
  callTool (read_file b) Scenario.initial =
    (Ok {| content := "root:x:0:0"; isError := false |},
     extend [CallRealpath "/etc/passwd"; CallReadFile "/etc/passwd"] Scenario.initial).
Proof. vm_compute. repeat split. Qed.

(** ** Head and tail *)


Lemma split_nonempty (sep : ascii) (s : text) : JS.split sep s <> [].
Proof.
  destruct s as [|c s]; simpl; [discriminate|].
  destruct (Ascii.eqb c sep); [discriminate|].
  destruct (JS.split sep s); discriminate.
Qed.

Lemma split_app (sep : ascii) (a b : text) (init : list text) (lst x : text)
    (rest : list text) :
  JS.split sep a = init ++ [lst] -> JS.split sep b = x :: rest ->
  JS.split sep (a ++ b) = init ++ (lst ++ x) :: rest.
Proof.
  revert init lst; induction a as [|c a IH]; intros init lst Ha Hb; simpl in *.
  - destruct init as [|i init]; [|destruct init; discriminate].
    injection Ha as <-. exact Hb.
  - destruct (Ascii.eqb c sep).
    + destruct init as [|i init].
      * injection Ha as _ Hs. now apply split_nonempty in Hs.
      * injection Ha as <- Hs. simpl. f_equal. now apply IH.
    + destruct (JS.split sep a) as [|l0 ls0] eqn:Es; [now apply split_nonempty in Es|].
      destruct init as [|i init].
      * injection Ha as <- ->. rewrite (IH [] l0 eq_refl Hb). reflexivity.
      * injection Ha as <- ->. rewrite (IH (l0 :: init) lst eq_refl Hb). reflexivity.
Qed.

Lemma split_without_separator (sep : ascii) (s : text) :
  ~ In sep s -> JS.split sep s = [s].
Proof.
  induction s as [|c s IH]; simpl; intro H; [reflexivity|].
  destruct (Ascii.eqb c sep) eqn:E.
  - apply Ascii.eqb_eq in E. subst. tauto.
  - rewrite IH by tauto. reflexivity.
Qed.

Lemma split_segment_without_separator (sep : ascii) (s l : text) :
  In l (JS.split sep s) -> ~ In sep l.
Proof.
  revert l; induction s as [|c s IH]; simpl; intros l H.
  - destruct H as [<-|[]]. tauto.
  - destruct (Ascii.eqb c sep) eqn:E.
    + destruct H as [<-|H]; [tauto | now apply IH].
    + destruct (JS.split sep s) as [|l0 ls0] eqn:Es; [now apply split_nonempty in Es|].
      destruct H as [<-|H].
      * intros [->|H]; [now rewrite Ascii.eqb_refl in E|].
        revert H. apply IH. now left.
      * apply IH. now right.
Qed.

Lemma split_segment_subset (sep : ascii) (s l : text) (c : ascii) :
  In l (JS.split sep s) -> In c l -> In c s.
Proof.
  revert l; induction s as [|d s IH]; simpl; intros l H Hc.
  - destruct H as [<-|[]]. exact Hc.
  - destruct (Ascii.eqb d sep) eqn:E.
    + destruct H as [<-|H]; [destruct Hc | right; eapply IH; eassumption].
    + destruct (JS.split sep s) as [|l0 ls0] eqn:Es; [now apply split_nonempty in Es|].
      destruct H as [<-|H].
      * destruct Hc as [->|Hc]; [now left | right; apply (IH l0); [now left | exact Hc]].
      * right. apply (IH l); [now right | exact Hc].
Qed.

Lemma normalizeLineEndings_without_CR (t : text) :
  ~ In JS.CR t -> normalizeLineEndings t = t.
Proof.
  induction t as [|c t IH]; intro H; [reflexivity|].
  assert (Hc : Ascii.eqb c JS.CR = false).
  { destruct (Ascii.eqb c JS.CR) eqn:E; [|reflexivity].
    apply Ascii.eqb_eq in E. subst. exfalso. apply H. now left. }
  assert (Ht : normalizeLineEndings t = t) by (apply IH; intro; apply H; now right).
  destruct t as [|d t]; [reflexivity|].
  change (normalizeLineEndings (c :: d :: t))
    with (if Ascii.eqb c JS.CR && Ascii.eqb d JS.LF
          then JS.LF :: normalizeLineEndings t
          else c :: normalizeLineEndings (d :: t)).
  rewrite Hc, Ht. reflexivity.
Qed.

Lemma length_lastn {A} (k : nat) (l : list A) : length (lastn k l) = Nat.min k (length l).
Proof. unfold lastn. rewrite length_skipn. lia. Qed.

Lemma lastn_all {A} (k : nat) (l : list A) : length l <= k -> lastn k l = l.
Proof. intro H. unfold lastn. replace (length l - k) with 0 by lia. reflexivity. Qed.

Lemma lastn_app_short {A} (k : nat) (a l : list A) :
  length l <= k -> lastn k (a ++ l) = lastn (k - length l) a ++ l.
Proof.
  intro H. unfold lastn. rewrite length_app, skipn_app.
  replace (length a + length l - k) with (length a - (k - length l)) by lia.
  replace (length a - (k - length l) - length a) with 0 by lia. reflexivity.
Qed.

Lemma lastn_app_long {A} (k : nat) (a l : list A) :
  k <= length l -> lastn k (a ++ l) = lastn k l.
Proof.
  intro H. unfold lastn. rewrite length_app, skipn_app.
  rewrite skipn_all2 by lia. simpl. f_equal. lia.
Qed.

Lemma ltb_of_nat (a : nat) (n : Z) :
  (Z.of_nat a <? n)%Z = (a <? Z.to_nat n).
Proof.
  destruct (Z.ltb_spec (Z.of_nat a) n), (Nat.ltb_spec a (Z.to_nat n)); try reflexivity; lia.
Qed.

Lemma unshiftLines_spec (backwards lines : list text) (numLines : Z) (linesFound : nat) :
  unshiftLines backwards numLines lines linesFound =
  (rev (firstn (Z.to_nat numLines - linesFound) backwards) ++ lines,
   linesFound + Nat.min (Z.to_nat numLines - linesFound) (length backwards)).
Proof.
  revert lines linesFound; induction backwards as [|l rest IH]; intros lines linesFound; simpl.
  - rewrite firstn_nil. simpl. f_equal. lia.
  - rewrite ltb_of_nat. destruct (Nat.ltb_spec linesFound (Z.to_nat numLines)).
    + rewrite IH.
      replace (Z.to_nat numLines - linesFound) with (S (Z.to_nat numLines - S linesFound)) by lia.
      simpl. rewrite <- app_assoc. simpl. f_equal. lia.
    + replace (Z.to_nat numLines - linesFound) with 0 by lia. simpl. f_equal. lia.
Qed.

Lemma unshiftLines_lastn (chunkLines lines : list text) (numLines : Z) (linesFound : nat) :
  unshiftLines (rev chunkLines) numLines lines linesFound =
  (lastn (Z.to_nat numLines - linesFound) chunkLines ++ lines,
   linesFound + Nat.min (Z.to_nat numLines - linesFound) (length chunkLines)).
Proof.
  rewrite unshiftLines_spec. rewrite firstn_rev, rev_involutive, length_rev. reflexivity.
Qed.

Lemma readAt_splits (content : text) (position size : nat) :
  position + size <= length content ->
  skipn position content = readAt content position size ++ skipn (position + size) content /\
  length (readAt content position size) = size.
Proof.
  intro H. unfold readAt. split.
  - rewrite <- (firstn_skipn size (skipn position content)) at 1.
    f_equal. rewrite skipn_skipn. f_equal. lia.
  - rewrite length_firstn, length_skipn. lia.
Qed.

Section Tail.
Variables (content : text) (numLines : Z).
Hypothesis content_without_CR : ~ In JS.CR content.

Let k := Z.to_nat numLines.

(** While the start of the file is not reached: [remainingText] is the
    first segment of what has been read, possibly incomplete, and [lines]
    are the last [k] of the segments after it. *)
Lemma tailLoop_spec (fuel : nat) :
  forall (position : nat) (remainingText : text) (after lines : list text),
    0 < position -> position <= length content -> position <= fuel ->
    JS.split JS.LF (skipn position content) = remainingText :: after ->
    lines = lastn k after ->
    tailLoop fuel content numLines position lines (length lines) remainingText =
    Some (lastn k (segmentsOf content)).
Proof.
  induction fuel as [|fuel IH]; intros position x after lines Hpos Hle Hfuel Hsplit Hlines;
    [lia|].
  assert (Hx : ~ In JS.LF x).
  { apply (split_segment_without_separator JS.LF (skipn position content)).
    rewrite Hsplit. now left. }
  assert (HxCR : ~ In JS.CR x).
  { intro H. apply content_without_CR.
    assert (In JS.CR (skipn position content))
      by (apply (split_segment_subset JS.LF _ x); [rewrite Hsplit; now left | exact H]).
    rewrite <- (firstn_skipn position content). apply in_or_app. now right. }
  assert (Hlen : length lines = Nat.min k (length after))
    by (rewrite Hlines; apply length_lastn).
  cbn [tailLoop].
  replace (0 <? position) with true by (symmetry; now apply Nat.ltb_lt).
  rewrite ltb_of_nat. fold k. cbn [andb].
  destruct (Nat.ltb_spec (length lines) k) as [Hmore|Hdone].
  - (* one more chunk is read *)
    set (size := Nat.min CHUNK_SIZE position).
    set (position' := position - size).
    assert (Hsize : 0 < size <= position) by (unfold size, CHUNK_SIZE; lia).
    destruct (readAt_splits content position' size) as [Hread Hrlen];
      [unfold position'; lia|].
    replace (position' + size) with position in Hread by (unfold position'; lia).
    set (readData := readAt content position' size) in *.
    replace (length readData =? 0) with false
      by (symmetry; apply Nat.eqb_neq; lia).
    assert (HrCR : ~ In JS.CR (readData ++ x)).
    { intro H. apply in_app_or in H as [H|H]; [|now apply HxCR].
      apply content_without_CR.
      rewrite <- (firstn_skipn position' content), Hread.
      apply in_or_app. right. apply in_or_app. now left. }
    rewrite (normalizeLineEndings_without_CR _ HrCR).
    destruct (exists_last (split_nonempty JS.LF readData)) as (init & lst & Hinit).
    assert (Hchunk : JS.split JS.LF (readData ++ x) = init ++ [lst ++ x])
      by (apply (split_app JS.LF readData x init lst x [] Hinit);
          now apply split_without_separator).
    assert (Hwhole : JS.split JS.LF (skipn position' content) =
                     JS.split JS.LF (readData ++ x) ++ after).
    { rewrite Hread, Hchunk, <- app_assoc. simpl.
      now apply split_app. }
    assert (Hafter : lines = after).
    { rewrite Hlines. apply lastn_all. lia. }
    rewrite Hchunk in *.
    destruct (Nat.ltb_spec 0 position') as [Hearlier|Hstart].
    + (* the start of the file is not reached yet *)
      destruct (init ++ [lst ++ x]) as [|x' chunkLines'] eqn:Ec;
        [now destruct init|].
      cbn [hd tl]. rewrite unshiftLines_lastn. fold k.
      set (lines' := lastn (k - length lines) chunkLines' ++ lines).
      assert (Hlines' : lines' = lastn k (chunkLines' ++ after)).
      { unfold lines'. rewrite Hafter. symmetry. apply lastn_app_short. lia. }
      replace (length lines + Nat.min (k - length lines) (length chunkLines'))
        with (length lines').
      2:{ unfold lines'. rewrite length_app, length_lastn. lia. }
      apply (IH position' x' (chunkLines' ++ after) lines'); try lia; try assumption.
    + (* this chunk starts the file *)
      assert (Hzero : position' = 0) by lia.
      rewrite Hzero in Hwhole. cbn [skipn] in Hwhole.
      rewrite unshiftLines_lastn. fold k.
      destruct fuel; cbn [tailLoop];
        replace (0 <? position') with false by (symmetry; apply Nat.ltb_ge; lia);
        cbn [andb]; f_equal; unfold segmentsOf;
        rewrite Hwhole, Hafter; symmetry; apply lastn_app_short; lia.
  - (* enough lines have been found *)
    f_equal. unfold segmentsOf.
    rewrite <- (firstn_skipn position content) at 1.
    destruct (exists_last (split_nonempty JS.LF (firstn position content)))
      as (init & lst & Hinit).
    rewrite (split_app JS.LF _ _ init lst x after Hinit Hsplit).
    change (init ++ (lst ++ x) :: after) with (init ++ [lst ++ x] ++ after).
    rewrite app_assoc. rewrite Hlines. symmetry. apply lastn_app_long. lia.
Qed.

End Tail.

Lemma split_at_separator (sep : ascii) (a b : text) :
  JS.split sep (a ++ sep :: b) = JS.split sep a ++ JS.split sep b.
Proof.
  induction a as [|c a IH]; simpl.
  - now rewrite Ascii.eqb_refl.
  - destruct (Ascii.eqb c sep); [now rewrite IH|].
    rewrite IH. destruct (JS.split sep a) eqn:Ea; [now apply split_nonempty in Ea|].
    reflexivity.
Qed.

Lemma lastIndexOf_None (c : ascii) (s : text) :
  JS.lastIndexOf c s = None -> ~ In c s.
Proof.
  induction s as [|x s IH]; simpl; [tauto|].
  destruct (JS.lastIndexOf c s); [discriminate|].
  destruct (Ascii.eqb x c) eqn:E; [discriminate|].
  intros _ [->|H]; [now rewrite Ascii.eqb_refl in E | now apply IH].
Qed.

Lemma lastIndexOf_Some (c : ascii) (s : text) (i : nat) :
  JS.lastIndexOf c s = Some i ->
  s = firstn i s ++ c :: skipn (S i) s /\ ~ In c (skipn (S i) s).
Proof.
  revert i; induction s as [|x s IH]; simpl; intros i H; [discriminate|].
  destruct (JS.lastIndexOf c s) as [j|] eqn:E.
  - injection H as <-. destruct (IH j eq_refl) as [Hs Hn].
    split; [simpl; f_equal; exact Hs | exact Hn].
  - destruct (Ascii.eqb x c) eqn:Ex; [|discriminate].
    injection H as <-. apply Ascii.eqb_eq in Ex. subst x.
    split; [reflexivity | now apply lastIndexOf_None].
Qed.

Lemma firstn_app_long {A} (k : nat) (a b : list A) :
  k <= length a -> firstn k (a ++ b) = firstn k a.
Proof.
  intro H. rewrite firstn_app. replace (k - length a) with 0 by lia.
  simpl. apply app_nil_r.
Qed.

Lemma pushLines_spec (completeLines lines : list text) (numLines : Z) :
  length lines < Z.to_nat numLines ->
  pushLines completeLines numLines lines = firstn (Z.to_nat numLines) (lines ++ completeLines).
Proof.
  revert lines; induction completeLines as [|l rest IH]; intros lines H; simpl.
  - rewrite app_nil_r. symmetry. apply firstn_all2. lia.
  - destruct (Z.leb_spec numLines (Z.of_nat (length (lines ++ [l])))) as [Hfull|Hmore];
      rewrite length_app in *; simpl in *.
    + change (lines ++ l :: rest) with (lines ++ [l] ++ rest). rewrite app_assoc.
      rewrite firstn_app_long by (rewrite length_app; simpl; lia).
      symmetry. apply firstn_all2. rewrite length_app. simpl. lia.
    + rewrite IH by (rewrite length_app; simpl; lia).
      now rewrite <- app_assoc.
Qed.

Lemma linesOf_extends (complete : list text) (y : text) (rest : list text)
    (content : text) :
  segmentsOf content = complete ++ y :: rest ->
  exists more, linesOf content = complete ++ more /\
               (rest = [] -> more = match y with [] => [] | _ => [y] end).
Proof.
  intro H. unfold linesOf. rewrite H.
  destruct (last (complete ++ y :: rest) []) eqn:El.
  - rewrite removelast_app by discriminate.
    exists (removelast (y :: rest)). split; [reflexivity|].
    intros ->. rewrite last_last in El. now subst.
  - exists (y :: rest). split; [reflexivity|].
    intros ->. rewrite last_last in El. now subst.
Qed.

Lemma firstn_readAt (content : text) (position size : nat) :
  position <= length content ->
  firstn (position + length (readAt content position size)) content =
  firstn position content ++ readAt content position size.
Proof.
  intro H. unfold readAt.
  set (A := firstn position content). set (B := skipn position content).
  assert (Hc : content = A ++ B) by (symmetry; apply firstn_skipn).
  assert (Ha : length A = position) by (unfold A; rewrite length_firstn; lia).
  rewrite Hc at 1. rewrite <- Ha at 1. rewrite firstn_app_2. f_equal.
  rewrite length_firstn.
  destruct (Nat.le_ge_cases size (length B)) as [Hs|Hs].
  - now rewrite Nat.min_l.
  - rewrite Nat.min_r by assumption. rewrite firstn_all. symmetry. now apply firstn_all2.
Qed.

Section Head.
Variables (content : text) (numLines : Z).

Let k := Z.to_nat numLines.

(** The result of [headFile] from what its loop leaves. *)
Let finish (r : list text * text) : list text :=
  if (0 <? length (snd r)) && (Z.of_nat (length (fst r)) <? numLines)%Z
  then fst r ++ [snd r] else fst r.

(** At the head of the loop the part of the file read so far splits into
    complete lines and the buffer, and [lines] are the first [k] of the
    complete lines. *)
Lemma headLoop_spec (fuel : nat) :
  forall (bytesRead : nat) (buffer : text) (complete lines : list text),
    bytesRead <= length content -> length content - bytesRead < fuel ->
    JS.split JS.LF (firstn bytesRead content) = complete ++ [buffer] ->
    lines = firstn k complete ->
    exists r,
      headLoop fuel content numLines lines buffer bytesRead = Some r /\
      finish r = firstn k (linesOf content).
Proof.
  induction fuel as [|fuel IH]; intros bytesRead buffer complete lines Hle Hfuel Hsplit Hlines;
    [lia|].
  assert (Hwhole : forall x rest,
             JS.split JS.LF (skipn bytesRead content) = x :: rest ->
             segmentsOf content = complete ++ (buffer ++ x) :: rest).
  { intros x rest Hx. unfold segmentsOf.
    rewrite <- (firstn_skipn bytesRead content) at 1.
    now apply split_app. }
  cbn [headLoop]. rewrite ltb_of_nat. fold k.
  destruct (Nat.ltb_spec (length lines) k) as [Hmore|Hdone].
  - assert (Hall : lines = complete).
    { rewrite Hlines. apply firstn_all2.
      rewrite Hlines, length_firstn in Hmore. lia. }
    set (chunk := readAt content bytesRead CHUNK_SIZE).
    destruct (Nat.eqb_spec (length chunk) 0) as [Hend|Hdata].
    + (* end of file *)
      exists (lines, buffer). split; [reflexivity|].
      assert (Hb : bytesRead = length content).
      { unfold chunk, readAt in Hend. rewrite length_firstn, length_skipn in Hend.
        unfold CHUNK_SIZE in Hend. lia. }
      assert (Hseg : segmentsOf content = complete ++ [buffer]).
      { unfold segmentsOf. rewrite <- Hsplit, Hb. now rewrite firstn_all. }
      destruct (linesOf_extends complete buffer [] content Hseg) as (more & Hl & Hm).
      rewrite Hl, (Hm eq_refl). unfold finish. cbn [fst snd].
      rewrite ltb_of_nat. fold k.
      replace (length lines <? k) with true by (symmetry; now apply Nat.ltb_lt).
      rewrite Hall in *.
      destruct buffer as [|c buffer]; cbn [length Nat.ltb Nat.leb andb].
      * rewrite app_nil_r. symmetry. apply firstn_all2. lia.
      * symmetry. apply firstn_all2. rewrite length_app. simpl. lia.
    + (* a chunk has been read *)
      assert (Hchunk : firstn (bytesRead + length chunk) content =
                       firstn bytesRead content ++ chunk)
        by (now apply firstn_readAt).
      assert (Hle' : bytesRead + length chunk <= length content).
      { unfold chunk, readAt. rewrite length_firstn, length_skipn. lia. }
      assert (Hbuf : ~ In JS.LF buffer).
      { apply (split_segment_without_separator JS.LF (firstn bytesRead content)).
        rewrite Hsplit. apply in_or_app. right. now left. }
      assert (Hnew : JS.split JS.LF (firstn (bytesRead + length chunk) content) =
                     complete ++ JS.split JS.LF (buffer ++ chunk)).
      { rewrite Hchunk.
        destruct (JS.split JS.LF chunk) as [|x rest] eqn:Ex;
          [now apply split_nonempty in Ex|].
        rewrite (split_app JS.LF _ chunk complete buffer x rest Hsplit Ex).
        rewrite (split_app JS.LF buffer chunk [] buffer x rest
                   (split_without_separator JS.LF buffer Hbuf) Ex).
        reflexivity. }
      destruct (JS.lastIndexOf JS.LF (buffer ++ chunk)) as [newLineIndex|] eqn:Ei.
      * destruct (lastIndexOf_Some _ _ _ Ei) as [Hcut Hpost].
        unfold JS.slice, JS.sliceFrom. rewrite Nat.sub_0_r. cbn [skipn].
        replace (newLineIndex + 1) with (S newLineIndex) by lia.
        set (pre := firstn newLineIndex (buffer ++ chunk)) in *.
        set (post := skipn (S newLineIndex) (buffer ++ chunk)) in *.
        apply (IH _ post (complete ++ JS.split JS.LF pre)); try lia.
        -- rewrite Hnew, Hcut, split_at_separator.
           rewrite (split_without_separator JS.LF post Hpost).
           now rewrite app_assoc.
        -- rewrite pushLines_spec by exact Hmore. now rewrite Hall.
      * apply (IH _ (buffer ++ chunk) complete); try lia; try assumption.
        rewrite Hnew.
        now rewrite (split_without_separator JS.LF _ (lastIndexOf_None _ _ Ei)).
  - (* enough lines *)
    exists (lines, buffer). split; [reflexivity|].
    unfold finish. cbn [fst snd]. rewrite ltb_of_nat. fold k.
    replace (length lines <? k) with false by (symmetry; apply Nat.ltb_ge; lia).
    rewrite andb_false_r.
    destruct (JS.split JS.LF (skipn bytesRead content)) as [|x rest] eqn:Ex;
      [now apply split_nonempty in Ex|].
    destruct (linesOf_extends complete _ rest content (Hwhole x rest eq_refl))
      as (more & Hl & _).
    rewrite Hl, Hlines. symmetry. apply firstn_app_long.
    rewrite Hlines, length_firstn in Hdone. lia.
Qed.

End Head.

Lemma segmentsOf_linesOf (content : text) :
  segmentsOf content =
  linesOf content ++ match last (segmentsOf content) [] with [] => [[]] | _ => [] end.
Proof.
  unfold linesOf.
  destruct (exists_last (split_nonempty JS.LF content)) as (init & lst & Hs).
  unfold segmentsOf. rewrite Hs, last_last.
  destruct lst; [|now rewrite app_nil_r].
  now rewrite removelast_last.
Qed.

(** (X25) [tailFile] on a file of ASCII text without carriage returns: the
    last [numLines] segments of its content, joined by newlines, whatever
    the size of the file.  After a final newline the last segment is the
    empty text. *)
Theorem tailFile_returns_last_segments {W} {FS : FileSystem W} {L}
    (s : state W L) (filePath : text) (numLines : Z) (stats : Stats) (content : text) :
  fs_stat (world s) filePath = inr stats -> size stats = length content ->
  fs_open (world s) filePath = inr content ->
  asciiText content ->
  ~ In JS.CR content ->
  fst (tailFile filePath numLines s) =
    Ok (JS.join nl (lastn (Z.to_nat numLines) (segmentsOf content))) /\
  world (snd (tailFile filePath numLines s)) = world s.
Proof.
  intros Hstat Hsize Hopen _ Hcr.
  assert (Hrun : exists s',
             tailFile filePath numLines s =
             (Ok (JS.join nl (lastn (Z.to_nat numLines) (segmentsOf content))), s') /\
             world s' = world s).
  { unfold tailFile, bind, stat, reading. rewrite Hstat. cbn [lift].
    rewrite Hsize. destruct (Nat.eqb_spec (length content) 0) as [Hz|Hnz].
    - apply length_zero_iff_nil in Hz. subst content.
      exists (record (CallStat filePath) s). split; [|reflexivity].
      unfold ret. do 2 f_equal. unfold lastn. simpl. now destruct (Z.to_nat numLines).
    - unfold open, reading. cbn [world record]. rewrite Hopen. cbn [lift].
      unfold try_finally.
      assert (Ht : tailLoop (length content) content numLines (length content) [] 0 [] =
                   Some (lastn (Z.to_nat numLines) (segmentsOf content))).
      { apply (tailLoop_spec content numLines Hcr (length content)
                 (length content) [] [] []); try lia; try reflexivity.
        now rewrite skipn_all. }
      rewrite Ht. eexists. split; reflexivity. }
  destruct Hrun as (s' & -> & Hw). split; [reflexivity | exact Hw].
Qed.

(** (X26) [headFile] on a file of ASCII text: the first [numLines] lines
    of the content, joined by newlines, whatever the size of the file; a
    final newline is not followed by a further, empty line. *)
Theorem headFile_returns_first_lines {W} {FS : FileSystem W} {L}
    (s : state W L) (filePath : text) (numLines : Z) (content : text) :
  fs_open (world s) filePath = inr content ->
  asciiText content ->
  fst (headFile filePath numLines s) =
    Ok (JS.join nl (firstn (Z.to_nat numLines) (linesOf content))) /\
  world (snd (headFile filePath numLines s)) = world s.
Proof.
  intros Hopen _.
  assert (Hrun : exists s',
             headFile filePath numLines s =
             (Ok (JS.join nl (firstn (Z.to_nat numLines) (linesOf content))), s') /\
             world s' = world s).
  { unfold headFile, bind, open, reading. rewrite Hopen. cbn [lift].
    unfold try_finally.
    assert (Hloop := headLoop_spec content numLines (S (length content)) 0 [] [] []
                       (Nat.le_0_l _) ltac:(lia) eq_refl
                       ltac:(now rewrite firstn_nil)).
    destruct Hloop as ([lines buffer] & Hrun & Hfinish).
    rewrite Hrun. cbn [fst snd] in Hfinish. rewrite Hfinish.
    eexists. split; reflexivity. }
  destruct Hrun as (s' & -> & Hw). split; [reflexivity | exact Hw].
Qed.


(** C4 is not met by the code.  The file [/ws/a.txt] holds the two lines
    [foo] and [bar], each ended by a newline.  [headFile] sees two lines:
    asked for two or for three it returns both.  [tailFile] counts the
    empty text after the last newline as a line: asked for one line it
    returns the empty text, and asked for two it returns [bar] and a
    newline, never [foo].  By [tailFile_returns_last_segments] and
    [headFile_returns_first_lines] this is the only difference: the
    chunked reading itself loses nothing. *)
Theorem tail_of_newline_terminated_file :
  let tail n := {| rf_path := "/ws/a.txt"; rf_tail := Some n; rf_head := None |} in
  let head n := {| rf_path := "/ws/a.txt"; rf_tail := None; rf_head := Some n |} in
  MemFS.readFile Scenario.tree "/ws/a.txt" = inr ("foo" ++ nl ++ "bar" ++ nl) /\
  fst (handle_read_file (head 2%Z) Scenario.initial) = Ok ("foo" ++ nl ++ "bar") /\
  fst (handle_read_file (head 3%Z) Scenario.initial) = Ok ("foo" ++ nl ++ "bar") /\
  fst (handle_read_file (tail 1%Z) Scenario.initial) = Ok [] /\
  fst (handle_read_file (tail 2%Z) Scenario.initial) = Ok ("bar" ++ nl) /\
  fst (handle_read_file (tail 3%Z) Scenario.initial) = Ok ("foo" ++ nl ++ "bar" ++ nl).
Proof. vm_compute. repeat split. Qed.

(** ** Searching *)

Lemma validateOutcome_not_OutOfFuel {W} {FS : FileSystem W} (w : W) (e : environment)
    (p : text) : validateOutcome w e p <> OutOfFuel.
Proof.
  unfold validateOutcome. destruct (fs_realpath w _) as [error|]; [|discriminate].
  destruct (hasCode error ENOENT); [|discriminate].
  destruct (fs_realpath w _); discriminate.
Qed.

Section SearchProperties.
Context {W : Type} {FS : FileSystem W} {PK : Packages}.
Variables (w : W) (e : environment).
Variables (rootPath pattern : text) (excludePatterns : list text).

Let kept' := kept w e rootPath excludePatterns.
Let found' := found w e rootPath pattern excludePatterns.
Let shallow' := shallow w e rootPath excludePatterns.

(** What one entry of [currentPath] contributes to the results. *)
Let via (currentPath : text) (entry : Dirent) (p : text) : Prop :=
  kept' currentPath entry /\
  ((nameMatches pattern (name entry) = true /\ p = Path.join currentPath (name entry)) \/
   (isDirectory entry = true /\ found' (Path.join currentPath (name entry)) p)).

Lemma found_iff_via (currentPath p : text) :
  found' currentPath p <-> exists entry, via currentPath entry p.
Proof.
  split.
  - intro H. inversion H; subst.
    + eexists. split; [eassumption|]. left. split; [assumption | reflexivity].
    + eexists. split; [eassumption|]. right. split; assumption.
  - intros (entry & Hk & [[Hn ->]|[Hd Hf]]).
    + now apply found_here.
    + eapply found_below; eassumption.
Qed.

(** The statement proved of [search] by induction on the fuel. *)
Let searchRuns (fuel : nat) : Prop :=
  forall currentPath (s : state W (list text)),
    shallow' fuel currentPath -> world s = w -> env s = e ->
    exists r s',
      search fuel rootPath pattern excludePatterns currentPath s = (r, s') /\
      r = match fs_readdir w currentPath with
          | inr _ => Ok tt
          | inl error => Throw error
          end /\
      world s' = w /\ env s' = e /\
      forall p, In p (locals s') <-> In p (locals s) \/ found' currentPath p.

(** The body of the loop over the entries of [currentPath]. *)
Let body (fuel' : nat) (currentPath : text) (entry : Dirent) : M W (list text) unit :=
  let fullPath := Path.join currentPath (name entry) in
  try_catch
    (_ <- validatePath fullPath ;;
     e <- getEnv ;;
     let relativePath := Path.relative (cwd e) rootPath fullPath in
     let shouldExclude :=
       existsb (fun pattern =>
                  let globPattern :=
                    if JS.includes pattern "*" then pattern
                    else "**/" ++ pattern ++ "/**" in
                  minimatch relativePath globPattern)
               excludePatterns in
     if shouldExclude then ret tt
     else
       (if JS.includes (JS.toLowerCase (name entry)) (JS.toLowerCase pattern)
        then modifyLocals (fun results => results ++ [fullPath])
        else ret tt) ;;;
       (if isDirectory entry
        then search fuel' rootPath pattern excludePatterns fullPath
        else ret tt))
    (fun _ => ret tt).

Lemma body_runs (fuel' : nat) (currentPath : text) (entries : list Dirent)
    (entry : Dirent) (s : state W (list text)) :
  searchRuns fuel' ->
  shallow' (S fuel') currentPath ->
  fs_readdir w currentPath = inr entries -> In entry entries ->
  world s = w -> env s = e ->
  exists s',
    body fuel' currentPath entry s = (Ok tt, s') /\
    world s' = w /\ env s' = e /\
    forall p, In p (locals s') <-> In p (locals s) \/ via currentPath entry p.
Proof.
  intros IH Hshallow Hdir Hin Hw He.
  set (fullPath := Path.join currentPath (name entry)).
  assert (Hkept : validates w e fullPath = true ->
                  shouldExclude e rootPath excludePatterns fullPath = false ->
                  kept' currentPath entry).
  { intros Hv Hx. exists entries. repeat split; assumption. }
  assert (Hnot : (validates w e fullPath = false \/
                  shouldExclude e rootPath excludePatterns fullPath = true) ->
                 forall p, ~ via currentPath entry p).
  { intros Hor p [(entries' & _ & _ & Hv & Hx) _]. fold fullPath in Hv, Hx.
    destruct Hor as [H|H]; congruence. }
  unfold body. fold fullPath. unfold try_catch, bind at 1.
  rewrite validatePath_run, Hw, He.
  set (s1 := extend (validateCalls w e fullPath) s).
  assert (Hw1 : world s1 = w) by exact Hw.
  assert (He1 : env s1 = e) by exact He.
  destruct (validateOutcome w e fullPath) as [validPath|error|] eqn:Ev.
  - assert (Hv : validates w e fullPath = true) by (unfold validates; now rewrite Ev).
    unfold bind at 1, getEnv. rewrite He1.
    change (existsb _ excludePatterns)
      with (shouldExclude e rootPath excludePatterns fullPath).
    destruct (shouldExclude e rootPath excludePatterns fullPath) eqn:Ex.
    + exists s1. repeat split; try assumption; [tauto|].
      intros [H|H]; [exact H | exfalso; eapply Hnot; eauto].
    + specialize (Hkept Hv eq_refl).
      change (JS.includes (JS.toLowerCase (name entry)) (JS.toLowerCase pattern))
        with (nameMatches pattern (name entry)).
      set (s2 := if nameMatches pattern (name entry)
                 then setLocals (locals s1 ++ [fullPath]) s1 else s1).
      assert (Hpush : (if nameMatches pattern (name entry)
                       then modifyLocals (fun results => results ++ [fullPath])
                       else ret tt) s1 = (Ok tt, s2))
        by (unfold s2; destruct (nameMatches pattern (name entry)); reflexivity).
      assert (Hw2 : world s2 = w)
        by (unfold s2; destruct (nameMatches pattern (name entry)); exact Hw1).
      assert (He2 : env s2 = e)
        by (unfold s2; destruct (nameMatches pattern (name entry)); exact He1).
      assert (Hl2 : forall p, In p (locals s2) <->
                      In p (locals s) \/
                      (nameMatches pattern (name entry) = true /\ p = fullPath)).
      { intro p. unfold s2. destruct (nameMatches pattern (name entry)); simpl.
        - rewrite in_app_iff. simpl. split.
          + intros [H|[H|[]]]; [now left | right; now split].
          + intros [H|[_ H]]; [now left | right; now left].
        - split; [now left | intros [H|[H _]]; [exact H | discriminate]]. }
      unfold bind. rewrite Hpush.
      destruct (isDirectory entry) eqn:Ed.
      * assert (Hsh : shallow' fuel' fullPath).
        { inversion Hshallow; subst. now apply H0. }
        destruct (IH fullPath s2 Hsh Hw2 He2) as (r & s' & Hrun & Hr & Hw' & He' & Hl').
        rewrite Hrun.
        exists s'.
        assert (Hres : (match r with
                        | Throw error => ret tt s'
                        | _ => (r, s')
                        end) = (Ok tt, s'))
          by (rewrite Hr; destruct (fs_readdir w fullPath); reflexivity).
        rewrite Hr in *. clear Hr.
        split; [destruct (fs_readdir w fullPath); reflexivity|].
        split; [assumption|]. split; [assumption|].
        intro p. rewrite Hl', Hl2. unfold via. fold fullPath. split.
        -- intros [[H|H]|H]; [now left | right | right]; (split; [assumption|]);
             [left; exact H | right; now split].
        -- intros [H|[_ [H|[_ H]]]]; [left; now left | left; now right | now right].
      * exists s2. split; [reflexivity|]. split; [assumption|]. split; [assumption|].
        intro p. rewrite Hl2. unfold via. fold fullPath. split.
        -- intros [H|H]; [now left | right; split; [assumption | now left]].
        -- intros [H|[_ [H|[H _]]]]; [now left | now right | congruence].
  - exists s1. repeat split; try assumption; [tauto|].
    intros [H|H]; [exact H | exfalso; eapply Hnot; eauto].
    left. unfold validates. now rewrite Ev.
  - now apply validateOutcome_not_OutOfFuel in Ev.
Qed.

Lemma forEach_runs (fuel' : nat) (currentPath : text) (entries : list Dirent) :
  searchRuns fuel' ->
  shallow' (S fuel') currentPath ->
  fs_readdir w currentPath = inr entries ->
  forall (es : list Dirent) (s : state W (list text)),
    incl es entries -> world s = w -> env s = e ->
    exists s',
      forEach es (body fuel' currentPath) s = (Ok tt, s') /\
      world s' = w /\ env s' = e /\
      forall p, In p (locals s') <->
                In p (locals s) \/ exists entry, In entry es /\ via currentPath entry p.
Proof.
  intros IH Hshallow Hdir.
  induction es as [|entry es IHes]; intros s Hincl Hw He.
  - exists s. repeat split; try assumption; [tauto|].
    intros [H|(entry & [] & _)]; exact H.
  - destruct (body_runs fuel' currentPath entries entry s IH Hshallow Hdir
                (Hincl entry (or_introl eq_refl)) Hw He)
      as (s1 & Hrun1 & Hw1 & He1 & Hl1).
    destruct (IHes s1 (fun x Hx => Hincl x (or_intror Hx)) Hw1 He1)
      as (s' & Hrun' & Hw' & He' & Hl').
    exists s'. split; [|split; [assumption|split; [assumption|]]].
    + simpl. unfold bind. rewrite Hrun1. exact Hrun'.
    + intro p. rewrite Hl', Hl1. split.
      * intros [[H|H]|(x & Hx & H)]; [now left | right | right].
        -- exists entry. split; [now left | exact H].
        -- exists x. split; [now right | exact H].
      * intros [H|(x & [<-|Hx] & H)]; [left; now left | left; now right | right].
        exists x. now split.
Qed.

Lemma search_runs (fuel : nat) : searchRuns fuel.
Proof.
  induction fuel as [|fuel' IH]; intros currentPath s Hshallow Hw He.
  - inversion Hshallow.
  - change (search (S fuel') rootPath pattern excludePatterns currentPath)
      with (entries <- readdir currentPath ;; forEach entries (body fuel' currentPath)).
    unfold bind at 1, readdir, reading. rewrite Hw.
    destruct (fs_readdir w currentPath) as [error|entries] eqn:Hdir; simpl.
    + do 2 eexists. split; [reflexivity|]. split; [reflexivity|].
      split; [exact Hw|]. split; [exact He|].
      intro p. simpl. split; [now left|].
      intros [H|H]; [exact H|].
      apply found_iff_via in H as (entry & (entries' & Hd & _) & _). congruence.
    + destruct (forEach_runs fuel' currentPath entries IH Hshallow Hdir entries
                  (record (CallReaddir currentPath) s) (incl_refl _) Hw He)
        as (s' & Hrun & Hw' & He' & Hl').
      exists (Ok tt), s'. split; [exact Hrun|]. split; [reflexivity|].
      split; [assumption|]. split; [assumption|].
      intro p. rewrite Hl'. simpl. rewrite found_iff_via. split.
      * intros [H|(entry & _ & H)]; [now left | right; now exists entry].
      * intros [H|(entry & H)]; [now left | right].
        exists entry. split; [|exact H].
        destruct H as [(entries' & Hd & Hin & _) _]. congruence.
Qed.

End SearchProperties.

Lemma shallowb_sound {W} {FS : FileSystem W} {PK : Packages} (w : W) (e : environment)
    (rootPath : text) (excludePatterns : list text) (n : nat) (currentPath : text) :
  shallowb w e rootPath excludePatterns n currentPath = true ->
  shallow w e rootPath excludePatterns n currentPath.
Proof.
  revert currentPath; induction n as [|n IH]; intros currentPath H; simpl in H;
    [discriminate|].
  constructor. intros entry (entries & Hdir & Hin & Hv & Hx) Hd.
  rewrite Hdir in H. rewrite forallb_forall in H. specialize (H entry Hin).
  simpl in H. rewrite Hd, Hv, Hx in H. simpl in H. now apply IH.
Qed.

(** For any [minimatch]: when the directories below the root nest less deep
    than the fuel and the root can be listed, [searchFiles] returns, leaves the world as
    it is, and its results are exactly the paths [found] from the root: the
    entries whose name contains the pattern without regard to case, that
    validate and whose path relative to the root matches no exclusion glob,
    reached through directories that validate and match no exclusion glob
    themselves, whether or not their own names contain the pattern.  An
    exclusion pattern without [*] is matched as [**/pattern/**], one with
    [*] as it is; with no exclusion pattern nothing is excluded. *)
Theorem searchFiles_returns_found {W} {FS : FileSystem W} {PK : Packages} {L}
    (s : state W L) (fuel : nat) (rootPath pattern : text)
    (excludePatterns : list text) (entries : list Dirent) :
  shallow (world s) (env s) rootPath excludePatterns fuel rootPath ->
  fs_readdir (world s) rootPath = inr entries ->
  (exists results s',
      searchFiles fuel rootPath pattern excludePatterns s = (Ok results, s') /\
      world s' = world s /\
      forall p, In p results <->
                found (world s) (env s) rootPath pattern excludePatterns rootPath p) /\
  (forall g, globPatternOf g = if JS.includes g "*" then g else "**/" ++ g ++ "/**") /\
  (excludePatterns = [] ->
   forall fullPath, shouldExclude (env s) rootPath excludePatterns fullPath = false).
Proof.
  intros Hshallow Hdir.
  split; [|split; [reflexivity | intros -> fullPath; reflexivity]].
  destruct (search_runs (world s) (env s) rootPath pattern excludePatterns fuel rootPath
              (setLocals [] s) Hshallow eq_refl eq_refl)
    as (r & s' & Hrun & Hr & Hw & He & Hl).
  rewrite Hdir in Hr. subst r.
  exists (locals s'), (setLocals (locals s) s').
  split; [|split; [exact Hw|]].
  - unfold searchFiles, bind, scoped. rewrite Hrun. reflexivity.
  - intro p. rewrite Hl. simpl. tauto.
Qed.

(** In the scenario world, a search below [/ws] that excludes
    [node_modules]. *)
Lemma searchFiles_returns_found_witness :
  exists results s',
    searchFiles 4 "/ws" "o" ["node_modules" : text] Scenario.initial = (Ok results, s') /\
    results = ["/ws/sub/node_modules" : text; "/ws/node_modules" : text] /\
    forall p, In p results <->
              found Scenario.tree (env Scenario.initial) "/ws" "o"
                    ["node_modules" : text] "/ws" p.
Proof.
  assert (Hshallow : shallow (world Scenario.initial) (env Scenario.initial) "/ws"
                       ["node_modules" : text] 4 "/ws")
    by (apply shallowb_sound; vm_compute; reflexivity).
  assert (Hdir : fs_readdir (world Scenario.initial) "/ws" =
                 MemFS.readdir Scenario.tree "/ws") by reflexivity.
  destruct (MemFS.readdir Scenario.tree "/ws") as [error|entries] eqn:E;
    [vm_compute in E; discriminate|].
  destruct (searchFiles_returns_found (PK := Demo.packages) Scenario.initial 4 "/ws" "o"
              ["node_modules" : text] entries Hshallow Hdir)
    as ((results & s' & Hrun & _ & Hfound) & _).
  exists results, s'. split; [exact Hrun|]. split; [|exact Hfound].
  assert (Hc : fst (searchFiles 4 "/ws" "o" ["node_modules" : text] Scenario.initial) =
               Ok ["/ws/sub/node_modules" : text; "/ws/node_modules" : text])
    by (vm_compute; reflexivity).
  rewrite Hrun in Hc. simpl in Hc. now injection Hc.
Defined.

(* ================================================================== *)
(** * Part III: further properties of the code *)
(* ================================================================== *)

(** ** Exact and whitespace-tolerant edits, further properties *)

Lemma list_ind2 {A} (P : list A -> Prop) :
  P [] -> (forall a, P [a]) ->
  (forall a b l, P l -> P (b :: l) -> P (a :: b :: l)) ->
  forall l, P l.
Proof.
  intros H0 H1 H2 l.
  assert (H : P l /\ forall a, P (a :: l)).
  { induction l as [|b l [IHl IHbl]].
    - split; [exact H0 | exact H1].
    - split; [apply IHbl|]. intro a. apply H2; [exact IHl | apply IHbl]. }
  apply H.
Qed.

Lemma normalizeLineEndings_step (c d : ascii) (t : text) :
  normalizeLineEndings (c :: d :: t) =
  if Ascii.eqb c JS.CR && Ascii.eqb d JS.LF
  then JS.LF :: normalizeLineEndings t
  else c :: normalizeLineEndings (d :: t).
Proof. reflexivity. Qed.

Lemma In_normalizeLineEndings (x : ascii) (t : text) :
  In x (normalizeLineEndings t) -> In x t.
Proof.
  induction t as [|a|a b t IHt IHbt] using list_ind2; [easy | easy |].
  rewrite normalizeLineEndings_step.
  destruct (Ascii.eqb a JS.CR && Ascii.eqb b JS.LF) eqn:E.
  - apply andb_true_iff in E. destruct E as [_ E]. apply Ascii.eqb_eq in E. subst b.
    intros [<-|H]; [right; now left | right; right; now apply IHt].
  - intros [<-|H]; [now left | right; now apply IHbt].
Qed.

Lemma startsWith_iff (s p : text) :
  JS.startsWith s p = true <-> exists r, s = p ++ r.
Proof.
  revert s. induction p as [|x p IH]; intro s.
  - split; [intros _; now exists s | intros _; destruct s; reflexivity].
  - destruct s as [|y s]; cbn [JS.startsWith].
    + split; [discriminate | intros [r H]; discriminate].
    + rewrite andb_true_iff, IH. split.
      * intros [E [r ->]]. apply Ascii.eqb_eq in E. subst. now exists r.
      * intros [r H]. injection H as -> ->. split; [apply Ascii.eqb_refl | now exists r].
Qed.

Lemma breakAt_eq (pat s : text) :
  JS.breakAt pat s =
  if JS.startsWith s pat then Some ([], skipn (length pat) s)
  else match s with
       | [] => None
       | c :: s' =>
           match JS.breakAt pat s' with
           | Some (before, after) => Some (c :: before, after)
           | None => None
           end
       end.
Proof. destruct s; reflexivity. Qed.

Lemma includes_eq (s sub : text) :
  JS.includes s sub =
  (JS.startsWith s sub || match s with [] => false | _ :: s' => JS.includes s' sub end).
Proof. destruct s; reflexivity. Qed.

Lemma startsWith_skipn (s p : text) :
  JS.startsWith s p = true -> s = p ++ skipn (length p) s.
Proof.
  intro H. apply startsWith_iff in H. destruct H as [r ->].
  now rewrite skipn_app, skipn_all, Nat.sub_diag.
Qed.

(** [breakAt] finds the first occurrence of a pattern the text includes. *)
Lemma breakAt_spec (pat s : text) :
  JS.includes s pat = true ->
  exists before after,
    JS.breakAt pat s = Some (before, after) /\ s = before ++ pat ++ after /\
    forall k, k < length before -> JS.startsWith (skipn k s) pat = false.
Proof.
  induction s as [|c s IH]; rewrite includes_eq, breakAt_eq;
    destruct (JS.startsWith _ pat) eqn:E; try discriminate.
  - intros _. eexists [], _. split; [reflexivity|].
    split; [exact (startsWith_skipn _ _ E) | intros k Hk; inversion Hk].
  - intros _. eexists [], _. split; [reflexivity|].
    split; [exact (startsWith_skipn _ _ E) | intros k Hk; inversion Hk].
  - simpl. intro H. destruct (IH H) as (before & after & -> & Hs & Hfirst).
    exists (c :: before), after. repeat split; [now rewrite Hs at 1|].
    intros [|k] Hk; [exact E|]. simpl in Hk. apply Hfirst. lia.
Qed.

Lemma breakAt_None (pat s : text) :
  JS.includes s pat = false -> JS.breakAt pat s = None.
Proof.
  induction s as [|c s IH]; rewrite includes_eq, breakAt_eq;
    destruct (JS.startsWith _ pat); try discriminate; [reflexivity|].
  simpl. intro H. now rewrite (IH H).
Qed.

Lemma getSubstitution_literal (matched before after template : text) :
  ~ In "$"%char template ->
  JS.getSubstitution matched before after template = template.
Proof.
  induction template as [|c r IH]; [reflexivity|].
  intro H. cbn [JS.getSubstitution].
  destruct (Ascii.eqb c "$") eqn:E.
  - apply Ascii.eqb_eq in E. subst. exfalso. apply H. now left.
  - f_equal. apply IH. intro Hin. apply H. now right.
Qed.

Lemma getSubstitution_app (matched before after pre template : text) :
  ~ In "$"%char pre ->
  JS.getSubstitution matched before after (pre ++ template) =
  pre ++ JS.getSubstitution matched before after template.
Proof.
  induction pre as [|c r IH]; [reflexivity|].
  intro H. cbn [JS.getSubstitution app].
  destruct (Ascii.eqb c "$") eqn:E.
  - apply Ascii.eqb_eq in E. subst. exfalso. apply H. now left.
  - f_equal. apply IH. intro Hin. apply H. now right.
Qed.

(** (X1) An exact edit replaces the first occurrence of the search text
    and nothing else: the content is [before ++ old ++ after] where [old]
    does not start anywhere in [before], and the result is
    [before ++ new ++ after], both texts with their line endings
    normalised.  This holds when the replacement text holds no dollar
    sign. *)
Theorem exact_edit_replaces_first_occurrence (content : text) (edit : EditOperation) :
  let normalizedOld := normalizeLineEndings (oldText edit) in
  let normalizedNew := normalizeLineEndings (newText edit) in
  JS.includes content normalizedOld = true ->
  ~ In "$"%char (newText edit) ->
  exists before after,
    content = before ++ normalizedOld ++ after /\
    (forall k, k < length before ->
       JS.startsWith (skipn k content) normalizedOld = false) /\
    applyEdit content edit = Some (before ++ normalizedNew ++ after).
Proof.
  intros normalizedOld normalizedNew Hinc Hdollar.
  destruct (breakAt_spec normalizedOld content Hinc) as (before & after & Hb & Hs & Hfirst).
  exists before, after. repeat split; [exact Hs | exact Hfirst |].
  unfold applyEdit. fold normalizedOld normalizedNew. rewrite Hinc.
  unfold JS.replace. rewrite Hb. rewrite getSubstitution_literal; [reflexivity|].
  intro Hin. apply Hdollar. now apply In_normalizeLineEndings.
Qed.

Lemma exact_edit_replaces_first_occurrence_witness :
  let content : text := "a b a" in
  let edit := {| oldText := "a"; newText := "c" |} in
  exists before after,
    content = before ++ "a" ++ after /\
    applyEdit content edit = Some (before ++ "c" ++ after).
Proof.
  intros content edit.
  destruct (exact_edit_replaces_first_occurrence content edit)
    as (before & after & Hs & Hfirst & Hrun).
  - vm_compute; reflexivity.
  - vm_compute. intuition discriminate.
  - exists before, after. split; [exact Hs | exact Hrun].
Defined.

(** (X2) The replacement text of an exact edit is a replacement pattern:
    after a dollar sign, [$] gives one dollar sign, [&] the search text,
    a backtick the content before the match and a quote the content after
    it; any other character leaves both as they are. *)
Theorem exact_edit_expands_dollar_patterns (content : text) (edit : EditOperation)
    (pre post : text) (d : ascii) :
  let normalizedOld := normalizeLineEndings (oldText edit) in
  JS.includes content normalizedOld = true ->
  newText edit = pre ++ "$"%char :: d :: post ->
  ~ In JS.CR (newText edit) ->
  ~ In "$"%char pre -> ~ In "$"%char post ->
  exists before after,
    content = before ++ normalizedOld ++ after /\
    (forall k, k < length before ->
       JS.startsWith (skipn k content) normalizedOld = false) /\
    applyEdit content edit =
      Some (before ++ pre ++
            (if Ascii.eqb d "$" then ["$"%char]
             else if Ascii.eqb d "&" then normalizedOld
             else if Ascii.eqb d "`" then before
             else if Ascii.eqb d "'" then after
             else ["$"%char; d]) ++ post ++ after).
Proof.
  intros normalizedOld Hinc Hnew Hcr Hpre Hpost.
  destruct (breakAt_spec normalizedOld content Hinc) as (before & after & Hb & Hs & Hfirst).
  exists before, after. repeat split; [exact Hs | exact Hfirst |].
  unfold applyEdit. fold normalizedOld. rewrite Hinc.
  rewrite (normalizeLineEndings_without_CR (newText edit) Hcr), Hnew.
  unfold JS.replace. rewrite Hb. do 2 f_equal.
  rewrite getSubstitution_app by exact Hpre. rewrite <- !app_assoc. f_equal.
  cbn [JS.getSubstitution]. rewrite Ascii.eqb_refl.
  destruct (Ascii.eqb d "$") eqn:E1.
  { simpl. now rewrite getSubstitution_literal. }
  destruct (Ascii.eqb d "&") eqn:E2.
  { rewrite <- !app_assoc. now rewrite getSubstitution_literal. }
  destruct (Ascii.eqb d "`") eqn:E3.
  { rewrite <- !app_assoc. now rewrite getSubstitution_literal. }
  destruct (Ascii.eqb d "'") eqn:E4.
  { rewrite <- !app_assoc. now rewrite getSubstitution_literal. }
  simpl. now rewrite getSubstitution_literal.
Qed.

Lemma exact_edit_expands_dollar_patterns_witness :
  let content : text := "price: 5" in
  let edit := {| oldText := "5"; newText := "$& USD" |} in
  exists before after,
    content = before ++ "5" ++ after /\
    applyEdit content edit = Some (before ++ "5" ++ " USD" ++ after).
Proof.
  intros content edit.
  destruct (exact_edit_expands_dollar_patterns content edit [] " USD" "&"%char)
    as (before & after & Hs & Hfirst & Hrun).
  - vm_compute; reflexivity.
  - reflexivity.
  - vm_compute. intuition discriminate.
  - intros [].
  - vm_compute. intuition discriminate.
  - exists before, after. split; [exact Hs | exact Hrun].
Defined.

(** (X3) An edit whose search text is empty never fails: the replacement
    text, taken as a replacement pattern, is put in front of the content. *)
Theorem edit_with_empty_search_text_prepends (content replacement : text) :
  let edit := {| oldText := []; newText := replacement |} in
  applyEdit content edit =
    Some (JS.getSubstitution [] [] content (normalizeLineEndings replacement) ++ content) /\
  (~ In "$"%char replacement ->
   applyEdit content edit = Some (normalizeLineEndings replacement ++ content)).
Proof.
  assert (H : applyEdit content {| oldText := []; newText := replacement |} =
              Some (JS.getSubstitution [] [] content (normalizeLineEndings replacement)
                    ++ content)).
  { unfold applyEdit. cbn [oldText newText normalizeLineEndings].
    destruct content; reflexivity. }
  split; [exact H|]. intro Hd. rewrite H. rewrite getSubstitution_literal; [reflexivity|].
  intro Hin. apply Hd. now apply In_normalizeLineEndings.
Qed.


Lemma windowLoop_None (oldLines contentLines : list text) (normalizedNew : text)
    (count i0 : nat) :
  windowLoop oldLines contentLines normalizedNew count i0 = None <->
  forall i, i0 <= i -> i < i0 + count ->
    isMatch oldLines (firstn (length oldLines) (skipn i contentLines)) = false.
Proof.
  revert i0. induction count as [|count IH]; intro i0.
  - split; [intros _ i H1 H2; lia | reflexivity].
  - cbn [windowLoop].
    destruct (isMatch oldLines (firstn (length oldLines) (skipn i0 contentLines))) eqn:E.
    + split; [discriminate|]. intro H. rewrite (H i0) in E by lia. discriminate.
    + rewrite IH. split.
      * intros H i H1 H2. destruct (Nat.eq_dec i i0) as [->|Hne]; [exact E|].
        apply H; lia.
      * intros H i H1 H2. apply H; lia.
Qed.

(** (X5) An edit fails exactly when its search text, line endings
    normalised, neither occurs in the content nor matches a window of
    content lines once white space at both ends of each line is ignored. *)
Theorem applyEdit_fails_iff (content : text) (edit : EditOperation) :
  let normalizedOld := normalizeLineEndings (oldText edit) in
  applyEdit content edit = None <->
  JS.includes content normalizedOld = false /\
  forall i, ~ windowMatchesAt (JS.split JS.LF normalizedOld) (JS.split JS.LF content) i.
Proof.
  intro normalizedOld. unfold applyEdit. fold normalizedOld.
  destruct (JS.includes content normalizedOld).
  - split; [discriminate | intros [H _]; discriminate].
  - rewrite windowLoop_None. split.
    + intro H. split; [reflexivity|]. intros i Hm.
      assert (Hlen := proj1 Hm).
      assert (E : isMatch (JS.split JS.LF normalizedOld)
                    (firstn (length (JS.split JS.LF normalizedOld))
                       (skipn i (JS.split JS.LF content))) = true)
        by (apply isMatch_iff; assumption).
      rewrite H in E by lia. discriminate.
    + intros [_ H] i _ Hi.
      destruct (isMatch _ _) eqn:E; [|reflexivity].
      exfalso. apply (H i). apply isMatch_iff; [lia | exact E].
Qed.

Lemma split_join (ls : list text) :
  ls <> [] -> (forall l, In l ls -> ~ In JS.LF l) ->
  JS.split JS.LF (JS.join nl ls) = ls.
Proof.
  induction ls as [|p ls IH]; [congruence|]. intros _ Hall.
  destruct ls as [|q ps].
  - simpl. apply split_without_separator. apply Hall. now left.
  - change (JS.join nl (p :: q :: ps)) with (p ++ JS.LF :: JS.join nl (q :: ps)).
    rewrite split_at_separator, IH.
    + rewrite split_without_separator; [reflexivity|]. apply Hall. now left.
    + discriminate.
    + intros l Hl. apply Hall. now right.
Qed.

Lemma In_trimStart (c : ascii) (s : text) : In c (JS.trimStart s) -> In c s.
Proof.
  induction s as [|x s IH]; [easy|]. simpl.
  destruct (JS.isWhiteSpace x); [intro H; right; now apply IH | easy].
Qed.

Lemma In_leadingWhitespace (c : ascii) (s : text) : In c (JS.leadingWhitespace s) -> In c s.
Proof.
  induction s as [|x s IH]; [easy|]. simpl.
  destruct (JS.isWhiteSpace x); [|easy].
  intros [H|H]; [now left | right; now apply IH].
Qed.

Lemma reindentLine_without_LF (oldLines : list text) (originalIndent line : text) (j : nat) :
  ~ In JS.LF originalIndent -> ~ In JS.LF line ->
  ~ In JS.LF (reindentLine oldLines originalIndent line j).
Proof.
  intros Hi Hl. unfold reindentLine.
  destruct (j =? 0).
  - intro H. apply in_app_or in H. destruct H as [H|H]; [now apply Hi|].
    apply Hl. now apply In_trimStart.
  - destruct (nonEmpty _ && nonEmpty _); [|exact Hl].
    intro H. apply in_app_or in H. destruct H as [H|H]; [now apply Hi|].
    apply in_app_or in H. destruct H as [H|H].
    + apply repeat_spec in H. discriminate.
    + apply Hl. now apply In_trimStart.
Qed.

Lemma In_mapi_from {A B} (f : A -> nat -> B) (xs : list A) (k : nat) (y : B) :
  In y (JS.mapi_from f k xs) -> exists x j, In x xs /\ y = f x j.
Proof.
  revert k. induction xs as [|x xs IH]; intro k; [easy|].
  intros [<-|H].
  - exists x, k. split; [now left | reflexivity].
  - destruct (IH _ H) as (x' & j & Hin & ->). exists x', j. split; [now right | reflexivity].
Qed.

(** (X6) A whitespace-tolerant edit rewrites the lines of its window and
    no other line: the lines of the result are the content lines before
    the window, the re-indented replacement lines, and the content lines
    after the window, so the number of lines changes by the difference
    between the replacement's and the search text's. *)
Theorem fuzzy_edit_keeps_other_lines (content : text) (edit : EditOperation) (i : nat) :
  let normalizedOld := normalizeLineEndings (oldText edit) in
  let normalizedNew := normalizeLineEndings (newText edit) in
  let oldLines := JS.split JS.LF normalizedOld in
  let contentLines := JS.split JS.LF content in
  let newLines := JS.split JS.LF normalizedNew in
  JS.includes content normalizedOld = false ->
  earliestWindow oldLines contentLines i ->
  exists result replaced,
    applyEdit content edit = Some result /\
    JS.split JS.LF result =
      firstn i contentLines ++ replaced ++ skipn (i + length oldLines) contentLines /\
    length replaced = length newLines /\
    length (JS.split JS.LF result) + length oldLines =
      length contentLines + length newLines.
Proof.
  intros normalizedOld normalizedNew oldLines contentLines newLines Hexact [Hm Hfirst].
  set (originalIndent := indentOf (nth_error contentLines i)).
  set (replaced := JS.mapi (reindentLine oldLines originalIndent) newLines).
  assert (Hrun : applyEdit content edit =
                 Some (JS.join nl (JS.splice contentLines i (length oldLines) replaced))).
  { unfold applyEdit. fold normalizedOld normalizedNew. rewrite Hexact.
    fold oldLines contentLines.
    apply windowLoop_earliest; try lia; try assumption.
    - destruct Hm as [Hlen _]. lia.
    - intros i' _ Hlt. now apply Hfirst. }
  assert (Hcontent : forall l, In l contentLines -> ~ In JS.LF l)
    by (intros l Hl; exact (split_segment_without_separator _ _ _ Hl)).
  assert (Hindent : ~ In JS.LF originalIndent).
  { unfold originalIndent. destruct (nth_error contentLines i) as [l|] eqn:E; [|easy].
    simpl. intro H. apply In_leadingWhitespace in H.
    exact (Hcontent l (nth_error_In _ _ E) H). }
  assert (Hlen : length replaced = length newLines) by apply length_mapi_from.
  assert (Hsplit : JS.split JS.LF (JS.join nl (JS.splice contentLines i (length oldLines) replaced))
                   = JS.splice contentLines i (length oldLines) replaced).
  { apply split_join.
    - unfold JS.splice. intro H. apply app_eq_nil in H. destruct H as [_ H].
      apply app_eq_nil in H. destruct H as [H _].
      apply (f_equal (@length text)) in H. rewrite Hlen in H.
      pose proof (split_nonempty JS.LF normalizedNew) as Hne.
      fold newLines in Hne. destruct newLines; [congruence | discriminate].
    - intros l Hl. unfold JS.splice in Hl.
      apply in_app_or in Hl. destruct Hl as [Hl|Hl].
      { apply Hcontent. rewrite <- (firstn_skipn i contentLines). apply in_or_app. now left. }
      apply in_app_or in Hl. destruct Hl as [Hl|Hl].
      + apply In_mapi_from in Hl. destruct Hl as (line & j & Hline & ->).
        apply reindentLine_without_LF; [exact Hindent|].
        exact (split_segment_without_separator _ _ _ Hline).
      + apply Hcontent. rewrite <- (firstn_skipn (i + length oldLines) contentLines).
        apply in_or_app. now right. }
  exists (JS.join nl (JS.splice contentLines i (length oldLines) replaced)), replaced.
  split; [exact Hrun|]. split; [exact Hsplit|]. split; [exact Hlen|].
  rewrite Hsplit. unfold JS.splice. rewrite !length_app, length_firstn, length_skipn, Hlen.
  destruct Hm as [Hb _]. lia.
Qed.

Lemma fuzzy_edit_keeps_other_lines_witness :
  let content : text := "zero" ++ nl ++ "    a" ++ nl ++ "        b" ++ nl ++ "last" in
  let edit := {| oldText := "  a" ++ nl ++ "      b"; newText := "  c" |} in
  exists result replaced,
    applyEdit content edit = Some result /\
    JS.split JS.LF result = ["zero" : text] ++ replaced ++ ["last" : text] /\
    length replaced = 1.
Proof.
  intros content edit.
  destruct (fuzzy_edit_keeps_other_lines content edit 1)
    as (result & replaced & Hrun & Hlines & Hlen & _).
  - vm_compute; reflexivity.
  - split.
    + split; [vm_compute; lia|]. intros [|[|j]] oldLine Hj; simpl in Hj.
      * injection Hj as <-. eexists. split; reflexivity.
      * injection Hj as <-. eexists. split; reflexivity.
      * destruct j; discriminate.
    + intros i' Hi' [_ H]. assert (i' = 0) by lia. subst i'.
      destruct (H 0 ("  a" : text) eq_refl) as (contentLine & Hc & Ht).
      injection Hc as <-. vm_compute in Ht. discriminate.
  - exists result, replaced. split; [exact Hrun|]. split; [exact Hlines | exact Hlen].
Defined.

(** ** Line endings *)

Lemma split_cons (sep c : ascii) (s : text) :
  JS.split sep (c :: s) =
  if Ascii.eqb c sep then [] :: JS.split sep s
  else match JS.split sep s with
       | l :: ls => (c :: l) :: ls
       | [] => [[c]]
       end.
Proof. reflexivity. Qed.

Lemma dropCR_cons (c : ascii) (h : text) : h <> [] -> dropCR (c :: h) = c :: dropCR h.
Proof.
  intro Hne. unfold dropCR. simpl rev.
  destruct (rev h) as [|x r] eqn:E.
  - exfalso. apply Hne. apply (f_equal (@rev ascii)) in E. now rewrite rev_involutive in E.
  - simpl. destruct (Ascii.eqb x JS.CR); [|reflexivity].
    now rewrite rev_app_distr.
Qed.

Lemma mapInit_cons {A} (f : A -> A) (x : A) (l : list A) :
  l <> [] -> mapInit f (x :: l) = f x :: mapInit f l.
Proof. destruct l; [congruence | reflexivity]. Qed.

(** (X7) [normalizeLineEndings] takes from every line that a newline ends
    one carriage return at its end, if there is one, and changes nothing
    else: the number of lines stays, and so does a carriage return that
    no newline follows, or that another carriage return follows. *)
Theorem normalizeLineEndings_lines (t : text) :
  JS.split JS.LF (normalizeLineEndings t) = mapInit dropCR (JS.split JS.LF t).
Proof.
  induction t as [|a|a b t IHt IHbt] using list_ind2.
  - reflexivity.
  - simpl normalizeLineEndings. rewrite split_cons.
    destruct (Ascii.eqb a JS.LF); reflexivity.
  - rewrite normalizeLineEndings_step.
    destruct (Ascii.eqb a JS.CR && Ascii.eqb b JS.LF) eqn:E.
    + apply andb_true_iff in E. destruct E as [Ea Eb].
      apply Ascii.eqb_eq in Ea, Eb. subst a b.
      rewrite split_cons, Ascii.eqb_refl, IHt.
      rewrite (split_cons JS.LF JS.CR), (split_cons JS.LF JS.LF), Ascii.eqb_refl.
      change (Ascii.eqb JS.CR JS.LF) with false. cbv iota.
      rewrite mapInit_cons by apply split_nonempty. reflexivity.
    + rewrite (split_cons JS.LF a (normalizeLineEndings (b :: t))), IHbt.
      rewrite (split_cons JS.LF a (b :: t)).
      destruct (Ascii.eqb a JS.LF) eqn:Ea.
      * rewrite mapInit_cons by apply split_nonempty. reflexivity.
      * destruct (JS.split JS.LF (b :: t)) as [|h r] eqn:Es;
          [exfalso; exact (split_nonempty _ _ Es)|].
        destruct r as [|h' r]; [reflexivity|].
        cbn [mapInit]. f_equal.
        destruct h as [|x h]; [|symmetry; apply dropCR_cons; discriminate].
        rewrite split_cons in Es.
        destruct (Ascii.eqb b JS.LF) eqn:Eb.
        -- rewrite andb_true_r in E. unfold dropCR. simpl. now rewrite E.
        -- destruct (JS.split JS.LF t); discriminate.
Qed.

(** ** Path validation, further properties *)

(** (X8) [validatePath] only resolves: it makes one or two [realpath]
    calls and nothing else, so it changes neither the file system nor the
    allow-list, and it always ends. *)
Theorem validatePath_only_resolves {W} {FS : FileSystem W} {L}
    (s : state W L) (requestedPath : text) :
  world (snd (validatePath requestedPath s)) = world s /\
  allowedDirectories (snd (validatePath requestedPath s)) = allowedDirectories s /\
  fst (validatePath requestedPath s) <> OutOfFuel /\
  exists calls,
    trace (snd (validatePath requestedPath s)) = trace s ++ calls /\
    Forall isRealpathCall calls /\ 1 <= length calls <= 2.
Proof.
  rewrite validatePath_run. cbn [fst snd].
  split; [reflexivity|]. split; [reflexivity|].
  split; [apply validateOutcome_not_OutOfFuel|].
  eexists. split; [reflexivity|]. split; [apply validateCalls_realpath|].
  unfold validateCalls. destruct (fs_realpath _ _) as [error|]; [|simpl; lia].
  destruct (hasCode error ENOENT); simpl; lia.
Qed.

(** ** Reading, further properties *)

(** (X9) A count of zero is no count: [read_file] with [head: 0] or
    [tail: 0] behaves as if the parameter were absent (so [head: 0]
    alone returns the whole file, and [head: 0] with a [tail] is not
    rejected). *)
Theorem read_file_zero_count_is_no_count {W} {FS : FileSystem W} {L}
    (s : state W L) (a : ReadFileArgs) :
  handle_read_file a s =
  handle_read_file
    {| rf_path := rf_path a;
       rf_tail := match rf_tail a with Some 0%Z => None | n => n end;
       rf_head := match rf_head a with Some 0%Z => None | n => n end |} s.
Proof.
  unfold handle_read_file. cbn [rf_path rf_tail rf_head].
  destruct (rf_tail a) as [[| |]|], (rf_head a) as [[| |]|]; reflexivity.
Qed.

(** (X10) A negative count gives the empty text: [read_file] with a
    negative [tail] (and no [head]) or a negative [head] (and no [tail])
    on a readable file returns the empty text, not an error and not the
    file. *)
Theorem read_file_negative_count_gives_empty_text {W} {FS : FileSystem W} {L}
    (s s1 : state W L) (a : ReadFileArgs) (validPath : text) (stats : Stats)
    (content : text) (n : Z) :
  validatePath (rf_path a) s = (Ok validPath, s1) ->
  fs_stat (world s1) validPath = inr stats ->
  fs_open (world s1) validPath = inr content ->
  (n < 0)%Z ->
  (rf_tail a = Some n -> truthy (rf_head a) = false ->
   fst (handle_read_file a s) = Ok []) /\
  (rf_head a = Some n -> truthy (rf_tail a) = false ->
   fst (handle_read_file a s) = Ok []).
Proof.
  intros Hv Hstat Hopen Hn.
  assert (Htruthy : truthy (Some n) = true)
    by (unfold truthy; destruct (Z.eqb_spec n 0); [lia | reflexivity]).
  assert (Hlt : forall k, (Z.of_nat k <? n)%Z = false)
    by (intro k; apply Z.ltb_ge; lia).
  split; intros Hcount Hother; unfold handle_read_file, bind; rewrite Hv, Hcount, Hother, Htruthy;
    cbn [andb numberOf].
  - unfold tailFile, bind, stat, reading. rewrite Hstat. cbn [lift].
    destruct (size stats =? 0); [reflexivity|].
    unfold open, reading. cbn [world record]. rewrite Hopen. cbn [lift].
    unfold try_finally.
    assert (Hloop : tailLoop (size stats) content n (size stats) [] 0 [] = Some []).
    { destruct (size stats); cbn [tailLoop]; rewrite (Hlt 0), andb_false_r; reflexivity. }
    rewrite Hloop. reflexivity.
  - unfold headFile, bind, open, reading. rewrite Hopen. cbn [lift].
    unfold try_finally.
    assert (Hloop : headLoop (S (length content)) content n [] [] 0 = Some ([], [])).
    { cbn [headLoop]. cbn [length]. now rewrite (Hlt 0). }
    rewrite Hloop. reflexivity.
Qed.

Lemma read_file_negative_count_gives_empty_text_witness :
  fst (handle_read_file {| rf_path := "/ws/a.txt"; rf_tail := Some (-1)%Z; rf_head := None |}
         Scenario.initial) = Ok [] /\
  fst (handle_read_file {| rf_path := "/ws/a.txt"; rf_tail := Some 0%Z; rf_head := Some (-1)%Z |}
         Scenario.initial) = Ok [].
Proof.
  pose (content := ("foo" ++ nl ++ "bar" ++ nl) : text).
  pose (stats := {| size := 8; stat_isDirectory := false; stat_isFile := true |}).
  split.
  - refine (proj1 (read_file_negative_count_gives_empty_text Scenario.initial
                     (extend [CallRealpath "/ws/a.txt"] Scenario.initial)
                     {| rf_path := "/ws/a.txt"; rf_tail := Some (-1)%Z; rf_head := None |}
                     "/ws/a.txt" stats content (-1)%Z _ _ _ _) _ _);
      try (vm_compute; reflexivity).
  - refine (proj2 (read_file_negative_count_gives_empty_text Scenario.initial
                     (extend [CallRealpath "/ws/a.txt"] Scenario.initial)
                     {| rf_path := "/ws/a.txt"; rf_tail := Some 0%Z; rf_head := Some (-1)%Z |}
                     "/ws/a.txt" stats content (-1)%Z _ _ _ _) _ _);
      try (vm_compute; reflexivity).
Defined.

Lemma readOne_run {W} {FS : FileSystem W} {L} (s : state W L) (filePath : text) :
  exists s',
    readOne filePath s = (Ok (reportOf (world s) (env s) filePath), s') /\
    world s' = world s /\ env s' = env s.
Proof.
  unfold readOne, try_catch, bind. rewrite validatePath_run. unfold reportOf.
  pose proof (validateOutcome_not_OutOfFuel (world s) (env s) filePath) as Hfuel.
  destruct (validateOutcome (world s) (env s) filePath) as [validPath|error|];
    [| eexists; split; [reflexivity | split; reflexivity] | congruence].
  unfold readFile, reading. cbn [world extend].
  destruct (fs_readFile (world s) validPath) as [error|content]; cbn [lift];
    eexists; (split; [reflexivity | split; reflexivity]).
Qed.

(** (X11) [read_multiple_files] never fails: its answer has one part for
    every requested path, in order, joined by a line of three dashes; a
    path that does not validate or cannot be read contributes its error
    message and does not disturb the others.  Nothing is written. *)
Theorem read_multiple_files_reports_each_path {W} {FS : FileSystem W} {L}
    (s : state W L) (paths : list text) :
  exists s',
    handle_read_multiple_files paths s =
      (Ok (JS.join (nl ++ "---" ++ nl) (map (reportOf (world s) (env s)) paths)), s') /\
    world s' = world s.
Proof.
  assert (Hmap : forall ps (s0 : state W L),
             exists s',
               mapM readOne ps s0 = (Ok (map (reportOf (world s0) (env s0)) ps), s') /\
               world s' = world s0 /\ env s' = env s0).
  { induction ps as [|p ps IH]; intro s0.
    - exists s0. repeat split.
    - destruct (readOne_run s0 p) as (s1 & H1 & Hw1 & He1).
      destruct (IH s1) as (s2 & H2 & Hw2 & He2).
      exists s2. cbn [mapM]. unfold bind. rewrite H1, H2, Hw1, He1.
      repeat split; congruence. }
  destruct (Hmap paths s) as (s' & H & Hw & _).
  exists s'. split; [|exact Hw].
  unfold handle_read_multiple_files, bind. now rewrite H.
Qed.

(** ** Writing and creating, further properties *)

(** (X12) [write_file] on a path that does not exist yet makes one call,
    the exclusive create, and reports success; when the exclusive create
    fails for another reason than the file existing, that error is thrown
    and no temporary file is written. *)
Theorem write_file_creates_exclusively {W} {FS : FileSystem W} {L}
    (s s1 : state W L) (a : WriteFileArgs) (validPath : text) :
  validatePath (wf_path a) s = (Ok validPath, s1) ->
  let exclusive := CallWriteFile validPath (wf_content a) FlagWX in
  (forall w1,
      fs_writeFile (world s1) validPath (wf_content a) FlagWX = (w1, inr tt) ->
      handle_write_file a s =
        (Ok ("Successfully wrote to " ++ wf_path a), setWorld w1 (record exclusive s1))) /\
  (forall w1 error0,
      fs_writeFile (world s1) validPath (wf_content a) FlagWX = (w1, inl error0) ->
      code error0 <> Some EEXIST ->
      handle_write_file a s = (Throw error0, setWorld w1 (record exclusive s1))).
Proof.
  intros Hv exclusive. split.
  - intros w1 Hw. unfold handle_write_file, bind, try_catch. rewrite Hv.
    unfold writeFile, writing. now rewrite Hw.
  - intros w1 error0 Hw Hcode. unfold handle_write_file, bind, try_catch. rewrite Hv.
    unfold writeFile, writing. rewrite Hw. cbn [lift].
    destruct (hasCode error0 EEXIST) eqn:E; [|reflexivity].
    apply hasCode_iff in E. contradiction.
Qed.

Lemma write_file_creates_exclusively_witness :
  let a := {| wf_path := "/ws/new.txt"; wf_content := "new" |} in
  exists s',
    handle_write_file a Scenario.initial =
      (Ok ("Successfully wrote to /ws/new.txt" : text), s') /\
    trace s' = [CallRealpath "/ws/new.txt"; CallRealpath "/ws";
                CallWriteFile "/ws/new.txt" "new" FlagWX] /\
    MemFS.readFile (world s') "/ws/new.txt" = inr ("new" : text).
Proof.
  intro a.
  assert (Hv : validatePath (wf_path a) Scenario.initial =
               (Ok ("/ws/new.txt" : text),
                extend [CallRealpath "/ws/new.txt"; CallRealpath "/ws"] Scenario.initial))
    by (vm_compute; reflexivity).
  destruct (write_file_creates_exclusively Scenario.initial _ a _ Hv) as [Hnew _].
  eexists. split; [apply Hnew; vm_compute; reflexivity|].
  split; vm_compute; reflexivity.
Defined.

(** (X13) [create_directory] creates at most one level: when neither the
    path nor its parent directory resolves, the request fails with the
    parent's error before [mkdir] is called, although [mkdir] would be
    called with [recursive: true]. *)
Theorem create_directory_needs_existing_parent {W} {FS : FileSystem W} {L}
    (s : state W L) (path : text) (error0 error1 : error) :
  let absolute := absoluteOf (env s) path in
  let parentDir := Path.dirname absolute in
  fs_realpath (world s) absolute = inl error0 ->
  code error0 = Some ENOENT ->
  fs_realpath (world s) parentDir = inl error1 ->
  handle_create_directory path s =
    (Throw (Error ("Parent directory does not exist: " ++ parentDir)),
     extend [CallRealpath absolute; CallRealpath parentDir] s) /\
  world (snd (handle_create_directory path s)) = world s.
Proof.
  intros absolute parentDir H0 Hcode H1.
  assert (Hrun : handle_create_directory path s =
                 (Throw (Error ("Parent directory does not exist: " ++ parentDir)),
                  extend [CallRealpath absolute; CallRealpath parentDir] s)).
  { unfold handle_create_directory, bind. rewrite validatePath_run.
    unfold validateOutcome, validateCalls. fold absolute parentDir.
    rewrite H0. apply hasCode_iff in Hcode. rewrite Hcode.
    fold parentDir. now rewrite H1. }
  split; [exact Hrun | now rewrite Hrun].
Qed.

Lemma create_directory_needs_existing_parent_witness :
  handle_create_directory "/ws/x/y" Scenario.initial =
    (Throw (Error "Parent directory does not exist: /ws/x"),
     extend [CallRealpath "/ws/x/y"; CallRealpath "/ws/x"] Scenario.initial) /\
  fst (handle_create_directory "/ws/x" Scenario.initial) =
    Ok ("Successfully created directory /ws/x" : text).
Proof.
  split; [|vm_compute; reflexivity].
  refine (proj1 (create_directory_needs_existing_parent Scenario.initial "/ws/x/y"
                   (MemFS.sysError ENOENT "realpath" "/ws/x/y")
                   (MemFS.sysError ENOENT "realpath" "/ws/x") _ _ _));
    vm_compute; reflexivity.
Defined.

(** ** The request handler, further properties *)


(** ** Searching, further properties *)

(** (X15) A search root that cannot be listed fails the search with that
    error (a directory below the root that cannot be listed is skipped). *)
Theorem searchFiles_fails_on_unreadable_root {W} {FS : FileSystem W} {PK : Packages} {L}
    (s : state W L) (fuel : nat) (rootPath pattern : text)
    (excludePatterns : list text) (error : error) :
  fs_readdir (world s) rootPath = inl error ->
  searchFiles (S fuel) rootPath pattern excludePatterns s =
    (Throw error, record (CallReaddir rootPath) s).
Proof.
  intro H. unfold searchFiles, bind, scoped. cbn [search]. unfold bind, readdir, reading.
  cbn [world setLocals]. rewrite H. reflexivity.
Qed.

Lemma searchFiles_fails_on_unreadable_root_witness :
  fst (handle_search_files 3 {| sf_path := "/ws/a.txt"; sf_pattern := "a";
                                sf_excludePatterns := [] |} Scenario.initial) =
  Throw (MemFS.sysError ENOTDIR "scandir" "/ws/a.txt").
Proof.
  unfold handle_search_files, bind. cbn [sf_path sf_pattern sf_excludePatterns].
  assert (Hv : validatePath "/ws/a.txt" Scenario.initial =
               (Ok ("/ws/a.txt" : text), extend [CallRealpath "/ws/a.txt"] Scenario.initial))
    by (vm_compute; reflexivity).
  rewrite Hv.
  rewrite (searchFiles_fails_on_unreadable_root
             (extend [CallRealpath "/ws/a.txt"] Scenario.initial) 2 "/ws/a.txt" "a" []
             (MemFS.sysError ENOTDIR "scandir" "/ws/a.txt"));
    [reflexivity | vm_compute; reflexivity].
Defined.

(** ** The list of tools *)

(** (X16) The tools list names only the three remote tools: a listed tool
    is one of [edit_file], [warpgrep_codebase_search] and
    [codebase_search], is enabled by [ENABLED_TOOLS], and the API key is
    set.  None of the twelve file-system tools of [ALL_TOOLS] is ever
    listed, whatever [ENABLED_TOOLS] says. *)
Theorem listTools_lists_only_remote_tools (pe : processEnv) (toolName : text) :
  In toolName (listTools pe) ->
  In toolName ["edit_file" : text; "warpgrep_codebase_search" : text;
               "codebase_search" : text] /\
  In toolName (ENABLED_TOOLS pe) /\
  isSet (MORPH_API_KEY pe) = true /\
  ~ In toolName (firstn 12 ALL_TOOLS).
Proof.
  unfold listTools. intro H. apply in_map_iff in H. destruct H as (tool & <- & H).
  apply filter_In in H. destruct H as [Hin Hkeep].
  assert (Hreq : requiresApiKey tool = true)
    by (simpl in Hin; destruct Hin as [<-|[<-|[<-|[]]]]; reflexivity).
  assert (Hname : In (tool_name tool)
                    ["edit_file" : text; "warpgrep_codebase_search" : text;
                     "codebase_search" : text])
    by (simpl in Hin; destruct Hin as [<-|[<-|[<-|[]]]]; simpl; tauto).
  rewrite Hreq in Hkeep.
  destruct (arrayIncludes (ENABLED_TOOLS pe) (tool_name tool)) eqn:Einc; [|discriminate].
  destruct (isSet (MORPH_API_KEY pe)) eqn:Ekey; [|discriminate].
  split; [exact Hname|]. split; [|split; [reflexivity|]].
  - unfold arrayIncludes in Einc. apply existsb_exists in Einc.
    destruct Einc as (x & Hx & Heq). apply eqb_eq in Heq. now subst x.
  - intro Hfs. simpl in Hname.
    destruct Hname as [E|[E|[E|[]]]]; rewrite <- E in Hfs; vm_compute in Hfs;
      intuition discriminate.
Qed.

Lemma listTools_lists_only_remote_tools_witness :
  let pe := {| env_ENABLED_TOOLS := Some ("all" : text); env_WORKSPACE_ROOT := None;
               env_PWD := None; env_ENABLE_WORKSPACE_MODE := None;
               env_MORPH_API_KEY := Some ("sk-1" : text) |} in
  In ("read_file" : text) (ENABLED_TOOLS pe) /\
  ~ In ("read_file" : text) (listTools pe) /\
  ~ In ("edit_file" : text) (firstn 12 ALL_TOOLS).
Proof.
  intro pe. split; [vm_compute; tauto|]. split.
  - vm_compute. intuition discriminate.
  - refine (proj2 (proj2 (proj2 (listTools_lists_only_remote_tools pe "edit_file" _)))).
    vm_compute. tauto.
Defined.

(** ** Workspace detection *)

Lemma length_dropSlashes (r : text) : length (Path.dropSlashes r) <= length r.
Proof.
  induction r as [|c r IH]; [reflexivity|]. simpl.
  destruct (Ascii.eqb c "/"); simpl; lia.
Qed.

Lemma dropSlashes_head (r : text) :
  match Path.dropSlashes r with
  | c :: _ => Ascii.eqb c "/" = false
  | [] => True
  end.
Proof.
  induction r as [|c r IH]; [exact I|]. simpl.
  destruct (Ascii.eqb c "/") eqn:E; [exact IH | exact E].
Qed.

Lemma untilSlash_length (r seg before : text) :
  Path.untilSlash r = (seg, Some before) ->
  length r = length seg + 1 + length before.
Proof.
  revert seg. induction r as [|c r IH]; intro seg; [discriminate|]. simpl.
  destruct (Ascii.eqb c "/").
  - intro H. injection H as <- <-. simpl. lia.
  - destruct (Path.untilSlash r) as [seg' rest]. intro H. injection H as <- ->.
    simpl. rewrite (IH seg' eq_refl). lia.
Qed.

Lemma untilSlash_segment (r seg before : text) :
  Path.untilSlash r = (seg, Some before) ->
  match r with
  | c :: _ => Ascii.eqb c "/" = false
  | [] => True
  end ->
  1 <= length seg.
Proof.
  destruct r as [|c r]; [discriminate|]. simpl. intros H Hc. rewrite Hc in H.
  destruct (Path.untilSlash r) as [seg' rest]. injection H as <- _. simpl. lia.
Qed.

(** The parent of an absolute path is absolute, and shorter unless the
    path is its own parent. *)
Lemma dirname_absolute (p : text) :
  Path.isAbsolute p = true ->
  Path.isAbsolute (Path.dirname p) = true /\
  (Path.dirname p = p \/ length (Path.dirname p) < length p).
Proof.
  destruct p as [|c body]; [discriminate|]. intro Habs.
  assert (Hc : c = "/"%char) by (now apply Ascii.eqb_eq). subst c.
  unfold Path.dirname. rewrite Habs.
  pose proof (length_dropSlashes (rev body)) as Hdrop.
  pose proof (dropSlashes_head (rev body)) as Hhead.
  rewrite length_rev in Hdrop.
  destruct (Path.untilSlash (Path.dropSlashes (rev body))) as [seg [before|]] eqn:E.
  - pose proof (untilSlash_segment _ _ _ E Hhead) as Hseg.
    apply untilSlash_length in E.
    destruct (length before =? 0) eqn:Eb; cbn [andb].
    + split; [reflexivity|]. right. apply Nat.eqb_eq in Eb. simpl. lia.
    + split; [reflexivity|]. right. simpl. rewrite length_rev. lia.
  - split; [reflexivity|]. destruct body; [now left | right; simpl; lia].
Qed.

Lemma resolve_absolute (cwd p : text) :
  Path.isAbsolute cwd = true -> Path.isAbsolute (Path.resolve cwd p) = true.
Proof.
  intro Hcwd. unfold Path.resolve.
  set (resolvedPath := match p with
                       | [] => cwd ++ "/"
                       | _ :: _ => if Path.isAbsolute p then p ++ "/" else cwd ++ "/" ++ p ++ "/"
                       end).
  assert (Habs : Path.isAbsolute resolvedPath = true).
  { unfold resolvedPath. destruct cwd as [|c cwd]; [discriminate|].
    destruct p as [|x p]; [exact Hcwd|].
    destruct (Path.isAbsolute (x :: p)) eqn:E; [exact E | exact Hcwd]. }
  now rewrite Habs.
Qed.

Lemma normalize_nonempty (p : text) : Path.normalize p <> [].
Proof.
  unfold Path.normalize. destruct p as [|c p]; [discriminate|].
  destruct (Path.normalizeString (c :: p) _) as [|x s].
  - destruct (Path.isAbsolute (c :: p)); [discriminate|].
    destruct (Path.endsWithSlash (c :: p)); discriminate.
  - destruct (Path.isAbsolute (c :: p)); [discriminate|].
    destruct (Path.endsWithSlash (c :: p)); discriminate.
Qed.

Lemma ancestor_dirname (k : nat) (p : text) :
  ancestor k (Path.dirname p) = ancestor (S k) p.
Proof. induction k as [|k IH]; [reflexivity|]. simpl. now rewrite IH. Qed.

Section Detection.
Context {W : Type} {FS : FileSystem W} {FA : FileAccess W} {L : Type}.

Lemma probe_run (s : state W L) (currentPath : text) (indicators : list text) :
  probe currentPath indicators s =
  (Ok (existsb (fun indicator =>
                  match fs_access (world s) (Path.join currentPath indicator) with
                  | inr _ => true
                  | inl _ => false
                  end) indicators), s).
Proof.
  induction indicators as [|indicator rest IH]; [reflexivity|].
  cbn [probe existsb]. unfold bind, try_catch, access, ret.
  destruct (fs_access (world s) (Path.join currentPath indicator)) as [error|[]];
    cbn [lift orb]; [exact IH | reflexivity].
Qed.

Lemma climb_run (s : state W L) (fuel : nat) :
  forall p, Path.isAbsolute p = true -> length p <= fuel ->
  exists found,
    climb fuel p s = (Ok found, s) /\
    ((exists k,
        found = Some (normalizePath (ancestor k p)) /\
        hasIndicator (world s) (ancestor k p) = true /\
        examined p k /\
        forall j, j < k -> hasIndicator (world s) (ancestor j p) = false)
     \/
     (found = None /\
      forall k, examined p k -> hasIndicator (world s) (ancestor k p) = false)).
Proof.
  induction fuel as [|fuel IH]; intros p Habs Hlen.
  - destruct p; [discriminate | simpl in Hlen; lia].
  - cbn [climb]. destruct (JS.eqb p (Path.dirname p)) eqn:E.
    + exists None. split; [reflexivity|]. right. split; [reflexivity|].
      intros k Hex. exfalso. apply eqb_eq in E. exact (Hex 0 (Nat.le_0_l _) E).
    + apply eqb_neq in E. unfold bind. rewrite probe_run.
      fold (hasIndicator (world s) p).
      destruct (hasIndicator (world s) p) eqn:Hp.
      * exists (Some (normalizePath p)). split; [reflexivity|]. left. exists 0.
        split; [reflexivity|]. split; [exact Hp|]. split.
        -- intros j Hj. assert (j = 0) by lia. now subst j.
        -- intros j Hj. lia.
      * destruct (dirname_absolute p Habs) as [Habs' [Heq|Hlt]]; [congruence|].
        destruct (IH (Path.dirname p) Habs' ltac:(lia)) as (found & Hrun & Hspec).
        exists found. split; [exact Hrun|].
        destruct Hspec as [(k & Hfound & Hk & Hex & Hbefore)|[Hfound Hnone]].
        -- left. exists (S k). rewrite <- !ancestor_dirname.
           split; [exact Hfound|]. split; [exact Hk|]. split.
           ++ intros [|j] Hj; [exact E|]. rewrite <- ancestor_dirname. apply Hex. lia.
           ++ intros [|j] Hj; [exact Hp|]. rewrite <- ancestor_dirname. apply Hbefore. lia.
        -- right. split; [exact Hfound|]. intros [|k] Hex; [exact Hp|].
           rewrite <- ancestor_dirname. apply Hnone.
           intros j Hj. rewrite ancestor_dirname. apply Hex. lia.
Qed.

(** (X17) [detectWorkspaceRoot] always returns, writes nothing, and
    returns the nearest directory at or above the resolved start path
    that holds one of the workspace indicators.  A directory that is its
    own parent (the file-system root) is never examined.  When no examined
    directory holds an indicator, the result is the start path as given,
    normalised but not resolved. *)
Theorem detectWorkspaceRoot_finds_nearest_indicator (s : state W L) (startPath : text) :
  Path.isAbsolute (cwd (env s)) = true ->
  let start := Path.resolve (cwd (env s)) startPath in
  exists workspaceRoot,
    detectWorkspaceRoot startPath s = (Ok workspaceRoot, s) /\
    workspaceRoot <> [] /\
    ((exists k,
        workspaceRoot = normalizePath (ancestor k start) /\
        hasIndicator (world s) (ancestor k start) = true /\
        examined start k /\
        forall j, j < k -> hasIndicator (world s) (ancestor j start) = false)
     \/
     (workspaceRoot = normalizePath startPath /\
      forall k, examined start k -> hasIndicator (world s) (ancestor k start) = false)).
Proof.
  intros Hcwd start.
  destruct (climb_run s (length start) start (resolve_absolute _ _ Hcwd) (Nat.le_refl _))
    as (found & Hrun & Hspec).
  unfold detectWorkspaceRoot, bind, getEnv. fold start. rewrite Hrun.
  destruct Hspec as [(k & -> & Hk & Hex & Hbefore)|[-> Hnone]].
  - eexists. split; [reflexivity|]. split; [apply normalize_nonempty|].
    left. exists k. repeat split; assumption.
  - eexists. split; [reflexivity|]. split; [apply normalize_nonempty|].
    right. split; [reflexivity | exact Hnone].
Qed.

End Detection.

Section AllowList.
Context {W : Type} {FS : FileSystem W} {FA : FileAccess W} {L : Type}.

Lemma climb_same_world (s s2 : state W L) (fuel : nat) :
  world s2 = world s ->
  forall p, climb fuel p s2 = (fst (climb fuel p s), s2) /\ snd (climb fuel p s) = s.
Proof.
  intro Hw. induction fuel as [|fuel IH]; intro p; cbn [climb];
    destruct (JS.eqb p (Path.dirname p)); try (split; reflexivity).
  unfold bind. rewrite !probe_run, Hw.
  destruct (existsb _ workspaceIndicators); [split; reflexivity | apply IH].
Qed.

(** The detection runs the same in two states with the same world and
    environment, and leaves each as it is. *)
Lemma detectWorkspaceRoot_same_world (s s2 : state W L) (startPath : text) :
  world s2 = world s -> env s2 = env s ->
  detectWorkspaceRoot startPath s2 = (fst (detectWorkspaceRoot startPath s), s2).
Proof.
  intros Hw He. unfold detectWorkspaceRoot, bind, getEnv. rewrite He.
  destruct (climb_same_world s s2 (length (Path.resolve (cwd (env s)) startPath)) Hw
              (Path.resolve (cwd (env s)) startPath)) as [H2 H1].
  rewrite H2.
  destruct (climb _ _ s) as [[[root|]|error|] s0]; reflexivity.
Qed.

Lemma detectWorkspaceRoot_run (s : state W L) (startPath : text) :
  Path.isAbsolute (cwd (env s)) = true ->
  exists workspaceRoot,
    detectWorkspaceRoot startPath s = (Ok workspaceRoot, s) /\ workspaceRoot <> [].
Proof.
  intro Hcwd.
  destruct (climb_run s (length (Path.resolve (cwd (env s)) startPath)) _
              (resolve_absolute _ startPath Hcwd) (Nat.le_refl _)) as (found & Hrun & _).
  unfold detectWorkspaceRoot, bind, getEnv. rewrite Hrun.
  destruct found as [root|]; eexists; (split; [reflexivity|]).
  - destruct (climb_run s (length (Path.resolve (cwd (env s)) startPath)) _
                (resolve_absolute _ startPath Hcwd) (Nat.le_refl _))
      as (found' & Hrun' & [(k & Hk & _)|[Hk _]]);
      rewrite Hrun in Hrun'; injection Hrun' as <-; [|discriminate].
    injection Hk as ->. apply normalize_nonempty.
  - apply normalize_nonempty.
Qed.

Lemma nonEmpty_true (t : text) : t <> [] -> nonEmpty t = true.
Proof. destruct t; [congruence | reflexivity]. Qed.

Section RootsUpdate.
Variable Root : Type.
Variable getValidRootDirectories : list Root -> M W L (list text).

(** (X18) A roots update replaces the allow-list as a whole: by the
    validated roots when there are some; otherwise, in workspace mode, by
    the detected workspace root alone, whatever the list held before; and
    otherwise it leaves the list as it is.  In workspace mode the list is
    never empty after an update. *)
Theorem roots_update_replaces_allow_list (pe : processEnv) (s s1 : state W L)
    (requestedRoots : list Root) (validatedRootDirs : list text) :
  getValidRootDirectories requestedRoots s = (Ok validatedRootDirs, s1) ->
  Path.isAbsolute (cwd (env s1)) = true ->
  exists s',
    updateAllowedDirectoriesFromRoots getValidRootDirectories pe requestedRoots s =
      (Ok tt, s') /\
    world s' = world s1 /\
    (validatedRootDirs <> [] -> allowedDirectories s' = validatedRootDirs) /\
    (validatedRootDirs = [] -> ENABLE_WORKSPACE_MODE pe = true ->
       exists workspaceDir,
         detectWorkspaceRoot (WORKSPACE_ROOT pe (env s1)) s1 = (Ok workspaceDir, s1) /\
         allowedDirectories s' = [workspaceDir]) /\
    (validatedRootDirs = [] -> ENABLE_WORKSPACE_MODE pe = false ->
       allowedDirectories s' = allowedDirectories s1) /\
    (ENABLE_WORKSPACE_MODE pe = true -> allowedDirectories s' <> []).
Proof.
  intros Hvalid Hcwd.
  unfold updateAllowedDirectoriesFromRoots, bind. rewrite Hvalid.
  destruct validatedRootDirs as [|dir dirs].
  - cbn [length Nat.ltb Nat.leb].
    destruct (ENABLE_WORKSPACE_MODE pe) eqn:Emode.
    + destruct (detectWorkspaceRoot_run s1 (WORKSPACE_ROOT pe (env s1)) Hcwd)
        as (workspaceDir & Hrun & Hne).
      unfold try_catch, getEnv. rewrite Hrun, (nonEmpty_true _ Hne).
      eexists. split; [reflexivity|]. split; [reflexivity|].
      split; [congruence|]. split; [|split; [discriminate|]].
      * intros _ _. exists workspaceDir. split; [first [exact Hrun | reflexivity] | reflexivity].
      * intros _. discriminate.
    + exists s1. split; [reflexivity|]. split; [reflexivity|].
      split; [congruence|]. split; [discriminate|]. split; [reflexivity | discriminate].
  - eexists. split; [reflexivity|]. split; [reflexivity|].
    split; [reflexivity|]. split; [discriminate|]. split; [discriminate|].
    intros _. discriminate.
Qed.

End RootsUpdate.

Lemma resolveAllowedDirectory_run (s : state W L) (dir : text) :
  exists s',
    resolveAllowedDirectory dir s = (Ok (configuredDirectory (world s) (env s) dir), s') /\
    world s' = world s /\ env s' = env s /\ allowedDirectories s' = allowedDirectories s.
Proof.
  unfold resolveAllowedDirectory, configuredDirectory, absoluteOf, bind, getEnv, try_catch,
    realpath, reading.
  destruct (fs_realpath (world s) _) as [error|resolved]; cbn [lift];
    eexists; (split; [reflexivity | repeat split]).
Qed.

Lemma mapM_resolveAllowedDirectory (args : list text) :
  forall s : state W L,
  exists s',
    mapM resolveAllowedDirectory args s =
      (Ok (map (configuredDirectory (world s) (env s)) args), s') /\
    world s' = world s /\ env s' = env s /\ allowedDirectories s' = allowedDirectories s.
Proof.
  induction args as [|dir args IH]; intro s.
  - exists s. repeat split.
  - destruct (resolveAllowedDirectory_run s dir) as (s1 & H1 & Hw1 & He1 & Ha1).
    destruct (IH s1) as (s2 & H2 & Hw2 & He2 & Ha2).
    exists s2. cbn [mapM]. unfold bind. rewrite H1, H2, Hw1, He1.
    repeat split; congruence.
Qed.

Lemma initAllowedDirectories_run (pe : processEnv) (s : state W L) (args : list text) :
  Path.isAbsolute (cwd (env s)) = true ->
  exists s',
    initAllowedDirectories pe args s = (Ok tt, s') /\
    world s' = world s /\
    (args <> [] ->
       allowedDirectories s' = map (configuredDirectory (world s) (env s)) args) /\
    (args = [] -> ENABLE_WORKSPACE_MODE pe = true ->
       exists workspaceDir,
         detectWorkspaceRoot (WORKSPACE_ROOT pe (env s)) s = (Ok workspaceDir, s) /\
         allowedDirectories s' = [workspaceDir]) /\
    (args = [] -> ENABLE_WORKSPACE_MODE pe = false -> allowedDirectories s' = []) /\
    (args <> [] \/ ENABLE_WORKSPACE_MODE pe = true -> allowedDirectories s' <> []).
Proof.
  intro Hcwd.
  destruct (mapM_resolveAllowedDirectory args s) as (s1 & Hmap & Hw1 & He1 & Ha1).
  unfold initAllowedDirectories, bind. rewrite Hmap. unfold assignAllowedDirectories at 1.
  destruct args as [|dir args].
  - cbn [length Nat.eqb map]. rewrite andb_true_r.
    destruct (ENABLE_WORKSPACE_MODE pe) eqn:Emode.
    + destruct (detectWorkspaceRoot_run s (WORKSPACE_ROOT pe (env s)) Hcwd)
        as (workspaceDir & Hrun & Hne).
      unfold try_catch, bind, getEnv, getAllowedDirectories.
      cbn [env setAllowedDirectories]. rewrite He1.
      rewrite (detectWorkspaceRoot_same_world s (setAllowedDirectories [] s1)
                 (WORKSPACE_ROOT pe (env s)) Hw1 He1), Hrun.
      cbn [fst]. rewrite (nonEmpty_true _ Hne).
      eexists. split; [reflexivity|]. split; [exact Hw1|].
      split; [congruence|]. split; [|split; [discriminate|]].
      * intros _ _. exists workspaceDir. split; [first [exact Hrun | reflexivity] | reflexivity].
      * intros _. discriminate.
    + eexists. split; [reflexivity|]. split; [exact Hw1|].
      split; [congruence|]. split; [discriminate|]. split; [reflexivity|].
      intros [H|H]; [congruence | discriminate].
  - cbn [length Nat.eqb]. rewrite andb_false_r.
    eexists. split; [reflexivity|]. split; [exact Hw1|].
    split; [reflexivity|]. split; [discriminate|]. split; [discriminate|].
    intros _. discriminate.
Qed.

(** (X19) The allow-list computed at start: one entry for every directory
    of the command line, in order, a directory that does not resolve
    being kept by its normalised absolute path; with no directory on the
    command line, the detected workspace root alone in workspace mode,
    and nothing otherwise.  The computation never fails, and with a
    directory given or workspace mode on the list is not empty.  (The
    check that follows it at start, which ends the process when a
    directory of the command line is not an existing directory, is not
    part of this computation.) *)
Theorem initial_allow_list (pe : processEnv) (s : state W L) (args : list text) :
  Path.isAbsolute (cwd (env s)) = true ->
  exists s',
    initAllowedDirectories pe args s = (Ok tt, s') /\
    world s' = world s /\
    (args <> [] ->
       allowedDirectories s' = map (configuredDirectory (world s) (env s)) args) /\
    (args = [] -> ENABLE_WORKSPACE_MODE pe = true ->
       exists workspaceDir,
         detectWorkspaceRoot (WORKSPACE_ROOT pe (env s)) s = (Ok workspaceDir, s) /\
         allowedDirectories s' = [workspaceDir]) /\
    (args = [] -> ENABLE_WORKSPACE_MODE pe = false -> allowedDirectories s' = []) /\
    (args <> [] \/ ENABLE_WORKSPACE_MODE pe = true -> allowedDirectories s' <> []).
Proof. exact (initAllowedDirectories_run pe s args). Qed.

End AllowList.

Lemma detectWorkspaceRoot_finds_nearest_indicator_witness :
  let tree :=
    MemFS.Dir [(".git" : text, MemFS.Dir []);
               ("proj" : text,
                MemFS.Dir [("package.json" : text, MemFS.File "{}");
                           ("src" : text, MemFS.Dir [("lib" : text, MemFS.Dir [])])]);
               ("tmp" : text, MemFS.Dir [])] in
  let s := MemFS.boot tree [] in
  (exists workspaceRoot,
     detectWorkspaceRoot "/proj/src/lib" s = (Ok workspaceRoot, s) /\
     workspaceRoot = ("/proj" : text)) /\
  (exists workspaceRoot,
     detectWorkspaceRoot "tmp/." s = (Ok workspaceRoot, s) /\
     workspaceRoot = ("tmp" : text)).
Proof.
  intros tree s. split.
  - destruct (detectWorkspaceRoot_finds_nearest_indicator s "/proj/src/lib")
      as (workspaceRoot & Hrun & _); [vm_compute; reflexivity|].
    exists workspaceRoot. split; [exact Hrun|].
    assert (Hc : detectWorkspaceRoot "/proj/src/lib" s = (Ok ("/proj" : text), s))
      by (vm_compute; reflexivity).
    pose proof (eq_trans (eq_sym Hrun) Hc) as E. now injection E.
  - destruct (detectWorkspaceRoot_finds_nearest_indicator s "tmp/.")
      as (workspaceRoot & Hrun & _); [vm_compute; reflexivity|].
    exists workspaceRoot. split; [exact Hrun|].
    assert (Hc : detectWorkspaceRoot "tmp/." s = (Ok ("tmp" : text), s))
      by (vm_compute; reflexivity).
    pose proof (eq_trans (eq_sym Hrun) Hc) as E. now injection E.
Defined.

Lemma roots_update_replaces_allow_list_witness :
  let pe := {| env_ENABLED_TOOLS := None; env_WORKSPACE_ROOT := None;
               env_PWD := Some ("/ws/sub" : text); env_ENABLE_WORKSPACE_MODE := None;
               env_MORPH_API_KEY := None |} in
  let getValid : list text -> M MemFS.node unit (list text) := fun roots => ret roots in
  allowedDirectories Scenario.initial = ["/ws" : text] /\
  (exists s',
     updateAllowedDirectoriesFromRoots getValid pe ["/etc" : text] Scenario.initial =
       (Ok tt, s') /\
     allowedDirectories s' = ["/etc" : text]) /\
  (exists s',
     updateAllowedDirectoriesFromRoots getValid pe [] Scenario.initial = (Ok tt, s') /\
     allowedDirectories s' = ["/ws/sub" : text]).
Proof.
  intros pe getValid. split; [reflexivity|]. split.
  - destruct (roots_update_replaces_allow_list text getValid pe Scenario.initial
                Scenario.initial ["/etc" : text] ["/etc" : text] eq_refl
                ltac:(vm_compute; reflexivity))
      as (s' & Hrun & _ & Hsome & _).
    exists s'. split; [exact Hrun | apply Hsome; discriminate].
  - destruct (roots_update_replaces_allow_list text getValid pe Scenario.initial
                Scenario.initial [] [] eq_refl ltac:(vm_compute; reflexivity))
      as (s' & Hrun & _ & _ & Hnone & _).
    exists s'. split; [exact Hrun|].
    destruct (Hnone eq_refl ltac:(vm_compute; reflexivity)) as (workspaceDir & Hd & ->).
    assert (Hc : detectWorkspaceRoot (WORKSPACE_ROOT pe (env Scenario.initial))
                   Scenario.initial = (Ok ("/ws/sub" : text), Scenario.initial))
      by (vm_compute; reflexivity).
    pose proof (eq_trans (eq_sym Hd) Hc) as E. now injection E as ->.
Defined.

Lemma initial_allow_list_witness :
  let pe := {| env_ENABLED_TOOLS := None; env_WORKSPACE_ROOT := None;
               env_PWD := None; env_ENABLE_WORKSPACE_MODE := Some ("false" : text);
               env_MORPH_API_KEY := None |} in
  exists s',
    initAllowedDirectories pe ["/ws/link" : text; "/nowhere/x/" : text] Scenario.initial =
      (Ok tt, s') /\
    allowedDirectories s' = ["/etc" : text; "/nowhere/x" : text].
Proof.
  intro pe.
  destruct (initial_allow_list pe Scenario.initial ["/ws/link" : text; "/nowhere/x/" : text]
              ltac:(vm_compute; reflexivity))
    as (s' & Hrun & _ & Hargs & _).
  exists s'. split; [exact Hrun|]. rewrite Hargs by discriminate.
  vm_compute; reflexivity.
Defined.

(** ** Editing, the file as a whole *)

(** (X20) An edit request without edits still rewrites the file: the
    content read, with every carriage return and newline pair replaced by
    a newline, is written to the temporary file and renamed onto the
    file. *)
Theorem edit_without_edits_rewrites_the_file {W} {FS : FileSystem W} {PK : Packages} {L}
    (s : state W L) (filePath raw : text) (w2 w3 : W) :
  fs_readFile (world s) filePath = inr raw ->
  let content := normalizeLineEndings raw in
  let tempPath := tempPathFor filePath (drawBytes s 16) in
  fs_writeFile (world s) tempPath content FlagW = (w2, inr tt) ->
  fs_rename w2 tempPath filePath = (w3, inr tt) ->
  exists s',
    applyFileEdits filePath [] false s =
      (Ok (formatDiff (createUnifiedDiff content content filePath)), s') /\
    world s' = w3 /\
    trace s' = trace s ++ [CallReadFile filePath;
                           CallWriteFile tempPath content FlagW;
                           CallRename tempPath filePath].
Proof.
  intros Hread content tempPath Hw Hr.
  destruct (writeViaRename_succeeds (record (CallReadFile filePath) s) filePath content
              w2 w3 Hw Hr) as (s' & Hrun & Hworld & Htrace).
  exists s'. split; [|split; [exact Hworld|]].
  - unfold applyFileEdits. unfold bind at 1. unfold readFile, reading.
    rewrite Hread. cbn [lift applyEdits]. fold content. unfold bind. now rewrite Hrun.
  - rewrite Htrace. simpl. now rewrite <- app_assoc.
Qed.

Lemma edit_without_edits_rewrites_the_file_witness :
  let tree :=
    MemFS.Dir [("ws" : text,
                MemFS.Dir [("crlf.txt" : text,
                            MemFS.File ("a" ++ [JS.CR; JS.LF] ++ "b"))])] in
  let s := MemFS.boot tree ["/ws" : text] in
  exists s',
    fst (applyFileEdits "/ws/crlf.txt" [] false s) =
      Ok (formatDiff (createUnifiedDiff ("a" ++ nl ++ "b") ("a" ++ nl ++ "b") "/ws/crlf.txt")) /\
    snd (applyFileEdits "/ws/crlf.txt" [] false s) = s' /\
    MemFS.readFile (world s') "/ws/crlf.txt" = inr ("a" ++ nl ++ "b").
Proof.
  intros tree s.
  pose (tempPath := tempPathFor "/ws/crlf.txt" (drawBytes s 16)).
  pose (w2 := fst (MemFS.writeFile tree tempPath ("a" ++ nl ++ "b") FlagW)).
  pose (w3 := fst (MemFS.rename w2 tempPath "/ws/crlf.txt")).
  destruct (edit_without_edits_rewrites_the_file s "/ws/crlf.txt"
              ("a" ++ [JS.CR; JS.LF] ++ "b") w2 w3)
    as (s' & Hrun & Hworld & _); try (vm_compute; reflexivity).
  exists s'. rewrite Hrun. split; [reflexivity|]. split; [reflexivity|].
  rewrite Hworld. vm_compute; reflexivity.
Defined.

(** ** Searching, the pattern *)

Lemma forEach_ext {W L A} (f g : A -> M W L unit) (xs : list A) :
  (forall x s, In x xs -> f x s = g x s) ->
  forall s, forEach xs f s = forEach xs g s.
Proof.
  induction xs as [|x xs IH]; intros H s; [reflexivity|].
  cbn [forEach]. unfold bind. rewrite (H x s (or_introl eq_refl)).
  destruct (g x s) as [[[]|error|] s1]; try reflexivity.
  apply IH. intros y s2 Hy. apply H. now right.
Qed.

Lemma bind_cong {W L A B} (m : M W L A) (k1 k2 : A -> M W L B) (s : state W L) :
  (forall a s', k1 a s' = k2 a s') -> bind m k1 s = bind m k2 s.
Proof.
  intro H. unfold bind. destruct (m s) as [[a|error|] s']; [apply H | reflexivity | reflexivity].
Qed.

Lemma try_catch_cong {W L A} (body1 body2 : M W L A) (handler : error -> M W L A)
    (s : state W L) :
  body1 s = body2 s -> try_catch body1 handler s = try_catch body2 handler s.
Proof. intro H. unfold try_catch. now rewrite H. Qed.

Lemma search_pattern_ext {W} {FS : FileSystem W} {PK : Packages}
    (rootPath pattern1 pattern2 : text) (excludePatterns : list text) :
  JS.toLowerCase pattern1 = JS.toLowerCase pattern2 ->
  forall fuel currentPath s,
    search fuel rootPath pattern1 excludePatterns currentPath s =
    search fuel rootPath pattern2 excludePatterns currentPath s.
Proof.
  intro Hlower. induction fuel as [|fuel IH]; intros currentPath s; [reflexivity|].
  cbn [search]. apply bind_cong. intros entries s1.
  apply forEach_ext. intros entry s2 _.
  apply try_catch_cong. apply bind_cong. intros validPath s3.
  apply bind_cong. intros e s4. cbv zeta. rewrite Hlower.
  destruct (existsb _ excludePatterns); [reflexivity|].
  apply bind_cong. intros [] s5.
  destruct (isDirectory entry); [apply IH | reflexivity].
Qed.

(** (X21) The search ignores the case of the pattern: two patterns with
    the same lower-case form give the same results, the same calls and
    the same final state. *)
Theorem search_is_case_insensitive {W} {FS : FileSystem W} {PK : Packages} {L}
    (s : state W L) (fuel : nat) (rootPath pattern1 pattern2 : text)
    (excludePatterns : list text) :
  JS.toLowerCase pattern1 = JS.toLowerCase pattern2 ->
  searchFiles fuel rootPath pattern1 excludePatterns s =
  searchFiles fuel rootPath pattern2 excludePatterns s.
Proof.
  intro Hlower. unfold searchFiles, bind, scoped.
  now rewrite (search_pattern_ext rootPath pattern1 pattern2 excludePatterns Hlower).
Qed.

Lemma search_is_case_insensitive_witness :
  searchFiles 4 "/ws" "PASS" [] Scenario.initial =
  searchFiles 4 "/ws" "pass" [] Scenario.initial /\
  fst (searchFiles 4 "/ws" "B.TXT" [] Scenario.initial) = Ok ["/ws/sub/b.txt" : text].
Proof.
  split; [|vm_compute; reflexivity].
  apply (search_is_case_insensitive Scenario.initial 4 "/ws" "PASS" "pass" []).
  vm_compute; reflexivity.
Defined.

(** ** Head and tail, further properties *)

Lemma join_split (s : text) : JS.join nl (JS.split JS.LF s) = s.
Proof.
  induction s as [|c s IH]; [reflexivity|]. rewrite split_cons.
  destruct (Ascii.eqb c JS.LF) eqn:E.
  - apply Ascii.eqb_eq in E. subst c.
    destruct (JS.split JS.LF s) as [|l ls] eqn:Es; [exfalso; exact (split_nonempty _ _ Es)|].
    change (JS.join nl ([] :: l :: ls)) with (JS.LF :: JS.join nl (l :: ls)).
    now rewrite IH.
  - destruct (JS.split JS.LF s) as [|l ls] eqn:Es; [exfalso; exact (split_nonempty _ _ Es)|].
    rewrite <- IH. destruct ls; reflexivity.
Qed.

Lemma join_snoc (sep : text) (ls : list text) (x : text) :
  ls <> [] -> JS.join sep (ls ++ [x]) = JS.join sep ls ++ sep ++ x.
Proof.
  induction ls as [|l ls IH]; [congruence|]. intros _.
  destruct ls as [|l' ls]; [reflexivity|].
  change (JS.join sep ((l :: l' :: ls) ++ [x])) with (l ++ sep ++ JS.join sep ((l' :: ls) ++ [x])).
  rewrite IH by discriminate.
  change (JS.join sep (l :: l' :: ls)) with (l ++ sep ++ JS.join sep (l' :: ls)).
  now rewrite <- !app_assoc.
Qed.

Lemma tailFile_run {W} {FS : FileSystem W} {L}
    (s : state W L) (filePath : text) (numLines : Z) (stats : Stats) (content : text) :
  fs_stat (world s) filePath = inr stats -> size stats = length content ->
  fs_open (world s) filePath = inr content ->
  ~ In JS.CR content ->
  exists s',
    tailFile filePath numLines s =
      (Ok (JS.join nl (lastn (Z.to_nat numLines) (segmentsOf content))), s') /\
    world s' = world s.
Proof.
  intros Hstat Hsize Hopen Hcr.
  unfold tailFile, bind, stat, reading. rewrite Hstat. cbn [lift].
  rewrite Hsize. destruct (Nat.eqb_spec (length content) 0) as [Hz|Hnz].
  - apply length_zero_iff_nil in Hz. subst content.
    exists (record (CallStat filePath) s). split; [|reflexivity].
    unfold ret. do 2 f_equal. unfold lastn. simpl. now destruct (Z.to_nat numLines).
  - unfold open, reading. cbn [world record]. rewrite Hopen. cbn [lift].
    unfold try_finally.
    assert (Ht : tailLoop (length content) content numLines (length content) [] 0 [] =
                 Some (lastn (Z.to_nat numLines) (segmentsOf content))).
    { apply (tailLoop_spec content numLines Hcr (length content)
               (length content) [] [] []); try lia; try reflexivity.
      now rewrite skipn_all. }
    rewrite Ht. eexists. split; reflexivity.
Qed.

Lemma headFile_run {W} {FS : FileSystem W} {L}
    (s : state W L) (filePath : text) (numLines : Z) (content : text) :
  fs_open (world s) filePath = inr content ->
  exists s',
    headFile filePath numLines s =
      (Ok (JS.join nl (firstn (Z.to_nat numLines) (linesOf content))), s') /\
    world s' = world s.
Proof.
  intro Hopen.
  unfold headFile, bind, open, reading. rewrite Hopen. cbn [lift].
  unfold try_finally.
  assert (Hloop := headLoop_spec content numLines (S (length content)) 0 [] [] []
                     (Nat.le_0_l _) ltac:(lia) eq_refl
                     ltac:(now rewrite firstn_nil)).
  destruct Hloop as ([lines buffer] & Hrun & Hfinish).
  rewrite Hrun. cbn [fst snd] in Hfinish. rewrite Hfinish.
  eexists. split; reflexivity.
Qed.

Lemma split_newline_at_end (c : text) :
  JS.split JS.LF (c ++ [JS.LF]) = JS.split JS.LF c ++ [[]].
Proof. exact (split_at_separator JS.LF c []). Qed.

Lemma chomp_newline (h : text) : chomp (h ++ nl) = h.
Proof.
  unfold chomp, nl. rewrite rev_app_distr. simpl.
  change (Ascii.eqb JS.LF JS.LF) with true. cbv iota. apply rev_involutive.
Qed.

(** A content whose last segment is not empty does not end with a newline. *)
Lemma chomp_without_final_newline (content : text) :
  last (segmentsOf content) [] <> [] -> chomp content = content.
Proof.
  intro Hlast. unfold chomp.
  destruct (rev content) as [|c r] eqn:E; [reflexivity|].
  destruct (Ascii.eqb c JS.LF) eqn:Ec; [|reflexivity].
  exfalso. apply Hlast. apply Ascii.eqb_eq in Ec. subst c.
  assert (Hc : content = rev r ++ [JS.LF]).
  { rewrite <- (rev_involutive content), E. reflexivity. }
  unfold segmentsOf. rewrite Hc, split_newline_at_end. apply last_last.
Qed.

(** (X22) With a count that is at least the number of newline-separated
    segments of a file of ASCII text without carriage returns, [tailFile]
    returns the content as it is, and [headFile] returns the content
    without the newline it ends with, if it ends with one. *)
Theorem large_count_returns_the_file {W} {FS : FileSystem W} {L}
    (s : state W L) (filePath : text) (numLines : Z) (stats : Stats) (content : text) :
  fs_stat (world s) filePath = inr stats -> size stats = length content ->
  fs_open (world s) filePath = inr content ->
  asciiText content ->
  ~ In JS.CR content ->
  length (segmentsOf content) <= Z.to_nat numLines ->
  fst (tailFile filePath numLines s) = Ok content /\
  fst (headFile filePath numLines s) = Ok (chomp content).
Proof.
  intros Hstat Hsize Hopen _ Hcr Hcount. split.
  - destruct (tailFile_run s filePath numLines stats content Hstat Hsize Hopen Hcr)
      as (s' & -> & _).
    cbn [fst]. rewrite lastn_all by exact Hcount. unfold segmentsOf. now rewrite join_split.
  - destruct (headFile_run s filePath numLines content Hopen) as (s' & -> & _).
    cbn [fst]. f_equal.
    pose proof (segmentsOf_linesOf content) as Hseg.
    assert (Hlen : length (linesOf content) <= Z.to_nat numLines).
    { apply (f_equal (@length text)) in Hseg. rewrite length_app in Hseg. lia. }
    rewrite firstn_all2 by exact Hlen.
    pose proof (join_split content) as Hjoin. fold (segmentsOf content) in Hjoin.
    pose proof (chomp_without_final_newline content) as Hchomp.
    rewrite Hseg in Hjoin.
    destruct (last (segmentsOf content) []).
    + destruct (linesOf content) as [|l ls] eqn:El.
      * rewrite <- Hjoin. reflexivity.
      * rewrite join_snoc in Hjoin by discriminate.
        rewrite app_nil_r in Hjoin. rewrite <- Hjoin. symmetry. apply chomp_newline.
    + rewrite app_nil_r in Hjoin. rewrite Hjoin. symmetry. apply Hchomp. discriminate.
Qed.

Lemma large_count_returns_the_file_witness :
  fst (tailFile "/ws/a.txt" 3 Scenario.initial) = Ok ("foo" ++ nl ++ "bar" ++ nl) /\
  fst (headFile "/ws/a.txt" 3 Scenario.initial) = Ok ("foo" ++ nl ++ "bar").
Proof.
  apply (large_count_returns_the_file Scenario.initial "/ws/a.txt" 3
           {| size := 8; stat_isDirectory := false; stat_isFile := true |}
           ("foo" ++ nl ++ "bar" ++ nl));
    try (vm_compute; reflexivity).
  - repeat constructor.
  - vm_compute. intuition discriminate.
Defined.

Lemma tailFile_returns_last_segments_witness :
  fst (tailFile "/ws/sub/b.txt" 1 Scenario.initial) = Ok ("hello" : text) /\
  fst (tailFile "/ws/a.txt" 2 Scenario.initial) = Ok ("bar" ++ nl).
Proof.
  split.
  - refine (proj1 (tailFile_returns_last_segments Scenario.initial "/ws/sub/b.txt" 1
                     {| size := 5; stat_isDirectory := false; stat_isFile := true |}
                     "hello" _ _ _ _ _)); try (vm_compute; reflexivity).
    + repeat constructor.
    + vm_compute. intuition discriminate.
  - refine (proj1 (tailFile_returns_last_segments Scenario.initial "/ws/a.txt" 2
                     {| size := 8; stat_isDirectory := false; stat_isFile := true |}
                     ("foo" ++ nl ++ "bar" ++ nl) _ _ _ _ _)); try (vm_compute; reflexivity).
    + repeat constructor.
    + vm_compute. intuition discriminate.
Defined.

Lemma headFile_returns_first_lines_witness :
  fst (headFile "/ws/a.txt" 1 Scenario.initial) = Ok ("foo" : text).
Proof.
  refine (proj1 (headFile_returns_first_lines Scenario.initial "/ws/a.txt" 1
                   ("foo" ++ nl ++ "bar" ++ nl) _ _)).
  - vm_compute; reflexivity.
  - repeat constructor.
Defined.

(** ** Tools that only read *)

Lemma keeps_ret {W L A} (a : A) : keepsWorld (ret a : M W L A).
Proof. intro s. reflexivity. Qed.

Lemma keeps_throw {W L A} (e : error) : keepsWorld (throw e : M W L A).
Proof. intro s. reflexivity. Qed.

Lemma keeps_outOfFuel {W L A} : keepsWorld (outOfFuel : M W L A).
Proof. intro s. reflexivity. Qed.

Lemma keeps_bind {W L A B} (m : M W L A) (k : A -> M W L B) :
  keepsWorld m -> (forall a, keepsWorld (k a)) -> keepsWorld (bind m k).
Proof.
  intros Hm Hk s. unfold bind. specialize (Hm s).
  destruct (m s) as [[a|error|] s1]; cbn [snd] in *; [|exact Hm|exact Hm].
  now rewrite Hk.
Qed.

Lemma keeps_try_catch {W L A} (body : M W L A) (handler : error -> M W L A) :
  keepsWorld body -> (forall e, keepsWorld (handler e)) -> keepsWorld (try_catch body handler).
Proof.
  intros Hb Hh s. unfold try_catch. specialize (Hb s).
  destruct (body s) as [[a|error|] s1]; cbn [snd] in *; [exact Hb| |exact Hb].
  now rewrite Hh.
Qed.

Lemma keeps_try_finally {W L A} (body : M W L A) (fin : M W L unit) :
  keepsWorld body -> keepsWorld fin -> keepsWorld (try_finally body fin).
Proof.
  intros Hb Hf s. unfold try_finally. specialize (Hb s).
  destruct (body s) as [r s1]. cbn [snd] in *. now rewrite Hf.
Qed.

Lemma keeps_reading {W} {FS : FileSystem W} {L A} (c : fs_call) (f : W -> result A) :
  keepsWorld (reading c f : M W L A).
Proof. intro s. reflexivity. Qed.

Lemma keeps_close {W} {FS : FileSystem W} {L} (p : text) : keepsWorld (close p : M W L unit).
Proof. intro s. reflexivity. Qed.

Lemma keeps_getEnv {W} {FS : FileSystem W} {L} : keepsWorld (getEnv : M W L environment).
Proof. intro s. reflexivity. Qed.

Lemma keeps_getAllowedDirectories {W} {FS : FileSystem W} {L} :
  keepsWorld (getAllowedDirectories : M W L (list text)).
Proof. intro s. reflexivity. Qed.

Lemma keeps_modifyLocals {W} {FS : FileSystem W} {L} (f : L -> L) :
  keepsWorld (modifyLocals f : M W L unit).
Proof. intro s. reflexivity. Qed.

Lemma keeps_forEach {W} {FS : FileSystem W} {L A} (xs : list A) (body : A -> M W L unit) :
  (forall x, keepsWorld (body x)) -> keepsWorld (forEach xs body).
Proof.
  intro H. induction xs as [|x xs IH]; [apply keeps_ret|].
  cbn [forEach]. apply keeps_bind; [apply H | intros _; exact IH].
Qed.

Lemma keeps_scoped {W L L' A} (init : L') (body : M W L' A) :
  keepsWorld body -> keepsWorld (scoped init body : M W L (A * L')).
Proof.
  intros Hb s. unfold scoped. specialize (Hb (setLocals init s)).
  destruct (body (setLocals init s)) as [r s1]. exact Hb.
Qed.

Lemma keeps_validatePath {W} {FS : FileSystem W} {L} (p : text) :
  keepsWorld (validatePath p : M W L text).
Proof. intro s. now rewrite validatePath_run. Qed.

Ltac keeps_step :=
  first
    [ apply keeps_ret | apply keeps_throw | apply keeps_outOfFuel
    | apply keeps_validatePath | apply keeps_reading | apply keeps_close
    | apply keeps_getEnv | apply keeps_getAllowedDirectories | apply keeps_modifyLocals
    | apply keeps_bind; [|intro]
    | apply keeps_try_catch; [|intro]
    | apply keeps_try_finally
    | apply keeps_forEach; intro
    | apply keeps_scoped
    | match goal with
      | |- keepsWorld (if ?b then _ else _) => destruct b
      | |- keepsWorld (match ?x with _ => _ end) => destruct x
      | |- keepsWorld (let _ := _ in _) => cbv zeta
      end ].

Lemma keeps_search {W} {FS : FileSystem W} {PK : Packages}
    (rootPath pattern : text) (excludePatterns : list text) (fuel : nat) :
  forall currentPath,
    keepsWorld (search fuel rootPath pattern excludePatterns currentPath).
Proof.
  induction fuel as [|fuel IH]; intro currentPath; cbn [search]; [apply keeps_outOfFuel|].
  unfold readdir. repeat keeps_step. apply IH.
Qed.

Lemma keeps_tailFile {W} {FS : FileSystem W} {L} (p : text) (n : Z) :
  keepsWorld (tailFile p n : M W L text).
Proof. unfold tailFile, stat, open. repeat keeps_step. Qed.

Lemma keeps_headFile {W} {FS : FileSystem W} {L} (p : text) (n : Z) :
  keepsWorld (headFile p n : M W L text).
Proof. unfold headFile, open. repeat keeps_step. Qed.

(** (X23) The reading tools never write: whatever the arguments and
    however the call ends, [read_file], [list_directory], [search_files]
    and [list_allowed_directories] leave the file system as it was. *)
Theorem reading_tools_never_write {W} {FS : FileSystem W} {PK : Packages} {L}
    (r : request) (s : state W L) :
  readsOnly r = true ->
  world (snd (callTool r s)) = world s /\
  world (snd (dispatch r s)) = world s.
Proof.
  intro Hr.
  assert (Hd : keepsWorld (dispatch r : M W L text)).
  { destruct r; try discriminate; cbn [dispatch].
    - unfold handle_read_file, readFile. repeat keeps_step;
        first [apply keeps_tailFile | apply keeps_headFile].
    - unfold handle_list_directory, readdir. repeat keeps_step.
    - unfold handle_search_files, searchFiles. repeat keeps_step. apply keeps_search.
    - unfold handle_list_allowed_directories. repeat keeps_step. }
  split; [|apply Hd].
  unfold callTool. revert s. change (keepsWorld (callTool r : M W L response)).
  unfold callTool. repeat keeps_step. exact Hd.
Qed.

Lemma reading_tools_never_write_witness :
  let r := read_file {| rf_path := "/ws/a.txt"; rf_tail := Some 2%Z; rf_head := None |} in
  world (snd (callTool r Scenario.initial)) = Scenario.tree /\
  fst (callTool r Scenario.initial) = Ok {| content := "bar" ++ nl; isError := false |}.
Proof.
  intro r. split; [|vm_compute; reflexivity].
  exact (proj1 (reading_tools_never_write r Scenario.initial eq_refl)).
Defined.

(** ** The preview of an edit *)

(** (X24) A dry run previews the edit: when the write of the real run
    succeeds, both runs return the same text, and when an edit does not
    apply both fail with the same error.  The dry run makes one call, the
    read. *)
Theorem dry_run_previews_the_edit {W} {FS : FileSystem W} {PK : Packages} {L}
    (s : state W L) (filePath raw : text) (edits : list EditOperation) :
  fs_readFile (world s) filePath = inr raw ->
  let tempPath := tempPathFor filePath (drawBytes s 16) in
  (forall final,
      applyEdits (normalizeLineEndings raw) edits = inr final ->
      exists w2 w3,
        fs_writeFile (world s) tempPath final FlagW = (w2, inr tt) /\
        fs_rename w2 tempPath filePath = (w3, inr tt)) ->
  fst (applyFileEdits filePath edits true s) = fst (applyFileEdits filePath edits false s) /\
  snd (applyFileEdits filePath edits true s) = record (CallReadFile filePath) s.
Proof.
  intros Hread tempPath Hwrite.
  unfold applyFileEdits. unfold bind at 1 3 5. unfold readFile, reading.
  rewrite Hread. cbn [lift].
  destruct (applyEdits (normalizeLineEndings raw) edits) as [edit|final] eqn:E.
  - split; reflexivity.
  - destruct (Hwrite final eq_refl) as (w2 & w3 & Hw & Hr).
    destruct (writeViaRename_succeeds (record (CallReadFile filePath) s) filePath final
                w2 w3 Hw Hr) as (s' & Hrun & _).
    unfold bind. rewrite Hrun. split; reflexivity.
Qed.

Lemma dry_run_previews_the_edit_witness :
  let edits := [{| oldText := "foo"; newText := "baz" |}] in
  fst (applyFileEdits "/ws/a.txt" edits true Scenario.initial) =
  fst (applyFileEdits "/ws/a.txt" edits false Scenario.initial) /\
  world (snd (applyFileEdits "/ws/a.txt" edits true Scenario.initial)) = Scenario.tree.
Proof.
  intro edits.
  destruct (dry_run_previews_the_edit Scenario.initial "/ws/a.txt"
              ("foo" ++ nl ++ "bar" ++ nl) edits) as [Hsame Hstate].
  - vm_compute; reflexivity.
  - intros final Hfinal.
    assert (Hf : applyEdits (normalizeLineEndings ("foo" ++ nl ++ "bar" ++ nl)) edits =
                 inr ("baz" ++ nl ++ "bar" ++ nl)) by (vm_compute; reflexivity).
    rewrite Hf in Hfinal. injection Hfinal as <-.
    eexists _, _. split; vm_compute; reflexivity.
  - split; [exact Hsame | now rewrite Hstate].
Defined.

(** ** Validation comes first *)

Lemma validates_false {W} {FS : FileSystem W} (w : W) (e : environment) (p : text) :
  validates w e p = false -> exists error, validateOutcome w e p = Throw error.
Proof.
  unfold validates. pose proof (validateOutcome_not_OutOfFuel w e p) as H.
  destruct (validateOutcome w e p) as [v|error|]; [discriminate | now exists error | congruence].
Qed.

Lemma invalid_first_path {W} {FS : FileSystem W} {L A}
    (s : state W L) (p : text) (k : text -> M W L A) :
  validates (world s) (env s) p = false ->
  exists error s',
    bind (validatePath p) k s = (Throw error, s') /\
    world s' = world s /\
    exists calls, trace s' = trace s ++ calls /\ Forall isRealpathCall calls.
Proof.
  intro H. destruct (validates_false _ _ _ H) as [error E].
  unfold bind. rewrite validatePath_run, E.
  exists error. eexists. split; [reflexivity|]. split; [reflexivity|].
  eexists. split; [reflexivity | apply validateCalls_realpath].
Qed.

(** (X28) Validation comes first in [read_file], [write_file],
    [tiny_edit_file], [create_directory], [list_directory], [move_file] and
    [search_files]: when one of the paths of such a request does not
    validate, its case throws, the file system is left as it was, and no
    call other than [realpath] has been made.  (The request then ends in
    the [ReferenceError] of the handler's [catch] block, as for every
    error of a tool.) *)
Theorem invalid_path_changes_nothing {W} {FS : FileSystem W} {PK : Packages} {L}
    (r : request) (s : state W L) (p : text) :
  In p (pathsOf r) ->
  validates (world s) (env s) p = false ->
  exists error s',
    dispatch r s = (Throw error, s') /\
    callTool r s = (Throw (ReferenceError "name is not defined"), s') /\
    world s' = world s /\
    exists calls, trace s' = trace s ++ calls /\ Forall isRealpathCall calls.
Proof.
  intros Hin Hinvalid.
  assert (Hd : exists error s',
             dispatch r s = (Throw error, s') /\ world s' = world s /\
             exists calls, trace s' = trace s ++ calls /\ Forall isRealpathCall calls).
  { destruct r as [a|a|a|q|q|a|fuel a|]; cbn [pathsOf] in Hin; cbn [dispatch].
    - destruct Hin as [<-|[]]. now apply invalid_first_path.
    - destruct Hin as [<-|[]]. unfold handle_write_file. now apply invalid_first_path.
    - destruct Hin as [<-|[]]. now apply invalid_first_path.
    - destruct Hin as [<-|[]]. now apply invalid_first_path.
    - destruct Hin as [<-|[]]. now apply invalid_first_path.
    - destruct Hin as [<-|[<-|[]]]; [now apply invalid_first_path|].
      unfold handle_move_file.
      destruct (validates (world s) (env s) (mv_source a)) eqn:Hsource;
        [|now apply invalid_first_path].
      unfold bind at 1. rewrite validatePath_run.
      unfold validates in Hsource.
      destruct (validateOutcome (world s) (env s) (mv_source a)) as [validSource|e0|];
        try discriminate.
      destruct (invalid_first_path
                  (extend (validateCalls (world s) (env s) (mv_source a)) s)
                  (mv_destination a)
                  (fun validDestPath =>
                     rename validSource validDestPath ;;;
                     ret ("Successfully moved " ++ mv_source a ++ " to " ++ mv_destination a))
                  Hinvalid)
        as (error & s' & Hrun & Hw & calls & Htrace & Hcalls).
      exists error, s'. split; [exact Hrun|]. split; [exact Hw|].
      eexists. split.
      + rewrite Htrace. cbn [trace extend]. rewrite <- app_assoc. reflexivity.
      + apply Forall_app. split; [apply validateCalls_realpath | exact Hcalls].
    - destruct Hin as [<-|[]]. now apply invalid_first_path.
    - destruct Hin. }
  destruct Hd as (error & s' & Hrun & Hw & Hcalls).
  exists error, s'. split; [exact Hrun|]. split; [|split; [exact Hw | exact Hcalls]].
  unfold callTool, try_catch, bind. now rewrite Hrun.
Qed.

Lemma invalid_path_changes_nothing_witness :
  let r := move_file {| mv_source := "/ws/a.txt"; mv_destination := "/ws/none/b.txt" |} in
  exists s',
    dispatch r Scenario.initial =
      (Throw (Error "Parent directory does not exist: /ws/none"), s') /\
    callTool r Scenario.initial = (Throw (ReferenceError "name is not defined"), s') /\
    world s' = Scenario.tree.
Proof.
  intro r.
  destruct (invalid_path_changes_nothing (PK := Demo.packages) r Scenario.initial
              "/ws/none/b.txt")
    as (error & s' & Hrun & Hcall & Hw & _).
  - right. now left.
  - vm_compute; reflexivity.
  - exists s'. split; [|split; [exact Hcall | exact Hw]].
    assert (Hc : dispatch r Scenario.initial =
                 (Throw (Error "Parent directory does not exist: /ws/none"),
                  snd (dispatch r Scenario.initial))) by (vm_compute; reflexivity).
    rewrite Hrun in Hc. injection Hc as ->. exact Hrun.
Defined.

(** ** Start without a client that knows roots *)

Section Initialized.
Context {W : Type} {FS : FileSystem W} {FA : FileAccess W} {L : Type}.
Variable Root : Type.
Variable getValidRootDirectories : list Root -> M W L (list text).
Variable listRoots : M W L (option (list Root)).

(** (X29) With a client that does not support roots, [oninitialized], run
    on the allow-list computed at start, refuses to operate exactly when
    the server was started without a directory on the command line and
    with workspace mode switched off; in every other case it passes and
    the allow-list is not empty. *)
Theorem server_refuses_without_directories (pe : processEnv) (s : state W L)
    (args : list text) :
  Path.isAbsolute (cwd (env s)) = true ->
  let run := (initAllowedDirectories pe args ;;;
              oninitialized getValidRootDirectories listRoots pe false) s in
  ((exists error, fst run = Throw error) <->
   args = [] /\ ENABLE_WORKSPACE_MODE pe = false) /\
  (fst run = Ok tt -> allowedDirectories (snd run) <> []) /\
  fst run <> OutOfFuel.
Proof.
  intros Hcwd run.
  destruct (initAllowedDirectories_run pe s args Hcwd)
    as (s' & Hinit & Hw & Hargs & Hws & Hoff & Hne).
  assert (Hrun : run =
            if 0 <? length (allowedDirectories s') then (Ok tt, s')
            else if ENABLE_WORKSPACE_MODE pe then (Ok tt, s')
            else (oninitialized getValidRootDirectories listRoots pe false) s').
  { subst run. unfold bind at 1. rewrite Hinit.
    unfold oninitialized, bind, getAllowedDirectories.
    destruct (0 <? length (allowedDirectories s')); [reflexivity|].
    destruct (ENABLE_WORKSPACE_MODE pe); reflexivity. }
  rewrite Hrun. clear Hrun run.
  destruct (allowedDirectories s') as [|d ds] eqn:Ea; cbn [length Nat.ltb Nat.leb].
  - destruct (ENABLE_WORKSPACE_MODE pe) eqn:Emode.
    + exfalso. apply Hne; [now right | reflexivity].
    + destruct args as [|a args]; [|exfalso; apply Hne; [left; discriminate | reflexivity]].
      unfold oninitialized, bind, getAllowedDirectories. rewrite Ea, Emode.
      cbn [length Nat.ltb Nat.leb fst snd throw].
      split; [|split; [discriminate | discriminate]].
      split; [intros _; now split | intros _; eexists; reflexivity].
  - cbn [fst snd]. split; [|split; [intros _; rewrite Ea; discriminate | discriminate]].
    split; [intros [error H]; discriminate|].
    intros [-> Emode]. discriminate (Hoff eq_refl Emode).
Qed.

End Initialized.
Lemma server_refuses_without_directories_witness :
  let pe := {| env_ENABLED_TOOLS := None; env_WORKSPACE_ROOT := None;
               env_PWD := None; env_ENABLE_WORKSPACE_MODE := Some ("false" : text);
               env_MORPH_API_KEY := None |} in
  let getValid : list text -> M MemFS.node unit (list text) := fun roots => ret roots in
  let listRoots : M MemFS.node unit (option (list text)) := ret None in
  (exists error,
     fst ((initAllowedDirectories pe [] ;;;
           oninitialized getValid listRoots pe false) Scenario.initial) = Throw error) /\
  fst ((initAllowedDirectories pe ["/ws" : text] ;;;
        oninitialized getValid listRoots pe false) Scenario.initial) = Ok tt.
Proof.
  intros pe getValid listRoots. split; [|vm_compute; reflexivity].
  apply (proj2 (proj1 (server_refuses_without_directories text getValid listRoots pe
                         Scenario.initial [] ltac:(vm_compute; reflexivity)))).
  split; [reflexivity | vm_compute; reflexivity].
Defined.

(* ================================================================== *)
(** * Part IV: exclusion in the search *)
(* ================================================================== *)

(** ** What an exclusion glob made from a plain name matches *)












(** ** The calls of a search *)

Section SearchTrace.
Context {W : Type} {FS : FileSystem W} {PK : Packages}.
Variables (w : W) (e : environment).
Variables (rootPath pattern : text) (excludePatterns : list text).













End SearchTrace.

(** ** C6 *)



